(** * Patch hierarchy engine of [05-hpc.ipynb]: model and verification

    The notebook defines three classes, [problem], [patch] and
    [mr_simulation].  A [patch] owns a two-dimensional numpy buffer
    [data] of shape [(nv, nx + 2*ngz)], may point to a parent patch, and
    has methods that fill ghost cells ([bcs_periodic], [bcs_mr]), average
    its interior into the parent ([restrict_interior]) and advance one
    explicit Euler step ([euler_step]).  [mr_simulation] builds a list of
    levels of patches and drives them ([evolve]).

    Patches are Python objects that are mutated in place and shared (a
    child reads and writes its parent's buffer), so the model keeps all
    patches in one heap and lets methods run in a state-and-exception
    monad over it.  Array entries are kept abstract behind the class
    [Scalar]; it is instantiated with exact rationals and with IEEE
    binary64 numbers.  The plotting methods, [grid] and [initial_data]
    (which need [np.linspace] and [np.exp]) are left out. *)

From Stdlib Require Import ZArith QArith Qcanon Lia String Floats.
From stdpp Require Import base tactics option list numbers.

Set Default Proof Using "Type".
Open Scope Z_scope.
Open Scope nat_scope.

(** ** Scalars *)

(** The arithmetic the notebook performs on array entries and on the
    Python floats [dx], [dt], [t].  [s_of_Z] is the conversion of a Python
    [int] to a float (as in [3 * a], [t = 0], [2**i]), [s_quarter] and
    [s_half] are the literals [0.25] and [0.5], and [s_div] is Python
    float division, which raises on a zero divisor ([None]). *)
Class Scalar (R : Type) : Type := {
  s_of_Z : Z -> R;
  s_quarter : R;
  s_half : R;
  s_add : R -> R -> R;
  s_sub : R -> R -> R;
  s_mul : R -> R -> R;
  s_div : R -> R -> option R;
  s_ltb : R -> R -> bool
}.

(** Exact rational arithmetic. *)
#[export] Instance Qc_Scalar : Scalar Qc := {|
  s_of_Z z := Q2Qc (inject_Z z);
  s_quarter := Q2Qc (1 # 4);
  s_half := Q2Qc (1 # 2);
  s_add := Qcplus;
  s_sub := Qcminus;
  s_mul := Qcmult;
  s_div a b := if Qc_eq_dec b (Q2Qc 0) then None else Some (Qcdiv a b);
  s_ltb a b := match Qccompare a b with Lt => true | _ => false end
|}.

(** IEEE 754 binary64 arithmetic, the entry type of [np.zeros].  The
    conversion from [int] is exact for the small constants the notebook
    uses; it is only meant for integers below [2^63] in absolute value. *)
Definition float_of_Z (z : Z) : float :=
  match z with
  | Z0 => PrimFloat.zero
  | Zpos _ => PrimFloat.of_uint63 (Uint63.of_Z z)
  | Zneg p => PrimFloat.opp (PrimFloat.of_uint63 (Uint63.of_Z (Zpos p)))
  end.

#[export] Instance float_Scalar : Scalar float := {|
  s_of_Z := float_of_Z;
  s_quarter := 0.25%float;
  s_half := 0.5%float;
  s_add := PrimFloat.add;
  s_sub := PrimFloat.sub;
  s_mul := PrimFloat.mul;
  s_div a b := if PrimFloat.eqb b PrimFloat.zero then None
               else Some (PrimFloat.div a b);
  s_ltb := PrimFloat.ltb
|}.

(** ** Python exceptions and results *)

Inductive exn : Type :=
  | IndexError
  | TypeError
  | ValueError
  | AttributeError
  | ZeroDivisionError
  | NotImplementedError
  | InvalidReference   (* a heap address with no object: never arises from the constructors *)
  | FuelExhausted.     (* the bound on loop iterations of the model was reached *)

Inductive result (A : Type) : Type :=
  | Ok (a : A)
  | Raise (e : exn).
Arguments Ok {A} a.
Arguments Raise {A} e.

Definition of_option {A} (e : exn) (o : option A) : result A :=
  match o with Some a => Ok a | None => Raise e end.

(** ** Python indices and slices *)

(** [a[i]] on an axis of length [n]: [0 <= i < n] is taken as it is,
    [-n <= i < 0] counts from the end, anything else is an [IndexError]. *)
Definition py_index (n : nat) (i : Z) : option nat :=
  if ((0 <=? i) && (i <? Z.of_nat n))%Z then Some (Z.to_nat i)
  else if ((- Z.of_nat n <=? i) && (i <? 0))%Z then Some (Z.to_nat (i + Z.of_nat n))
  else None.

(** One bound of a slice [a[lo:hi]]: negative bounds count from the end,
    and every bound is clipped to [0..n]. *)
Definition py_bound (n : nat) (i : Z) : nat :=
  if (i <? 0)%Z then Z.to_nat (Z.max (i + Z.of_nat n) 0)
  else Z.to_nat (Z.min i (Z.of_nat n)).

(** Start and length of [a[lo:hi]]; a missing bound is [None]. *)
Definition py_slice (n : nat) (lo hi : option Z) : nat * nat :=
  let start := from_option (py_bound n) 0 lo in
  let stop := from_option (py_bound n) n hi in
  (start, stop - start).

(** ** Two-dimensional numpy arrays *)

Section Engine.
Context {R : Type} `{Scalar R}.

(** An array of shape [(length rows, ncols)]; every row has [ncols]
    entries ([wf_array]). *)
Record ndarray : Type := NdArray { ncols : nat; rows : list (list R) }.

Definition nrows (a : ndarray) : nat := length (rows a).

Definition wf_array (a : ndarray) : Prop :=
  Forall (fun r => length r = ncols a) (rows a).

Definition has_shape (a : ndarray) (r c : nat) : Prop :=
  nrows a = r /\ ncols a = c /\ wf_array a.

(** Entry [(r, j)], with the zero of [np.zeros] outside the array. *)
Definition cell (a : ndarray) (r j : nat) : R :=
  default (s_of_Z 0) (rows a !! r ≫= fun row => row !! j).

(** [np.zeros((r, c))] *)
Definition zeros (r c : nat) : ndarray :=
  NdArray c (replicate r (replicate c (s_of_Z 0))).

(** [a[:, j]]: one entry per row. *)
Definition get_col (a : ndarray) (j : Z) : result (list R) :=
  match py_index (ncols a) j with
  | Some k => Ok (map (fun row => default (s_of_Z 0) (row !! k)) (rows a))
  | None => Raise IndexError
  end.

(** Broadcasting of a vector to length [n]: equal lengths, or length 1. *)
Definition broadcast_vec (n : nat) (v : list R) : result (list R) :=
  if decide (length v = n) then Ok v
  else match v with
       | [x] => Ok (replicate n x)
       | _ => Raise ValueError
       end.

(** [a[:, j] = v] *)
Definition set_col (a : ndarray) (j : Z) (v : list R) : result ndarray :=
  match py_index (ncols a) j with
  | Some k =>
      match broadcast_vec (nrows a) v with
      | Ok v' => Ok (NdArray (ncols a) (zip_with (fun row x => <[k:=x]> row) (rows a) v'))
      | Raise e => Raise e
      end
  | None => Raise IndexError
  end.

(** Vector arithmetic on columns of one array (always of equal length). *)
Definition vadd (u v : list R) : list R := zip_with s_add u v.
Definition vscale (c : R) (v : list R) : list R := map (s_mul c) v.

(** [a[:, lo:hi]] *)
Definition get_slice (a : ndarray) (lo hi : option Z) : ndarray :=
  let '(start, len) := py_slice (ncols a) lo hi in
  NdArray len (map (fun row => take len (drop start row)) (rows a)).

(** Broadcasting of [b] to shape [(r, c)]: every axis of [b] has the
    wanted length or length 1. *)
Definition broadcast_rows (r : nat) (l : list (list R)) : result (list (list R)) :=
  if decide (length l = r) then Ok l
  else match l with
       | [row] => Ok (replicate r row)
       | _ => Raise ValueError
       end.

Fixpoint broadcast_cols (c : nat) (l : list (list R)) : result (list (list R)) :=
  match l with
  | [] => Ok []
  | row :: l' =>
      match broadcast_vec c row, broadcast_cols c l' with
      | Ok row', Ok l'' => Ok (row' :: l'')
      | Raise e, _ => Raise e
      | _, Raise e => Raise e
      end
  end.

Definition broadcast_to (r c : nat) (b : ndarray) : result (list (list R)) :=
  match broadcast_cols c (rows b) with
  | Ok l => broadcast_rows r l
  | Raise e => Raise e
  end.

(** [a[:, lo:hi] = b]; the right-hand side is read before anything is
    written, as numpy does for overlapping views. *)
Definition set_slice (a : ndarray) (lo hi : option Z) (b : ndarray) : result ndarray :=
  let '(start, len) := py_slice (ncols a) lo hi in
  match broadcast_to (nrows a) len b with
  | Ok l =>
      Ok (NdArray (ncols a)
            (zip_with (fun row new => take start row ++ new ++ drop (start + len) row)
               (rows a) l))
  | Raise e => Raise e
  end.

(** [a += b] *)
Definition iadd (a b : ndarray) : result ndarray :=
  match broadcast_to (nrows a) (ncols a) b with
  | Ok l => Ok (NdArray (ncols a) (zip_with (zip_with s_add) (rows a) l))
  | Raise e => Raise e
  end.

(** [c * a] for a Python float [c] *)
Definition smul (c : R) (a : ndarray) : ndarray :=
  NdArray (ncols a) (map (map (s_mul c)) (rows a)).

End Engine.
Arguments ndarray R : clear implicits.

(** ** Objects: problems, patches and the heap *)

(** Patches are referred to by their address in the heap. *)
Abbreviation ref := nat.

Section Objects.
Context {R : Type} `{Scalar R}.

(** [class problem]: the number of variables, their names and the
    right-hand side [rhs(data, dx)], a user-supplied Python function. *)
Record problem : Type := Problem {
  nv : nat;
  names : list string;
  rhs : ndarray R -> R -> result (ndarray R)
}.

(** The bound method stored in [self.bcs] by the constructor; the only
    one the constructor ever stores is [self.bcs_periodic]. *)
Inductive bc_method : Type := bcs_periodic_method.

(** [class patch].  The counts [nx] and [ngz] are natural numbers; the
    offset into the parent is a Python integer or [None]. *)
Record patch : Type := Patch {
  patch_problem : problem;
  nx : nat;
  ngz : nat;
  bcs : bc_method;
  x0 : R;
  dx : R;
  parent : option ref;
  parent_i_start : option Z;
  data : ndarray R
}.

Definition with_data (p : patch) (d : ndarray R) : patch :=
  Patch (patch_problem p) (nx p) (ngz p) (bcs p) (x0 p) (dx p)
        (parent p) (parent_i_start p) d.

(** The heap: all patches built so far, in the order of construction. *)
#[local] Abbreviation heap := (list patch).

(** Computations that read and update the heap and may raise.  The heap
    reached when an exception is raised is kept: writes made before the
    exception stay. *)
Definition M (A : Type) : Type := heap -> heap * result A.

Definition ret {A} (a : A) : M A := fun h => (h, Ok a).
Definition raise {A} (e : exn) : M A := fun h => (h, Raise e).
Definition bind {A B} (m : M A) (f : A -> M B) : M B :=
  fun h => match m h with
           | (h', Ok a) => f a h'
           | (h', Raise e) => (h', Raise e)
           end.
Definition lift {A} (r : result A) : M A := fun h => (h, r).

End Objects.
Arguments problem R : clear implicits.
Arguments patch R : clear implicits.
Abbreviation heap R := (list (patch R)).
Arguments M R A : clear implicits.

Notation "'do' x <- m ; k" := (bind m (fun x => k))
  (at level 10, x name, m at level 100, k at level 200,
   format "'[v' 'do'  x  <-  m ; '/' k ']'").
Notation "'run' m ; k" := (bind m (fun _ => k))
  (at level 10, m at level 100, k at level 200,
   format "'[v' 'run'  m ; '/' k ']'").

Section Methods.
Context {R : Type} `{Scalar R}.

Definition get_patch (self : ref) : M R (patch R) :=
  fun h => (h, of_option InvalidReference (h !! self)).

(** Replace the contents of [self.data] (the array object is mutated in
    place, so every holder of the patch sees the new contents). *)
Definition set_data (self : ref) (d : ndarray R) : M R unit :=
  fun h => match h !! self with
           | Some p => (<[self := with_data p d]> h, Ok tt)
           | None => (h, Raise InvalidReference)
           end.

(** An in-place update [self.data[...] = ...] or [self.data += ...]:
    [f] computes the new contents from the current ones. *)
Definition update_data (self : ref) (f : ndarray R -> result (ndarray R)) : M R unit :=
  do p <- get_patch self;
  do d <- lift (f (data p));
  set_data self d.

(** [for x in l: f x] *)
Fixpoint for_each {A} (l : list A) (f : A -> M R unit) : M R unit :=
  match l with
  | [] => ret tt
  | x :: l' => run f x; for_each l' f
  end.

(** [for i in range(n): f i] *)
Definition for_range (n : nat) (f : nat -> M R unit) : M R unit :=
  for_each (seq 0 n) f.

(** [patch.__init__]: the boundary-kind string is compared with
    ["Periodic"]; any other string raises.  The new object gets a fresh
    buffer of zeros and the next free address. *)
Definition patch_init (pr : problem R) (nx_ ngz_ : nat) (x0_ dx_ : R)
    (bcs_ : string) (parent_ : option ref) (parent_i_start_ : option Z) : M R ref :=
  if String.eqb bcs_ "Periodic" then
    fun h =>
      (h ++ [Patch pr nx_ ngz_ bcs_periodic_method x0_ dx_ parent_ parent_i_start_
               (zeros (nv pr) (nx_ + 2 * ngz_))],
       Ok (length h))
  else raise NotImplementedError.

(** [patch.bcs_periodic] *)
Definition bcs_periodic (self : ref) : M R unit :=
  do p <- get_patch self;
  let g := Z.of_nat (ngz p) in
  run update_data self (fun d =>
        set_slice d None (Some g) (get_slice d (Some (-2 * g)%Z) (Some (- g)%Z)));
  update_data self (fun d =>
    set_slice d (Some (- g)%Z) None (get_slice d (Some g) (Some (2 * g)%Z))).

(** [self.parent.data[:, j]] *)
Definition parent_col (self : ref) (j : Z) : M R (list R) :=
  do p <- get_patch self;
  match parent p with
  | None => raise AttributeError
  | Some q => do pq <- get_patch q; lift (get_col (data pq) j)
  end.

(** [self.data[:, j]] *)
Definition self_col (self : ref) (j : Z) : M R (list R) :=
  do p <- get_patch self; lift (get_col (data p) j).

(** [self.data[:, j] = v] *)
Definition set_self_col (self : ref) (j : Z) (v : list R) : M R unit :=
  update_data self (fun d => set_col d j v).

(** [self.parent.data[:, j] = v] *)
Definition set_parent_col (self : ref) (j : Z) (v : list R) : M R unit :=
  do p <- get_patch self;
  match parent p with
  | None => raise AttributeError
  | Some q => update_data q (fun d => set_col d j v)
  end.

(** [0.25*(a + 3*b)] and [0.25*(3*a + b)] on columns *)
Definition quarter_1_3 (a b : list R) : list R :=
  vscale s_quarter (vadd a (vscale (s_of_Z 3) b)).
Definition quarter_3_1 (a b : list R) : list R :=
  vscale s_quarter (vadd (vscale (s_of_Z 3) a) b).

(** One pass of the loop of [bcs_mr] *)
Definition bcs_mr_body (self : ref) (i_s i_e : Z) (i : nat) : M R unit :=
  let i := Z.of_nat i in
  do a <- parent_col self (i_s - 2)%Z;
  do b <- parent_col self (i_s - 1)%Z;
  run set_self_col self (2 * i)%Z (quarter_1_3 a b);
  do a <- parent_col self (i_s - 1)%Z;
  do b <- parent_col self i_s;
  run set_self_col self (2 * i + 1)%Z (quarter_3_1 a b);
  do a <- parent_col self (i_e + 1)%Z;
  do b <- parent_col self (i_e + 2)%Z;
  run set_self_col self (-2 * i - 1)%Z (quarter_3_1 a b);
  do a <- parent_col self i_e;
  do b <- parent_col self (i_e + 1)%Z;
  set_self_col self (-2 * i - 2)%Z (quarter_1_3 a b).

(** [patch.bcs_mr]; [parent_i_start + ngz//2] raises when the offset is
    [None]. *)
Definition bcs_mr (self : ref) : M R unit :=
  do p <- get_patch self;
  match parent_i_start p with
  | None => raise TypeError
  | Some i_s =>
      let i_e := (i_s + Z.of_nat (ngz p / 2))%Z in
      for_range (ngz p / 2) (bcs_mr_body self i_s i_e)
  end.

(** One pass of the loop of [restrict_interior]: the right-hand side is
    evaluated first, then the target index. *)
Definition restrict_body (self : ref) (i : nat) : M R unit :=
  do p <- get_patch self;
  let i := Z.of_nat i in
  let g := Z.of_nat (ngz p) in
  do a <- self_col self (2 * i + g)%Z;
  do b <- self_col self (2 * i + 1 + g)%Z;
  match parent_i_start p with
  | None => raise TypeError
  | Some s => set_parent_col self (s + i)%Z (vscale s_half (vadd a b))
  end.

(** [patch.restrict_interior] *)
Definition restrict_interior (self : ref) : M R unit :=
  do p <- get_patch self;
  match parent p with
  | None => ret tt
  | Some _ => for_range (nx p / 2) (restrict_body self)
  end.

(** [self.data += dt * self.problem.rhs(self.data, self.dx)] *)
Definition euler_update (self : ref) (dt : R) : M R unit :=
  do p <- get_patch self;
  do k <- lift (rhs (patch_problem p) (data p) (dx p));
  update_data self (fun d => iadd d (smul dt k)).

(** [self.bcs()] *)
Definition call_bcs (self : ref) : M R unit :=
  do p <- get_patch self;
  match bcs p with
  | bcs_periodic_method => bcs_periodic self
  end.

(** [patch.euler_step].  Both fill methods return [self.data] itself, so
    the assignment [self.data = ...] changes nothing further. *)
Definition euler_step (self : ref) (dt : R) : M R unit :=
  run euler_update self dt;
  do p <- get_patch self;
  match parent p with
  | None => call_bcs self
  | Some _ => bcs_mr self
  end.

End Methods.

(** ** The hierarchy driver *)

Section Driver.
Context {R : Type} `{Scalar R}.

(** [l[i]] on a Python list *)
Definition py_nth {A} (l : list A) (i : Z) : result A :=
  of_option IndexError (py_index (length l) i ≫= fun k => l !! k).

(** [class mr_simulation] *)
Record mr_simulation : Type := MrSimulation {
  sim_problem : problem R;
  levels : list (list ref)
}.

(** The loop [for j, xc in enumerate(x_centres)] of the constructor, on
    level [i]; [j] counts the centres already handled and [level] holds
    the patches already appended. *)
Fixpoint build_level (pr : problem R) (child_nx : nat) (dx_ : R)
    (lvls : list (list ref)) (i : nat) (xcs : list R) (j : nat)
    (level : list ref) : M R (list ref) :=
  match xcs with
  | [] => ret level
  | xc :: xcs' =>
      do prev <- lift (py_nth lvls (Z.of_nat i - 1)%Z);
      do par <- lift (py_nth prev (Z.of_nat j));
      do p <- patch_init pr child_nx 1
                (s_sub xc (s_mul (s_mul s_half (s_of_Z (Z.of_nat child_nx))) dx_))
                dx_ "Periodic" (Some par) (Some (Z.of_nat (child_nx / 4) + 1)%Z);
      build_level pr child_nx dx_ lvls i xcs' (S j) (level ++ [p])
  end.

(** The loop [for i in range(1, nlevels)] of the constructor. *)
Fixpoint build_levels (pr : problem R) (base_dx : R) (child_nx : nat)
    (x_centres : list R) (idxs : list nat) (lvls : list (list ref))
    : M R (list (list ref)) :=
  match idxs with
  | [] => ret lvls
  | i :: idxs' =>
      do dx_ <- lift (of_option ZeroDivisionError
                        (s_div base_dx (s_of_Z (2 ^ Z.of_nat i))));
      do level <- build_level pr child_nx dx_ lvls i x_centres 0 [];
      build_levels pr base_dx child_nx x_centres idxs' (lvls ++ [level])
  end.

(** [mr_simulation.__init__] *)
Definition mr_simulation_init (pr : problem R) (base_dx : R) (base_nx nlevels : nat)
    (x_centres : list R) (child_nx : nat) : M R mr_simulation :=
  do p_base <- patch_init pr base_nx 1 (s_of_Z 0) base_dx "Periodic" None None;
  do lvls <- build_levels pr base_dx child_nx x_centres
               (seq 1 (nlevels - 1)) [[p_base]];
  ret (MrSimulation pr lvls).

(** The body of the [while] loop of [evolve] after [t += dt]. *)
Definition evolve_pass (sim : mr_simulation) (dt : R) : M R unit :=
  run for_each (levels sim) (fun level =>
        for_each level (fun p => euler_step p dt));
  for_each (rev (levels sim)) (fun level =>
    for_each level (fun p => restrict_interior p)).

(** [while t < t_end: t += dt; ...], run for at most [fuel] passes. *)
Fixpoint evolve_loop (fuel : nat) (sim : mr_simulation) (dt t_end t : R) : M R unit :=
  if s_ltb t t_end then
    match fuel with
    | 0 => raise FuelExhausted
    | S fuel' =>
        run evolve_pass sim dt;
        evolve_loop fuel' sim dt t_end (s_add t dt)
    end
  else ret tt.

(** [mr_simulation.evolve] *)
Definition evolve (fuel : nat) (sim : mr_simulation) (t_end : R) : M R unit :=
  do finest <- lift (py_nth (levels sim) (-1)%Z);
  do p0 <- lift (py_nth finest 0%Z);
  do p <- get_patch p0;
  let dt := s_mul s_half (dx p) in
  evolve_loop fuel sim dt t_end (s_of_Z 0).

(** ** The advection problem of the notebook *)

(** [row[lo:hi]] on one row *)
Definition row_slice (row : list R) (lo hi : option Z) : list R :=
  let '(start, len) := py_slice (length row) lo hi in
  take len (drop start row).

(** [flux_advection]: [v*q] with [v = 1.0] *)
Definition flux_advection (q : list R) : list R := vscale (s_of_Z 1) q.

(** [RHS_advection]: a centred difference written into [dqdt[0, 1:-1]];
    the two slices on the right and the target slice always have the
    same length. *)
Definition RHS_advection (q : ndarray R) (dx_ : R) : result (ndarray R) :=
  match s_div (s_of_Z (-1)) (s_mul (s_of_Z 2) dx_) with
  | None => Raise ZeroDivisionError
  | Some c =>
      match rows q with
      | [] => Raise IndexError
      | q0 :: _ =>
          let vals := vscale c (zip_with s_sub
                                  (flux_advection (row_slice q0 (Some 2%Z) None))
                                  (flux_advection (row_slice q0 None (Some (-2)%Z)))) in
          let dqdt := zeros (nrows q) (ncols q) in
          match rows dqdt with
          | [] => Raise IndexError
          | z0 :: zs =>
              let '(start, len) := py_slice (length z0) (Some 1%Z) (Some (-1)%Z) in
              Ok (NdArray (ncols q)
                    ((take start z0 ++ vals ++ drop (start + len) z0) :: zs))
          end
      end
  end.

(** [advection = problem(1, [r'$q$'], RHS_advection)] *)
Definition advection : problem R := Problem 1 ["$q$"%string] RHS_advection.

End Driver.
Arguments mr_simulation R : clear implicits.

(** * Verification *)

(** ** Indices *)

Lemma py_index_nonneg (n : nat) (i : Z) :
  (0 <= i < Z.of_nat n)%Z -> py_index n i = Some (Z.to_nat i).
Proof.
  intros Hi. unfold py_index.
  destruct (Z.leb_spec 0 i), (Z.ltb_spec i (Z.of_nat n)); simpl; auto; lia.
Qed.

Lemma py_index_of_nat (n k : nat) :
  k < n -> py_index n (Z.of_nat k) = Some k.
Proof.
  intros Hk. rewrite py_index_nonneg by lia. f_equal. lia.
Qed.

Lemma py_index_neg (n : nat) (i : Z) :
  (- Z.of_nat n <= i < 0)%Z -> py_index n i = Some (Z.to_nat (i + Z.of_nat n)).
Proof.
  intros Hi. unfold py_index.
  destruct (Z.leb_spec 0 i); [lia|]. simpl.
  destruct (Z.leb_spec (- Z.of_nat n) i), (Z.ltb_spec i 0); simpl; auto; lia.
Qed.

Lemma py_index_lt (n : nat) (i : Z) (k : nat) :
  py_index n i = Some k -> k < n.
Proof.
  unfold py_index.
  destruct (Z.leb_spec 0 i), (Z.ltb_spec i (Z.of_nat n)); simpl;
    try (intros [= <-]; lia);
    destruct (Z.leb_spec (- Z.of_nat n) i), (Z.ltb_spec i 0); simpl;
    try discriminate; intros [= <-]; lia.
Qed.

Lemma py_bound_le (n : nat) (i : Z) : py_bound n i <= n.
Proof. unfold py_bound. destruct (Z.ltb_spec i 0); lia. Qed.

Lemma py_slice_le (n : nat) (lo hi : option Z) :
  fst (py_slice n lo hi) + snd (py_slice n lo hi) <= n.
Proof.
  unfold py_slice. simpl.
  assert (from_option (py_bound n) 0 lo <= n)
    by (destruct lo; simpl; [apply py_bound_le | lia]).
  assert (from_option (py_bound n) n hi <= n)
    by (destruct hi; simpl; [apply py_bound_le | lia]).
  lia.
Qed.

(** ** Shapes of arrays *)

Section ArrayFacts.
Context {R : Type} `{Scalar R}.
Implicit Types (a b d : ndarray R) (v : list R) (l : list (list R)).

(** [a'] has the shape of [a] (and is rectangular if [a] is). *)
Definition shape_eq a a' : Prop :=
  nrows a' = nrows a /\ ncols a' = ncols a /\ (wf_array a -> wf_array a').

Lemma shape_eq_refl a : shape_eq a a.
Proof. by repeat split. Qed.

Lemma shape_eq_trans a b d : shape_eq a b -> shape_eq b d -> shape_eq a d.
Proof.
  intros (?&?&?) (?&?&?). repeat split; [congruence | congruence | auto].
Qed.

Lemma has_shape_eq a a' r c : shape_eq a a' -> has_shape a r c -> has_shape a' r c.
Proof.
  intros (?&?&?) (?&?&?). repeat split; [congruence | congruence | auto].
Qed.

Lemma zeros_shape r c : has_shape (zeros r c : ndarray R) r c.
Proof.
  repeat split; unfold nrows, wf_array; simpl.
  - apply length_replicate.
  - apply Forall_replicate, length_replicate.
Qed.

Lemma broadcast_vec_length n v v' :
  broadcast_vec n v = Ok v' -> length v' = n.
Proof.
  unfold broadcast_vec. case_decide as Hn.
  - by intros [= <-].
  - destruct v as [|x [|??]]; try discriminate.
    intros [= <-]. apply length_replicate.
Qed.

Lemma broadcast_vec_same n v :
  length v = n -> broadcast_vec n v = Ok v.
Proof. intros Hn. unfold broadcast_vec. by rewrite decide_True. Qed.

Lemma broadcast_cols_spec c l l' :
  broadcast_cols c l = Ok l' ->
  length l' = length l /\ Forall (fun r => length r = c) l'.
Proof.
  revert l'. induction l as [|row l IH]; simpl; intros l'.
  - intros [= <-]. by split.
  - destruct (broadcast_vec c row) as [row'|e] eqn:Hrow; [|discriminate].
    destruct (broadcast_cols c l) as [l''|e]; [|discriminate].
    intros [= <-]. destruct (IH _ eq_refl) as [Hlen Hall].
    split; simpl; [by rewrite Hlen|].
    constructor; [by eapply broadcast_vec_length | done].
Qed.

Lemma broadcast_cols_same c l :
  Forall (fun r => length r = c) l -> broadcast_cols c l = Ok l.
Proof.
  induction 1 as [|row l Hrow _ IH]; simpl; [done|].
  by rewrite (broadcast_vec_same _ _ Hrow), IH.
Qed.

Lemma broadcast_rows_spec (P : list R -> Prop) r l l' :
  broadcast_rows r l = Ok l' -> length l' = r /\ (Forall P l -> Forall P l').
Proof.
  unfold broadcast_rows. case_decide as Hr.
  - intros [= <-]. by split.
  - destruct l as [|row [|??]]; try discriminate.
    intros [= <-]. split; [apply length_replicate|].
    intros Hall. apply Forall_replicate. by inversion Hall.
Qed.

Lemma broadcast_to_spec r c b l :
  broadcast_to r c b = Ok l ->
  length l = r /\ Forall (fun row => length row = c) l.
Proof.
  unfold broadcast_to.
  destruct (broadcast_cols c (rows b)) as [l0|e] eqn:Hc; [|discriminate].
  intros Hr. apply broadcast_cols_spec in Hc as [_ Hall].
  apply (broadcast_rows_spec (fun row => length row = c)) in Hr as [? ?]. auto.
Qed.

Lemma broadcast_to_same r c b :
  nrows b = r -> Forall (fun row => length row = c) (rows b) ->
  broadcast_to r c b = Ok (rows b).
Proof.
  intros Hr Hc. unfold broadcast_to, broadcast_rows.
  rewrite (broadcast_cols_same _ _ Hc). by rewrite decide_True.
Qed.

Lemma set_col_shape a j v a' : set_col a j v = Ok a' -> shape_eq a a'.
Proof.
  unfold set_col. destruct (py_index (ncols a) j) as [k|]; [|discriminate].
  destruct (broadcast_vec (nrows a) v) as [v'|e] eqn:Hv; [|discriminate].
  intros [= <-]. apply broadcast_vec_length in Hv.
  unfold shape_eq, nrows, wf_array in *; simpl. split_and!.
  - rewrite length_zip_with. lia.
  - done.
  - intros Hwf. apply Forall_lookup_2. intros i row.
    rewrite lookup_zip_with_Some. intros (row0 & x & -> & Hrow0 & _).
    rewrite length_insert. by eapply Forall_lookup_1 in Hwf.
Qed.

Lemma set_slice_shape a lo hi b a' : set_slice a lo hi b = Ok a' -> shape_eq a a'.
Proof.
  unfold set_slice. pose proof (py_slice_le (ncols a) lo hi) as Hle.
  destruct (py_slice (ncols a) lo hi) as [start len]; simpl in Hle.
  destruct (broadcast_to (nrows a) len b) as [l|e] eqn:Hb; [|discriminate].
  intros [= <-]. apply broadcast_to_spec in Hb as [Hlen Hall].
  unfold shape_eq, nrows, wf_array in *; simpl. split_and!.
  - rewrite length_zip_with. lia.
  - done.
  - intros Hwf. apply Forall_lookup_2. intros i row.
    rewrite lookup_zip_with_Some. intros (row0 & new & -> & Hrow0 & Hnew).
    eapply Forall_lookup_1 in Hwf; [|done].
    eapply Forall_lookup_1 in Hall; [|done]. simpl in *.
    rewrite !length_app, length_take, length_drop. lia.
Qed.

Lemma iadd_shape a b a' : iadd a b = Ok a' -> shape_eq a a'.
Proof.
  unfold iadd.
  destruct (broadcast_to (nrows a) (ncols a) b) as [l|e] eqn:Hb; [|discriminate].
  intros [= <-]. apply broadcast_to_spec in Hb as [Hlen Hall].
  unfold shape_eq, nrows, wf_array in *; simpl. split_and!.
  - rewrite length_zip_with. lia.
  - done.
  - intros Hwf. apply Forall_lookup_2. intros i row.
    rewrite lookup_zip_with_Some. intros (row0 & new & -> & Hrow0 & Hnew).
    eapply Forall_lookup_1 in Hwf; [|done].
    eapply Forall_lookup_1 in Hall; [|done]. simpl in *.
    rewrite length_zip_with. lia.
Qed.

End ArrayFacts.

(** ** Heaps: what a method may change *)

Section HeapFacts.
Context {R : Type} `{Scalar R}.
Implicit Types (h : heap R) (p : patch R) (self q : ref).

(** The buffer of a patch has the shape fixed by its constructor. *)
Definition patch_ok p : Prop :=
  has_shape (data p) (nv (patch_problem p)) (nx p + 2 * ngz p).

Definition heap_ok h : Prop := Forall patch_ok h.

(** [p'] is [p] with new buffer contents of the same shape. *)
Definition patch_step p p' : Prop :=
  exists d, p' = with_data p d /\ shape_eq (data p) d.

(** Every patch of [h] is still there in [h'], with all of its fields but
    the contents of its buffer. *)
Definition heap_step h h' : Prop := Forall2 patch_step h h'.

(** A computation that only rewrites buffer contents, whatever it
    returns or raises. *)
Definition preserving {A} (m : M R A) : Prop :=
  forall h, heap_step h (fst (m h)).

Lemma with_data_id p : with_data p (data p) = p.
Proof. by destruct p. Qed.

Lemma with_data_twice p d d' : with_data (with_data p d) d' = with_data p d'.
Proof. done. Qed.

Lemma patch_step_refl p : patch_step p p.
Proof. exists (data p). split; [by rewrite with_data_id | apply shape_eq_refl]. Qed.

Lemma patch_step_trans p1 p2 p3 :
  patch_step p1 p2 -> patch_step p2 p3 -> patch_step p1 p3.
Proof.
  intros (d & -> & Hd) (d' & -> & Hd'). exists d'. split; [done|].
  eapply shape_eq_trans; [exact Hd | exact Hd'].
Qed.

Lemma patch_step_ok p p' : patch_step p p' -> patch_ok p -> patch_ok p'.
Proof.
  intros (d & -> & Hd). unfold patch_ok. simpl. by apply has_shape_eq.
Qed.

Lemma heap_step_refl h : heap_step h h.
Proof. apply Forall2_same_length_lookup_2; [done|]. intros i p p' ? ?.
  simplify_eq. apply patch_step_refl. Qed.

Lemma heap_step_trans h1 h2 h3 :
  heap_step h1 h2 -> heap_step h2 h3 -> heap_step h1 h3.
Proof.
  intros H12 H23.
  eapply Forall2_trans; [|exact H12|exact H23].
  intros ? ? ?. apply patch_step_trans.
Qed.

Lemma heap_step_length h h' : heap_step h h' -> length h' = length h.
Proof. intros Hs. symmetry. by eapply Forall2_length. Qed.

Lemma heap_step_lookup h h' self p :
  heap_step h h' -> h !! self = Some p ->
  exists p', h' !! self = Some p' /\ patch_step p p'.
Proof. intros Hs Hp. by eapply Forall2_lookup_l in Hs. Qed.

Lemma heap_step_ok h h' : heap_step h h' -> heap_ok h -> heap_ok h'.
Proof.
  unfold heap_ok. induction 1; intros Hok; inversion Hok; subst; constructor.
  - by eapply patch_step_ok.
  - auto.
Qed.

Lemma heap_step_insert h self p d :
  h !! self = Some p -> shape_eq (data p) d ->
  heap_step h (<[self := with_data p d]> h).
Proof.
  intros Hp Hd. rewrite <- (list_insert_id h self p) at 1 by done.
  apply Forall2_insert; [apply heap_step_refl|]. by exists d.
Qed.

Lemma preserving_ret {A} (a : A) : preserving (ret a).
Proof. intros h. apply heap_step_refl. Qed.

Lemma preserving_raise {A} e : preserving (raise e : M R A).
Proof. intros h. apply heap_step_refl. Qed.

Lemma preserving_lift {A} (r : result A) : preserving (lift r).
Proof. intros h. apply heap_step_refl. Qed.

Lemma preserving_get_patch self : preserving (get_patch self).
Proof. intros h. apply heap_step_refl. Qed.

Lemma preserving_bind {A B} (m : M R A) (f : A -> M R B) :
  preserving m -> (forall a, preserving (f a)) -> preserving (bind m f).
Proof.
  intros Hm Hf h. unfold bind. specialize (Hm h).
  destruct (m h) as [h' [a|e]]; simpl in *; [|done].
  eapply heap_step_trans; [exact Hm | apply Hf].
Qed.

Lemma preserving_update_data self (f : ndarray R -> result (ndarray R)) :
  (forall d d', f d = Ok d' -> shape_eq d d') ->
  preserving (update_data self f).
Proof.
  intros Hf h. unfold update_data, bind, get_patch, lift, set_data. simpl.
  destruct (h !! self) as [p|] eqn:Hp; simpl; [|apply heap_step_refl].
  destruct (f (data p)) as [d|e] eqn:Hd; simpl; [|apply heap_step_refl].
  apply heap_step_insert; auto.
Qed.

Lemma preserving_for_each {A} (l : list A) (f : A -> M R unit) :
  (forall x, preserving (f x)) -> preserving (for_each l f).
Proof.
  intros Hf. induction l as [|x l IH]; simpl.
  - apply preserving_ret.
  - apply preserving_bind; auto.
Qed.

Lemma preserving_for_range n (f : nat -> M R unit) :
  (forall i, preserving (f i)) -> preserving (for_range n f).
Proof. apply preserving_for_each. Qed.

Create HintDb preserving.
#[local] Hint Resolve preserving_ret preserving_raise preserving_lift
  preserving_get_patch : preserving.

(** Solves [preserving] goals by following the structure of the method. *)
Ltac preserve :=
  repeat match goal with
    | |- preserving (update_data _ _) =>
        apply preserving_update_data; intros ? ?; cbv beta;
        first [ apply set_col_shape | apply set_slice_shape | apply iadd_shape ]
    | |- preserving (bind _ _) => apply preserving_bind; [| intros ?]
    | |- preserving (for_range _ _) => apply preserving_for_range; intros ?
    | |- preserving (for_each _ _) => apply preserving_for_each; intros ?
    | |- preserving (match ?x with _ => _ end) => destruct x
    | |- preserving _ => solve [auto with preserving nocore]
    end.

Lemma preserving_set_self_col self j v : preserving (set_self_col self j v).
Proof. unfold set_self_col. preserve. Qed.

Lemma preserving_parent_col self j : preserving (parent_col self j).
Proof. unfold parent_col. preserve. Qed.

Lemma preserving_self_col self j : preserving (self_col self j).
Proof. unfold self_col. preserve. Qed.

Lemma preserving_set_parent_col self j v : preserving (set_parent_col self j v).
Proof. unfold set_parent_col. preserve. Qed.

#[local] Hint Resolve preserving_set_self_col preserving_parent_col
  preserving_self_col preserving_set_parent_col : preserving.

Lemma preserving_bcs_periodic self : preserving (bcs_periodic self).
Proof. unfold bcs_periodic. preserve. Qed.

Lemma preserving_bcs_mr self : preserving (bcs_mr self).
Proof. unfold bcs_mr, bcs_mr_body. preserve. Qed.

Lemma preserving_restrict_interior self : preserving (restrict_interior self).
Proof. unfold restrict_interior, restrict_body. preserve. Qed.

Lemma preserving_euler_update self dt : preserving (euler_update self dt).
Proof. unfold euler_update. preserve. Qed.

#[local] Hint Resolve preserving_bcs_periodic preserving_bcs_mr
  preserving_restrict_interior preserving_euler_update : preserving.

Lemma preserving_call_bcs self : preserving (call_bcs self).
Proof. unfold call_bcs. preserve. Qed.

#[local] Hint Resolve preserving_call_bcs : preserving.

Lemma preserving_euler_step self dt : preserving (euler_step self dt).
Proof. unfold euler_step. preserve. Qed.

End HeapFacts.

(** ** Which exceptions a method can raise *)

Section Quiet.
Context {R : Type} `{Scalar R}.
Implicit Types (h : heap R) (p : patch R) (self q : ref).

(** [m] never raises [NotImplementedError]. *)
Definition quiet {A} (m : M R A) : Prop :=
  forall h, snd (m h) <> Raise NotImplementedError.

Definition rquiet {A} (r : result A) : Prop := r <> Raise NotImplementedError.

Lemma quiet_ret {A} (a : A) : quiet (ret a).
Proof. by intros h. Qed.

Lemma quiet_lift {A} (r : result A) : rquiet r -> quiet (lift r).
Proof. by intros Hr h. Qed.

Lemma quiet_get_patch self : quiet (get_patch self).
Proof. intros h. unfold get_patch. simpl. destruct (h !! self); simpl; congruence. Qed.

Lemma quiet_set_data self d : quiet (set_data self d).
Proof. intros h. unfold set_data. destruct (h !! self); simpl; congruence. Qed.

Lemma quiet_bind {A B} (m : M R A) (f : A -> M R B) :
  quiet m -> (forall a, quiet (f a)) -> quiet (bind m f).
Proof.
  intros Hm Hf h. unfold bind. specialize (Hm h).
  destruct (m h) as [h' [a|e]]; simpl in *; [apply Hf | congruence].
Qed.

Lemma quiet_for_each {A} (l : list A) (f : A -> M R unit) :
  (forall x, quiet (f x)) -> quiet (for_each l f).
Proof.
  intros Hf. induction l as [|x l IH]; simpl.
  - apply quiet_ret.
  - apply quiet_bind; auto.
Qed.

Lemma rquiet_broadcast_vec n (v : list R) : rquiet (broadcast_vec n v).
Proof.
  unfold rquiet, broadcast_vec. case_decide; [done|].
  by destruct v as [|? [|??]].
Qed.

Lemma rquiet_broadcast_to r c (b : ndarray R) : rquiet (broadcast_to r c b).
Proof.
  unfold rquiet, broadcast_to.
  assert (forall l : list (list R), broadcast_cols c l <> Raise NotImplementedError) as Hc.
  { induction l as [|row l IH]; simpl; [done|].
    pose proof (rquiet_broadcast_vec c row) as Hv. unfold rquiet in Hv.
    destruct (broadcast_vec c row), (broadcast_cols c l); congruence. }
  specialize (Hc (rows b)).
  destruct (broadcast_cols c (rows b)) as [l|e]; [|congruence].
  unfold broadcast_rows. case_decide; [done|]. by destruct l as [|? [|??]].
Qed.

Lemma rquiet_get_col (a : ndarray R) j : rquiet (get_col a j).
Proof. unfold rquiet, get_col. by destruct (py_index (ncols a) j). Qed.

Lemma rquiet_set_col (a : ndarray R) j v : rquiet (set_col a j v).
Proof.
  unfold rquiet, set_col. destruct (py_index (ncols a) j); [|done].
  pose proof (rquiet_broadcast_vec (nrows a) v) as Hv. unfold rquiet in Hv.
  destruct (broadcast_vec (nrows a) v); congruence.
Qed.

Lemma rquiet_set_slice (a : ndarray R) lo hi b : rquiet (set_slice a lo hi b).
Proof.
  unfold rquiet, set_slice. destruct (py_slice (ncols a) lo hi) as [start len].
  pose proof (rquiet_broadcast_to (nrows a) len b) as Hb. unfold rquiet in Hb.
  destruct (broadcast_to (nrows a) len b); congruence.
Qed.

Lemma rquiet_iadd (a b : ndarray R) : rquiet (iadd a b).
Proof.
  unfold rquiet, iadd.
  pose proof (rquiet_broadcast_to (nrows a) (ncols a) b) as Hb. unfold rquiet in Hb.
  destruct (broadcast_to (nrows a) (ncols a) b); congruence.
Qed.

(** Follows the structure of a method that applies no user function. *)
Ltac quiet :=
  repeat match goal with
    | |- quiet (bind _ _) => apply quiet_bind; [| intros ?]
    | |- quiet (for_range _ _) => apply quiet_for_each; intros ?
    | |- quiet (for_each _ _) => apply quiet_for_each; intros ?
    | |- quiet (ret _) => apply quiet_ret
    | |- quiet (raise _) => by intros ?
    | |- quiet (get_patch _) => apply quiet_get_patch
    | |- quiet (set_data _ _) => apply quiet_set_data
    | |- quiet (lift _) => apply quiet_lift
    | |- quiet (match ?x with _ => _ end) => destruct x
    | |- rquiet (get_col _ _) => apply rquiet_get_col
    | |- rquiet (set_col _ _ _) => apply rquiet_set_col
    | |- rquiet (set_slice _ _ _ _) => apply rquiet_set_slice
    | |- rquiet (iadd _ _) => apply rquiet_iadd
    end.

Lemma quiet_bcs_periodic self : quiet (bcs_periodic self).
Proof. unfold bcs_periodic, update_data. quiet. Qed.

Lemma quiet_bcs_mr self : quiet (bcs_mr self).
Proof.
  unfold bcs_mr, bcs_mr_body, set_self_col, parent_col, update_data. quiet.
Qed.

Lemma quiet_restrict_interior self : quiet (restrict_interior self).
Proof.
  unfold restrict_interior, restrict_body, set_parent_col, self_col, update_data.
  quiet.
Qed.

Lemma quiet_call_bcs self : quiet (call_bcs self).
Proof. unfold call_bcs. quiet. apply quiet_bcs_periodic. Qed.

(** [euler_step] applies the user's [rhs]; it raises
    [NotImplementedError] only if that function does. *)
Lemma euler_step_not_implemented self dt h :
  snd (euler_step self dt h) = Raise NotImplementedError ->
  exists p, h !! self = Some p /\
    rhs (patch_problem p) (data p) (dx p) = Raise NotImplementedError.
Proof.
  unfold euler_step, euler_update. unfold bind at 1 2. unfold get_patch at 1.
  simpl. destruct (h !! self) as [p|] eqn:Hp; simpl; [|done].
  unfold bind at 1, lift at 1.
  destruct (rhs (patch_problem p) (data p) (dx p)) as [k|e] eqn:Hk; simpl.
  - intros Hraise. exfalso. revert Hraise.
    assert (quiet (run update_data self (fun d => iadd d (smul dt k));
                   do p <- get_patch self;
                   match parent p with
                   | Some _ => bcs_mr self
                   | None => call_bcs self
                   end)) as Hq.
    { unfold update_data. quiet; first [apply quiet_bcs_mr | apply quiet_call_bcs]. }
    apply Hq.
  - intros [= ->]. eauto.
Qed.

End Quiet.

(** ** Construction, the shape invariant and the choice of the fill *)

Section PatchFacts.
Context {R : Type} `{Scalar R}.
Implicit Types (h : heap R) (p : patch R) (self q : ref) (pr : problem R).

Lemma patch_init_periodic pr nx_ ngz_ x0_ dx_ par pis h :
  patch_init pr nx_ ngz_ x0_ dx_ "Periodic" par pis h =
  (h ++ [Patch pr nx_ ngz_ bcs_periodic_method x0_ dx_ par pis
           (zeros (nv pr) (nx_ + 2 * ngz_))],
   Ok (length h)).
Proof. reflexivity. Qed.

Lemma patch_init_other pr nx_ ngz_ x0_ dx_ (bcs_ : string) par pis h :
  bcs_ <> "Periodic"%string ->
  patch_init pr nx_ ngz_ x0_ dx_ bcs_ par pis h = (h, Raise NotImplementedError).
Proof.
  intros Hne. unfold patch_init.
  by destruct (String.eqb_spec bcs_ "Periodic").
Qed.

Lemma heap_ok_snoc h p : heap_ok h -> patch_ok p -> heap_ok (h ++ [p]).
Proof. intros Hh Hp. apply Forall_app. split; [done | by constructor]. Qed.

(** After the update of [euler_step] the patch at [self] still has the
    parent it had. *)
Lemma euler_step_unfold self dt h p :
  h !! self = Some p ->
  euler_step self dt h =
  (run euler_update self dt;
   match parent p with
   | None => bcs_periodic self
   | Some _ => bcs_mr self
   end) h.
Proof.
  intros Hp. unfold euler_step, bind.
  pose proof (preserving_euler_update self dt h) as Hstep.
  destruct (euler_update self dt h) as [h' [[]|e]]; simpl in Hstep; [|done].
  destruct (heap_step_lookup _ _ _ _ Hstep Hp) as (p' & Hp' & d & -> & _).
  unfold get_patch at 1. rewrite Hp'. simpl.
  destruct (parent p); [done|].
  unfold call_bcs, bind, get_patch. rewrite Hp'. simpl. by destruct (bcs p).
Qed.

(** C9.  A patch is built with a buffer of shape
    [(nv, nx + 2*ngz)], and the periodic fill, the refinement fill, the
    Euler step and the restriction leave every patch of the heap with the
    fields it had and a buffer of that shape, also when they raise. *)
Theorem buffer_shape_invariant h (Hok : heap_ok h) :
  (forall pr nx_ ngz_ x0_ dx_ par pis,
     exists p,
       patch_init pr nx_ ngz_ x0_ dx_ "Periodic" par pis h = (h ++ [p], Ok (length h)) /\
       nrows (data p) = nv pr /\ ncols (data p) = nx_ + 2 * ngz_ /\
       wf_array (data p) /\ heap_ok (h ++ [p])) /\
  (forall self dt,
     let after := fun (m : M R unit) => fst (m h) in
     (heap_step h (after (bcs_periodic self)) /\ heap_ok (after (bcs_periodic self))) /\
     (heap_step h (after (bcs_mr self)) /\ heap_ok (after (bcs_mr self))) /\
     (heap_step h (after (euler_step self dt)) /\ heap_ok (after (euler_step self dt))) /\
     (heap_step h (after (restrict_interior self)) /\
      heap_ok (after (restrict_interior self)))).
Proof.
  split.
  - intros. eexists. rewrite patch_init_periodic. split; [reflexivity|].
    destruct (zeros_shape (R:=R) (nv pr) (nx_ + 2 * ngz_)) as (Hr & Hc & Hwf).
    simpl. split_and!; try done.
    apply heap_ok_snoc; [done|]. by repeat split.
  - intros self dt after. unfold after.
    split_and!;
      first [ apply preserving_bcs_periodic | apply preserving_bcs_mr
            | apply preserving_euler_step | apply preserving_restrict_interior
            | (eapply heap_step_ok; [|exact Hok]) ];
      first [ apply preserving_bcs_periodic | apply preserving_bcs_mr
            | apply preserving_euler_step | apply preserving_restrict_interior ].
Qed.

(** C4.  Restriction on a patch without a parent returns at once: the
    heap, hence every buffer in it, is what it was. *)
Theorem restrict_interior_no_parent h self p :
  h !! self = Some p -> parent p = None ->
  restrict_interior self h = (h, Ok tt).
Proof.
  intros Hp Hpar. unfold restrict_interior, bind, get_patch.
  rewrite Hp. simpl. by rewrite Hpar.
Qed.

(** C5.  The constructor raises [NotImplementedError] for every
    boundary-kind string but ["Periodic"], without allocating anything,
    and succeeds for ["Periodic"]; afterwards no method compares the
    string again: the fills and the restriction never raise
    [NotImplementedError], and the Euler step raises it only when the
    user's [rhs] does. *)
Theorem boundary_kind_checked_at_construction
    pr nx_ ngz_ x0_ dx_ (bcs_ : string) par pis h :
  (bcs_ <> "Periodic"%string ->
   patch_init pr nx_ ngz_ x0_ dx_ bcs_ par pis h = (h, Raise NotImplementedError)) /\
  (bcs_ = "Periodic"%string ->
   exists p, patch_init pr nx_ ngz_ x0_ dx_ bcs_ par pis h = (h ++ [p], Ok (length h)) /\
             bcs p = bcs_periodic_method) /\
  (forall self dt (h' : heap R),
     snd (call_bcs self h') <> Raise NotImplementedError /\
     snd (bcs_periodic self h') <> Raise NotImplementedError /\
     snd (bcs_mr self h') <> Raise NotImplementedError /\
     snd (restrict_interior self h') <> Raise NotImplementedError /\
     (snd (euler_step self dt h') = Raise NotImplementedError ->
      exists p, h' !! self = Some p /\
        rhs (patch_problem p) (data p) (dx p) = Raise NotImplementedError)).
Proof.
  split_and!.
  - apply patch_init_other.
  - intros ->. eexists. by rewrite patch_init_periodic.
  - intros self dt h'. split_and!.
    + apply quiet_call_bcs.
    + apply quiet_bcs_periodic.
    + apply quiet_bcs_mr.
    + apply quiet_restrict_interior.
    + apply euler_step_not_implemented.
Qed.

End PatchFacts.

(** ** Running updates on a known heap *)

Section Running.
Context {R : Type} `{Scalar R}.
Implicit Types (h : heap R) (p : patch R) (self q : ref) (a d : ndarray R).

Lemma update_data_ok self f h p d :
  h !! self = Some p -> f (data p) = Ok d ->
  update_data self f h = (<[self := with_data p d]> h, Ok tt).
Proof.
  intros Hp Hf. unfold update_data, bind, get_patch, lift, set_data. simpl.
  rewrite Hp. simpl. by rewrite Hf.
Qed.

Lemma lookup_with_data h self p d :
  h !! self = Some p -> <[self := with_data p d]> h !! self = Some (with_data p d).
Proof. intros Hp. apply list_lookup_insert_eq. by eapply lookup_lt_Some. Qed.

Lemma heap_insert_twice h self p p' :
  <[self := p']> (<[self := p]> h) = <[self := p']> h.
Proof. apply list_insert_insert_eq. Qed.

(** A loop that keeps an invariant [I k] after [k] passes runs to its
    end without raising. *)
Lemma for_each_invariant {A} (I : nat -> heap R -> Prop) (l : list A)
    (f : A -> M R unit) h :
  I 0 h ->
  (forall k x h', l !! k = Some x -> I k h' ->
     exists h'', f x h' = (h'', Ok tt) /\ I (S k) h'') ->
  exists h'', for_each l f h = (h'', Ok tt) /\ I (length l) h''.
Proof.
  revert I h. induction l as [|x l IH]; intros I h H0 Hstep; simpl.
  - by exists h.
  - destruct (Hstep 0 x h eq_refl H0) as (h1 & Hf & H1).
    destruct (IH (fun k => I (S k)) h1 H1) as (h2 & Hl & H2).
    { intros k y h' Hy Hk. apply (Hstep (S k) y h' Hy Hk). }
    exists h2. split; [|done]. unfold bind. by rewrite Hf.
Qed.

Lemma for_range_invariant (I : nat -> heap R -> Prop) n (f : nat -> M R unit) h :
  I 0 h ->
  (forall k h', k < n -> I k h' -> exists h'', f k h' = (h'', Ok tt) /\ I (S k) h'') ->
  exists h'', for_range n f h = (h'', Ok tt) /\ I n h''.
Proof.
  intros H0 Hstep. unfold for_range.
  destruct (for_each_invariant I (seq 0 n) f h H0) as (h'' & Hrun & Hn).
  - intros k x h' Hx Hk. apply lookup_seq in Hx as [-> Hlt]. by apply Hstep.
  - rewrite length_seq in Hn. eauto.
Qed.

(** Entries of an array given row by row. *)
Lemma cell_rows a r j row :
  rows a !! r = Some row -> cell a r j = default (s_of_Z 0) (row !! j).
Proof. intros Hr. unfold cell. by rewrite Hr. Qed.

Lemma cell_map_rows c (g : list R -> list R) a r j :
  cell (NdArray c (map g (rows a))) r j =
  default (s_of_Z 0) (rows a !! r ≫= fun row => g row !! j).
Proof.
  unfold cell. simpl. rewrite list_lookup_fmap.
  by destruct (rows a !! r).
Qed.

Lemma wf_row a r row : wf_array a -> rows a !! r = Some row -> length row = ncols a.
Proof. intros Hwf Hr. by eapply Forall_lookup_1 in Hwf. Qed.

(** Copying one block of columns of [a] over another block of the same
    width, row by row. *)
Lemma set_slice_get_slice a lo hi lo' hi' start start' len :
  wf_array a ->
  py_slice (ncols a) lo hi = (start, len) ->
  py_slice (ncols a) lo' hi' = (start', len) ->
  start' + len <= ncols a ->
  set_slice a lo hi (get_slice a lo' hi') =
  Ok (NdArray (ncols a)
        (map (fun row => take start row ++ take len (drop start' row)
                           ++ drop (start + len) row) (rows a))).
Proof.
  intros Hwf Hs Hs' Hle. unfold set_slice, get_slice. rewrite Hs, Hs'.
  rewrite broadcast_to_same.
  - simpl. by rewrite zip_with_fmap_r, zip_with_diag.
  - unfold nrows. simpl. apply length_map.
  - simpl. apply Forall_fmap, Forall_lookup_2. intros i row Hrow. simpl.
    rewrite length_take, length_drop, (wf_row a i row) by done. lia.
Qed.

End Running.

(** ** The periodic fill *)

Section Periodic.
Context {R : Type} `{Scalar R}.
Implicit Types (h : heap R) (p : patch R) (self q : ref) (a d : ndarray R).

Lemma lookup_splice (row new : list R) start len j :
  length new = len -> start + len <= length row ->
  (take start row ++ new ++ drop (start + len) row) !! j =
  if decide (start <= j < start + len) then new !! (j - start) else row !! j.
Proof.
  intros Hnew Hle.
  assert (length (take start row) = start) as Htake by (rewrite length_take; lia).
  case_decide as Hj.
  - rewrite lookup_app_r by lia. rewrite Htake. apply lookup_app_l. lia.
  - destruct (decide (j < start)).
    + rewrite lookup_app_l by lia. by apply lookup_take_lt.
    + rewrite lookup_app_r by lia. rewrite lookup_app_r by lia.
      rewrite lookup_drop. f_equal. lia.
Qed.

Lemma length_splice (row new : list R) start len :
  length new = len -> start + len <= length row ->
  length (take start row ++ new ++ drop (start + len) row) = length row.
Proof.
  intros Hnew Hle. rewrite !length_app, length_take, length_drop. lia.
Qed.

(** The four slices of [bcs_periodic] on a buffer of [nx + 2*g] columns *)
Lemma slice_leading nx_ g :
  py_slice (nx_ + 2 * g) None (Some (Z.of_nat g)) = (0, g).
Proof.
  unfold py_slice, py_bound. simpl.
  destruct (Z.ltb_spec (Z.of_nat g) 0); f_equal; lia.
Qed.

Lemma slice_last_interior nx_ g :
  1 <= g ->
  py_slice (nx_ + 2 * g) (Some (-2 * Z.of_nat g)%Z) (Some (- Z.of_nat g)%Z) = (nx_, g).
Proof.
  intros Hg. unfold py_slice, py_bound. simpl from_option.
  destruct (Z.ltb_spec (-2 * Z.of_nat g) 0), (Z.ltb_spec (- Z.of_nat g) 0);
    f_equal; lia.
Qed.

Lemma slice_trailing nx_ g :
  1 <= g ->
  py_slice (nx_ + 2 * g) (Some (- Z.of_nat g)%Z) None = (nx_ + g, g).
Proof.
  intros Hg. unfold py_slice, py_bound. simpl from_option.
  destruct (Z.ltb_spec (- Z.of_nat g) 0); f_equal; lia.
Qed.

Lemma slice_first_interior nx_ g :
  py_slice (nx_ + 2 * g) (Some (Z.of_nat g)) (Some (2 * Z.of_nat g)%Z) = (g, g).
Proof.
  unfold py_slice, py_bound. simpl from_option.
  destruct (Z.ltb_spec (Z.of_nat g) 0), (Z.ltb_spec (2 * Z.of_nat g) 0);
    f_equal; lia.
Qed.

(** One row after the first and after the second assignment *)
Definition wrap_left (nx_ g : nat) (row : list R) : list R :=
  take 0 row ++ take g (drop nx_ row) ++ drop (0 + g) row.

Definition wrap_right (nx_ g : nat) (row : list R) : list R :=
  take (nx_ + g) row ++ take g (drop g row) ++ drop (nx_ + g + g) row.

Lemma wrap_left_length nx_ g row :
  length row = nx_ + 2 * g -> length (wrap_left nx_ g row) = nx_ + 2 * g.
Proof.
  intros Hlen. unfold wrap_left. rewrite length_splice; [done| |lia].
  rewrite length_take, length_drop. lia.
Qed.

Lemma wrap_left_lookup nx_ g row j :
  length row = nx_ + 2 * g ->
  wrap_left nx_ g row !! j = if decide (j < g) then row !! (nx_ + j) else row !! j.
Proof.
  intros Hlen. unfold wrap_left. rewrite lookup_splice.
  - repeat case_decide; try lia; [|done].
    rewrite lookup_take_lt by lia. rewrite lookup_drop. f_equal. lia.
  - rewrite length_take, length_drop. lia.
  - lia.
Qed.

Lemma wrap_right_lookup nx_ g row j :
  length row = nx_ + 2 * g ->
  wrap_right nx_ g row !! j =
  if decide (nx_ + g <= j < nx_ + 2 * g) then row !! (j - nx_) else row !! j.
Proof.
  intros Hlen. unfold wrap_right. rewrite lookup_splice.
  - repeat case_decide; try lia; [|done].
    rewrite lookup_take_lt by lia. rewrite lookup_drop. f_equal. lia.
  - rewrite length_take, length_drop. lia.
  - lia.
Qed.

(** What [bcs_periodic] computes, for any patch with at least one ghost
    cell per side. *)
Lemma bcs_periodic_run h self p :
  h !! self = Some p -> patch_ok p -> 1 <= ngz p ->
  bcs_periodic self h =
  (<[self := with_data p
       (NdArray (ncols (data p))
          (map (fun row => wrap_right (nx p) (ngz p) (wrap_left (nx p) (ngz p) row))
             (rows (data p))))]> h,
   Ok tt).
Proof.
  intros Hp (Hr & Hc & Hwf) Hg.
  unfold bcs_periodic. unfold bind at 1, get_patch at 1. rewrite Hp. simpl.
  set (d1 := NdArray (ncols (data p)) (map (wrap_left (nx p) (ngz p)) (rows (data p)))).
  assert (wf_array d1) as Hwf1.
  { unfold wf_array, d1. simpl. apply Forall_fmap, Forall_lookup_2.
    intros i row Hrow. simpl. rewrite Hc. apply wrap_left_length.
    rewrite <- Hc. by eapply wf_row. }
  unfold bind.
  rewrite (update_data_ok self _ h p d1 Hp).
  2:{ erewrite set_slice_get_slice; [reflexivity | done | | | ].
      - rewrite Hc. apply slice_leading.
      - rewrite Hc. by apply slice_last_interior.
      - lia. }
  rewrite (update_data_ok self _ _ (with_data p d1)
             (NdArray (ncols (data p))
                (map (wrap_right (nx p) (ngz p)) (rows d1)))).
  - rewrite heap_insert_twice, with_data_twice. unfold d1. simpl.
    by rewrite <- list_fmap_compose.
  - by apply lookup_with_data.
  - simpl. erewrite set_slice_get_slice; [reflexivity | done | | | ].
    + simpl. rewrite Hc. by apply slice_trailing.
    + simpl. rewrite Hc. apply slice_first_interior.
    + simpl. lia.
Qed.

(** Buffer index of interior cell [i] (for [i < nx]) *)
Definition interior_index p (i : nat) : nat := ngz p + i.

(** C8.  The physical fill [self.bcs()], which [euler_step] calls on a
    patch without a parent, is [bcs_periodic] on every patch; it returns
    normally, changes the buffer of this patch only, and afterwards
    leading ghost slot [k] holds what buffer column
    [nx + k] held and the trailing ghost slot [k] holds what interior cell
    [k] held, while every interior cell holds what it held.  When the
    patch has at least [ngz] interior cells, column [nx + k] is interior
    cell [nx - ngz + k], one of the last [ngz]. *)
Theorem bcs_periodic_wraps h self p :
  h !! self = Some p -> patch_ok p -> 1 <= ngz p ->
  exists d',
    call_bcs self h = (<[self := with_data p d']> h, Ok tt) /\
    shape_eq (data p) d' /\
    (forall r k, k < ngz p ->
       cell d' r k = cell (data p) r (nx p + k) /\
       cell d' r (interior_index p (nx p) + k) = cell (data p) r (interior_index p k)) /\
    (forall r i, i < nx p ->
       cell d' r (interior_index p i) = cell (data p) r (interior_index p i)) /\
    (ngz p <= nx p -> forall k, k < ngz p ->
       nx p + k = interior_index p (nx p - ngz p + k) /\ nx p - ngz p + k < nx p).
Proof.
  intros Hp Hok Hg. pose proof Hok as (Hr & Hc & Hwf).
  eexists. split_and!.
  - unfold call_bcs, bind, get_patch. rewrite Hp. simpl.
    destruct (bcs p). by apply bcs_periodic_run.
  - unfold shape_eq, nrows, wf_array. simpl. split_and!.
    + apply length_map.
    + done.
    + intros _. apply Forall_fmap, Forall_lookup_2. intros i row Hrow. simpl.
      assert (length row = nx p + 2 * ngz p) as Hlen
        by (rewrite <- Hc; by eapply wf_row).
      unfold wrap_right. rewrite length_splice.
      * rewrite wrap_left_length by done. lia.
      * rewrite length_take, length_drop, wrap_left_length by done. lia.
      * rewrite wrap_left_length by done. lia.
  - intros r k Hk. rewrite !cell_map_rows. unfold cell, interior_index.
    destruct (rows (data p) !! r) as [row|] eqn:Hrow; simpl; [|done].
    assert (length row = nx p + 2 * ngz p) as Hlen
      by (rewrite <- Hc; by eapply wf_row).
    rewrite !wrap_right_lookup by (by apply wrap_left_length).
    rewrite !wrap_left_lookup by done.
    repeat case_decide; try lia. split; [done|].
    do 2 f_equal. lia.
  - intros r i Hi. rewrite !cell_map_rows. unfold cell, interior_index.
    destruct (rows (data p) !! r) as [row|] eqn:Hrow; simpl; [|done].
    assert (length row = nx p + 2 * ngz p) as Hlen
      by (rewrite <- Hc; by eapply wf_row).
    rewrite !wrap_right_lookup by (by apply wrap_left_length).
    rewrite !wrap_left_lookup by done.
    repeat case_decide; try lia; done.
  - intros Hle k Hk. unfold interior_index. lia.
Qed.

End Periodic.

(** ** Restriction *)

Section Restriction.
Context {R : Type} `{Scalar R}.
Implicit Types (h : heap R) (p : patch R) (self q : ref) (a d : ndarray R).

(** Column [k] of [a], one entry per row *)
Definition column a (k : nat) : list R :=
  map (fun row => default (s_of_Z 0) (row !! k)) (rows a).

Lemma get_col_nat a (z : Z) k :
  z = Z.of_nat k -> k < ncols a -> get_col a z = Ok (column a k).
Proof.
  intros -> Hk. unfold get_col. by rewrite py_index_of_nat.
Qed.

Lemma set_col_nat a (z : Z) k v :
  z = Z.of_nat k -> k < ncols a -> length v = nrows a ->
  set_col a z v = Ok (NdArray (ncols a) (zip_with (fun row x => <[k:=x]> row) (rows a) v)).
Proof.
  intros -> Hk Hv. unfold set_col.
  by rewrite py_index_of_nat, broadcast_vec_same.
Qed.

Lemma length_column a k : length (column a k) = nrows a.
Proof. unfold column. apply length_map. Qed.

Lemma lookup_column a k r :
  r < nrows a -> column a k !! r = Some (cell a r k).
Proof.
  intros Hr. unfold column, cell. rewrite list_lookup_fmap.
  destruct (lookup_lt_is_Some_2 (rows a) r Hr) as [row ->]. done.
Qed.

(** Entries after [a[:, k] = v] *)
Lemma cell_set_col a k v r j :
  wf_array a -> k < ncols a -> length v = nrows a -> r < nrows a ->
  cell (NdArray (ncols a) (zip_with (fun row x => <[k:=x]> row) (rows a) v)) r j =
  if decide (j = k) then default (s_of_Z 0) (v !! r) else cell a r j.
Proof.
  intros Hwf Hk Hv Hr. unfold cell. simpl. rewrite lookup_zip_with.
  destruct (lookup_lt_is_Some_2 (rows a) r Hr) as [row Hrow].
  destruct (lookup_lt_is_Some_2 v r ltac:(lia)) as [x Hx].
  rewrite Hrow, Hx. simpl.
  case_decide as Hj.
  - subst j. rewrite list_lookup_insert_eq; [done|].
    by rewrite (wf_row a r row).
  - by rewrite list_lookup_insert_ne.
Qed.

Lemma self_col_run h self p (z : Z) k :
  h !! self = Some p -> z = Z.of_nat k -> k < ncols (data p) ->
  self_col self z h = (h, Ok (column (data p) k)).
Proof.
  intros Hp Hz Hk. unfold self_col, bind, get_patch, lift. rewrite Hp. simpl.
  by rewrite (get_col_nat _ _ k).
Qed.

Lemma parent_col_run h self p q pq (z : Z) k :
  h !! self = Some p -> parent p = Some q -> h !! q = Some pq ->
  z = Z.of_nat k -> k < ncols (data pq) ->
  parent_col self z h = (h, Ok (column (data pq) k)).
Proof.
  intros Hp Hpar Hq Hz Hk. unfold parent_col, bind, get_patch, lift.
  rewrite Hp. simpl. rewrite Hpar, Hq. simpl.
  by rewrite (get_col_nat _ _ k).
Qed.

Lemma set_parent_col_run h self p q pq (z : Z) k v :
  h !! self = Some p -> parent p = Some q -> h !! q = Some pq ->
  z = Z.of_nat k -> k < ncols (data pq) -> length v = nrows (data pq) ->
  set_parent_col self z v h =
  (<[q := with_data pq
       (NdArray (ncols (data pq))
          (zip_with (fun row x => <[k:=x]> row) (rows (data pq)) v))]> h,
   Ok tt).
Proof.
  intros Hp Hpar Hq Hz Hk Hv. unfold set_parent_col, bind, get_patch.
  rewrite Hp. simpl. rewrite Hpar.
  apply update_data_ok; [done|]. by apply set_col_nat.
Qed.

Lemma set_self_col_run h self p (z : Z) k v :
  h !! self = Some p -> z = Z.of_nat k -> k < ncols (data p) ->
  length v = nrows (data p) ->
  set_self_col self z v h =
  (<[self := with_data p
       (NdArray (ncols (data p))
          (zip_with (fun row x => <[k:=x]> row) (rows (data p)) v))]> h,
   Ok tt).
Proof.
  intros Hp Hz Hk Hv. unfold set_self_col.
  apply update_data_ok; [done|]. by apply set_col_nat.
Qed.

(** The mean of the pair [(2i, 2i+1)] of interior cells, in row [r] *)
Definition pair_mean p (r i : nat) : R :=
  s_mul s_half (s_add (cell (data p) r (interior_index p (2 * i)))
                      (cell (data p) r (interior_index p (2 * i + 1)))).

Lemma half_sum_columns a k1 k2 r :
  r < nrows a ->
  vscale s_half (vadd (column a k1) (column a k2)) !! r =
  Some (s_mul s_half (s_add (cell a r k1) (cell a r k2))).
Proof.
  intros Hr. unfold vscale, vadd. rewrite list_lookup_fmap, lookup_zip_with.
  by rewrite !lookup_column.
Qed.

Lemma length_half_sum a k1 k2 :
  length (vscale s_half (vadd (column a k1) (column a k2))) = nrows a.
Proof.
  unfold vscale, vadd. rewrite length_map, length_zip_with, !length_column. lia.
Qed.

(** C3.  For a patch with a parent [q] (another patch, with as many
    rows) and an offset [s] that keeps the written columns inside the
    parent's buffer, [restrict_interior] returns normally; afterwards
    column [s + i] of the parent holds, for every pair index [i < nx/2],
    the mean of interior cells [2i] and [2i+1] of the child, every other
    entry of the parent is what it was, and no other patch has changed. *)
Theorem restrict_interior_means h self pc q pp (s : nat) :
  h !! self = Some pc -> parent pc = Some q -> q <> self ->
  h !! q = Some pp ->
  parent_i_start pc = Some (Z.of_nat s) ->
  s + nx pc / 2 <= ncols (data pp) ->
  ncols (data pc) = nx pc + 2 * ngz pc ->
  nrows (data pp) = nrows (data pc) ->
  wf_array (data pp) ->
  exists d',
    restrict_interior self h = (<[q := with_data pp d']> h, Ok tt) /\
    nrows d' = nrows (data pp) /\ ncols d' = ncols (data pp) /\ wf_array d' /\
    forall r j, r < nrows (data pp) ->
      cell d' r j =
      if decide (s <= j < s + nx pc / 2) then pair_mean pc r (j - s)
      else cell (data pp) r j.
Proof.
  intros Hself Hpar Hne Hq Hs Hfit Hc Hrows Hwf.
  unfold restrict_interior, bind at 1, get_patch at 1. rewrite Hself.
  cbn [of_option]. rewrite Hpar.
  set (I := fun (k : nat) (h' : heap R) =>
    exists dk,
      h' = <[q := with_data pp dk]> h /\
      nrows dk = nrows (data pp) /\ ncols dk = ncols (data pp) /\ wf_array dk /\
      forall r j, r < nrows (data pp) ->
        cell dk r j =
        if decide (s <= j < s + k) then pair_mean pc r (j - s)
        else cell (data pp) r j).
  destruct (for_range_invariant I (nx pc / 2) (restrict_body self) h)
    as (h'' & Hrun & d' & -> & Hfinal).
  - exists (data pp). split_and!; try done.
    + by rewrite with_data_id, list_insert_id.
    + intros r j _. case_decide; [lia | done].
  - intros k h' Hk (dk & -> & Hnr & Hnc & Hwfk & Hcells).
    assert (<[q := with_data pp dk]> h !! self = Some pc) as Hself'
      by (by rewrite list_lookup_insert_ne).
    assert (<[q := with_data pp dk]> h !! q = Some (with_data pp dk)) as Hq'
      by (by apply lookup_with_data).
    assert (nx pc / 2 * 2 <= nx pc) as Hdiv
      by (pose proof (Nat.Div0.mul_div_le (nx pc) 2); lia).
    eexists. split.
    + unfold restrict_body. unfold bind at 1, get_patch at 1.
      rewrite Hself'. simpl.
      unfold bind at 1.
      rewrite (self_col_run _ self pc _ (interior_index pc (2 * k)) Hself')
        by (unfold interior_index; lia).
      unfold bind at 1.
      rewrite (self_col_run _ self pc _ (interior_index pc (2 * k + 1)) Hself')
        by (unfold interior_index; lia).
      rewrite Hs.
      rewrite (set_parent_col_run _ self pc q (with_data pp dk) _ (s + k));
        try done.
      * lia.
      * simpl. lia.
      * simpl. rewrite length_half_sum. congruence.
    + rewrite heap_insert_twice, with_data_twice.
      eexists. split; [reflexivity|]. cbn [data with_data].
      assert (shape_eq dk
                (NdArray (ncols dk)
                   (zip_with (fun row x => <[s + k := x]> row) (rows dk)
                      (vscale s_half
                         (vadd (column (data pc) (interior_index pc (2 * k)))
                               (column (data pc) (interior_index pc (2 * k + 1))))))))
        as (Hnr' & Hnc' & Hwf').
      { eapply (set_col_shape dk (Z.of_nat (s + k))).
        apply set_col_nat; [done | lia |].
        rewrite length_half_sum. congruence. }
      split_and!; [congruence | cbn [ncols] in *; congruence | auto |].
      intros r j Hr.
      rewrite cell_set_col; [| done | lia | rewrite length_half_sum; congruence | lia].
      rewrite half_sum_columns by lia. cbn [default from_option].
      rewrite Hcells by done.
      repeat case_decide; try lia; try done.
      subst j. unfold pair_mean. by replace (s + k - s) with k by lia.
  - exists d'. split; [|done].
    destruct Hfinal as (? & ? & ? & ?). by rewrite Hrun.
Qed.

End Restriction.

(** ** What the constructor of the driver builds *)

Section DriverFacts.
Context {R : Type} `{Scalar R}.
Implicit Types (h : heap R) (p : patch R) (self q c : ref) (pr : problem R).
Implicit Types (lvls : list (list ref)).

Lemma py_nth_nonneg {A} (l : list A) (z : Z) k x :
  z = Z.of_nat k -> py_nth l z = Ok x -> l !! k = Some x.
Proof.
  intros -> Hx. unfold py_nth in Hx.
  destruct (decide (k < length l)) as [Hk|Hk].
  - rewrite py_index_of_nat in Hx by done. simpl in Hx.
    destruct (l !! k); simpl in Hx; by simplify_eq.
  - unfold py_index in Hx.
    destruct (Z.leb_spec 0 (Z.of_nat k)); [|lia].
    destruct (Z.ltb_spec (Z.of_nat k) (Z.of_nat (length l))); [lia|].
    simpl in Hx.
    destruct (Z.leb_spec (- Z.of_nat (length l)) (Z.of_nat k));
      destruct (Z.ltb_spec (Z.of_nat k) 0); simpl in Hx; try discriminate; lia.
Qed.

(** The patch the constructor builds on a refined level, around the
    centre [xc] and below the parent [par]. *)
Definition child_patch pr (child_nx : nat) (dx_ xc : R) (par : ref) : patch R :=
  Patch pr child_nx 1 bcs_periodic_method
    (s_sub xc (s_mul (s_mul s_half (s_of_Z (Z.of_nat child_nx))) dx_))
    dx_ (Some par) (Some (Z.of_nat (child_nx / 4) + 1)%Z)
    (zeros (nv pr) (child_nx + 2 * 1)).

(** The base patch *)
Definition base_patch pr (base_nx : nat) (base_dx : R) : patch R :=
  Patch pr base_nx 1 bcs_periodic_method (s_of_Z 0) base_dx None None
    (zeros (nv pr) (base_nx + 2 * 1)).

Lemma build_level_spec pr child_nx dx_ lvls i xcs :
  forall j level h h' level',
    build_level pr child_nx dx_ lvls i xcs j level h = (h', Ok level') ->
    exists pars,
      length pars = length xcs /\
      h' = h ++ zip_with (child_patch pr child_nx dx_) xcs pars /\
      level' = level ++ seq (length h) (length xcs) /\
      forall k par, pars !! k = Some par ->
        exists prev, py_nth lvls (Z.of_nat i - 1)%Z = Ok prev /\
                     prev !! (j + k) = Some par.
Proof.
  induction xcs as [|xc xcs IH]; intros j level h h' level'; simpl.
  - intros [= <- <-]. exists []. split_and!; try done.
    + by rewrite app_nil_r.
    + by rewrite app_nil_r.
  - unfold bind at 1, lift at 1.
    destruct (py_nth lvls (Z.of_nat i - 1)%Z) as [prev|e] eqn:Hprev; [|done].
    unfold bind at 1, lift at 1.
    destruct (py_nth prev (Z.of_nat j)) as [par|e] eqn:Hpar; [|done].
    unfold bind at 1. rewrite patch_init_periodic.
    intros Hrest. apply IH in Hrest as (pars & Hlen & -> & -> & Hpars).
    exists (par :: pars). split_and!.
    + simpl. by rewrite Hlen.
    + by rewrite <- app_assoc.
    + rewrite <- app_assoc. simpl. rewrite length_app. simpl.
      by replace (length h + 1) with (S (length h)) by lia.
    + intros [|k] par' Hk; simpl in Hk.
      * simplify_eq. exists prev. split; [done|].
        rewrite Nat.add_0_r. by eapply py_nth_nonneg.
      * apply Hpars in Hk as (prev' & Hprev' & Hk). exists prev'.
        split; [done|]. by replace (j + S k) with (S j + k) by lia.
Qed.

(** Patch [c] sits on level [i >= 1] of a hierarchy with levels [lvls]
    in heap [h]: it was built as a child of a patch on level [i - 1], with
    the spacing [base_dx / 2**i]. *)
Definition child_at pr (base_dx : R) (child_nx : nat) h lvls (i : nat) c : Prop :=
  exists xc par prev dx_,
    lvls !! (i - 1) = Some prev /\ par ∈ prev /\
    s_div base_dx (s_of_Z (2 ^ Z.of_nat i)) = Some dx_ /\
    h !! c = Some (child_patch pr child_nx dx_ xc par).

Lemma child_at_mono pr base_dx child_nx h lvls i c ext more :
  child_at pr base_dx child_nx h lvls i c ->
  child_at pr base_dx child_nx (h ++ ext) (lvls ++ more) i c.
Proof.
  intros (xc & par & prev & dx_ & Hprev & Hin & Hdx & Hc).
  exists xc, par, prev, dx_. split_and!; try done.
  - by apply lookup_app_l_Some.
  - by apply lookup_app_l_Some.
Qed.

Lemma build_levels_spec pr base_dx child_nx xcs n :
  forall i lvls h h' lvls',
    length lvls = i -> 1 <= i ->
    build_levels pr base_dx child_nx xcs (seq i n) lvls h = (h', Ok lvls') ->
    (exists ext, h' = h ++ ext) /\
    (exists more, lvls' = lvls ++ more /\ length more = n) /\
    (forall k lvl c, i <= k -> lvls' !! k = Some lvl -> c ∈ lvl ->
       child_at pr base_dx child_nx h' lvls' k c).
Proof.
  induction n as [|n IH]; intros i lvls h h' lvls' Hlen Hi; simpl.
  - intros [= <- <-]. split_and!.
    + exists []. by rewrite app_nil_r.
    + exists []. by rewrite app_nil_r.
    + intros k lvl c Hk Hlvl. apply lookup_lt_Some in Hlvl. lia.
  - unfold bind at 1, lift at 1.
    destruct (s_div base_dx (s_of_Z (2 ^ Z.of_nat i))) as [dx_|] eqn:Hdx; [|done].
    simpl. unfold bind at 1.
    destruct (build_level pr child_nx dx_ lvls i xcs 0 [] h) as [h1 [level|e]] eqn:Hlevel;
      [|done].
    apply build_level_spec in Hlevel as (pars & Hpars & -> & -> & Hprev).
    intros Hrest.
    apply IH in Hrest as ((ext & ->) & (more & -> & Hmore) & Hchildren);
      [| rewrite length_app; simpl; lia | lia].
    split_and!.
    + eexists. by rewrite <- app_assoc.
    + eexists. split; [by rewrite <- app_assoc|]. simpl. by rewrite Hmore.
    + intros k lvl c Hk Hlvl Hc.
      destruct (decide (k = i)) as [->|Hne]; [|apply (Hchildren k lvl c); [lia|done..]].
      rewrite <- app_assoc in Hlvl. rewrite lookup_app_r in Hlvl by lia.
      rewrite Hlen, Nat.sub_diag in Hlvl. simpl in Hlvl. simplify_eq.
      apply elem_of_seq in Hc as [Hc1 Hc2].
      set (m := c - length h).
      destruct (lookup_lt_is_Some_2 xcs m ltac:(lia)) as [xc Hxc].
      destruct (lookup_lt_is_Some_2 pars m ltac:(lia)) as [par Hpar].
      destruct (Hprev m par Hpar) as (prev & Hnth & Hin).
      apply (py_nth_nonneg _ _ (length lvls - 1)) in Hnth; [|lia].
      exists xc, par, prev, dx_. split_and!.
      * rewrite <- app_assoc. by apply lookup_app_l_Some.
      * by eapply list_elem_of_lookup_2.
      * done.
      * rewrite <- app_assoc. rewrite lookup_app_r by lia.
        apply lookup_app_l_Some. rewrite lookup_zip_with.
        fold m. by rewrite Hxc, Hpar.
Qed.

(** The hierarchy a successful call of the constructor leaves behind:
    the base patch on level 0 and children on every further level. *)
Lemma mr_simulation_init_spec pr base_dx base_nx nlevels xcs child_nx h h' sim :
  mr_simulation_init pr base_dx base_nx nlevels xcs child_nx h = (h', Ok sim) ->
  levels sim !! 0 = Some [length h] /\
  h' !! length h = Some (base_patch pr base_nx base_dx) /\
  length (levels sim) = 1 + (nlevels - 1) /\
  (exists ext, h' = h ++ ext) /\
  (forall k lvl c, 1 <= k -> levels sim !! k = Some lvl -> c ∈ lvl ->
     child_at pr base_dx child_nx h' (levels sim) k c).
Proof.
  unfold mr_simulation_init. unfold bind at 1. rewrite patch_init_periodic.
  unfold bind at 1.
  fold (base_patch pr base_nx base_dx).
  match goal with
  | |- context [build_levels ?a ?b ?c ?d ?e ?f ?g] =>
      destruct (build_levels a b c d e f g) as [h1 [lvls|e']] eqn:Hbuild; [|done]
  end.
  intros [= <- <-]. simpl.
  apply build_levels_spec in Hbuild as ((ext & ->) & (more & -> & Hmore) & Hchildren);
    [|done|done].
  split_and!.
  - done.
  - rewrite <- app_assoc. rewrite lookup_app_r by done.
    by rewrite Nat.sub_diag.
  - rewrite length_app. simpl. by rewrite Hmore.
  - eexists. by rewrite <- app_assoc.
  - exact Hchildren.
Qed.

End DriverFacts.

(** ** The time loop *)

Section Evolve.
Context {R : Type} `{Scalar R}.
Implicit Types (h : heap R) (p : patch R) (self q c : ref).
Implicit Types (lvls : list (list ref)).

(** What the driver asks of one patch *)
Inductive action : Type :=
  | Step (c : ref)       (* [c.euler_step(dt)] *)
  | Restrict (c : ref).  (* [c.restrict_interior()] *)

Definition exec (dt : R) (a : action) : M R unit :=
  match a with
  | Step c => euler_step c dt
  | Restrict c => restrict_interior c
  end.

(** The patches of level [i] *)
Definition level_at lvls (i : nat) : list ref := default [] (lvls !! i).

(** The order of one pass as the specification words it: step every
    patch of levels [0, 1, ..., n-1]; then restrict every patch of levels
    [n-1, ..., 1, 0], the finest level first. *)
Definition schedule lvls : list action :=
  map Step (flat_map (level_at lvls) (seq 0 (length lvls))) ++
  map Restrict (flat_map (level_at lvls) (rev (seq 0 (length lvls)))).

(** The loop as the specification words it: while [t < t_end], run the
    schedule with the one step [dt]. *)
Fixpoint run_schedule (fuel : nat) (acts : list action) (dt t_end t : R) : M R unit :=
  if s_ltb t t_end then
    match fuel with
    | 0 => raise FuelExhausted
    | S fuel' =>
        run for_each acts (exec dt);
        run_schedule fuel' acts dt t_end (s_add t dt)
    end
  else ret tt.

Lemma bind_ext {A B} (m m' : M R A) (f f' : A -> M R B) h :
  m h = m' h -> (forall a h', f a h' = f' a h') -> bind m f h = bind m' f' h.
Proof.
  intros Hm Hf. unfold bind. rewrite Hm.
  destruct (m' h) as [h' [a|e]]; [apply Hf | done].
Qed.

Lemma for_each_app {A} (l1 l2 : list A) (f : A -> M R unit) h :
  for_each (l1 ++ l2) f h = (run for_each l1 f; for_each l2 f) h.
Proof.
  revert h. induction l1 as [|x l1 IH]; intros h; simpl.
  - done.
  - unfold bind in *. destruct (f x h) as [h' [[]|e]]; [|done]. apply IH.
Qed.

Lemma for_each_map {A B} (g : A -> B) (l : list A) (f : B -> M R unit) h :
  for_each (map g l) f h = for_each l (fun x => f (g x)) h.
Proof.
  revert h. induction l as [|x l IH]; intros h; simpl; [done|].
  by apply bind_ext.
Qed.

Lemma for_each_concat {A} (ls : list (list A)) (f : A -> M R unit) h :
  for_each ls (fun l => for_each l f) h = for_each (concat ls) f h.
Proof.
  revert h. induction ls as [|l ls IH]; intros h; simpl; [done|].
  rewrite for_each_app. by apply bind_ext.
Qed.

Lemma flat_map_ext_in {A B} (f g : A -> list B) (l : list A) :
  (forall x, x ∈ l -> f x = g x) -> flat_map f l = flat_map g l.
Proof.
  induction l as [|x l IH]; intros Hfg; simpl; [done|].
  rewrite Hfg by apply list_elem_of_here.
  rewrite IH; [done|]. intros y Hy. apply Hfg. by apply list_elem_of_further.
Qed.

Lemma level_at_app lvls lvl i :
  i < length lvls -> level_at (lvls ++ [lvl]) i = level_at lvls i.
Proof. intros Hi. unfold level_at. by rewrite lookup_app_l. Qed.

Lemma level_at_last lvls lvl : level_at (lvls ++ [lvl]) (length lvls) = lvl.
Proof.
  unfold level_at. rewrite lookup_app_r by done. by rewrite Nat.sub_diag.
Qed.

(** Coarse to fine: [for level in levels] visits levels [0, ..., n-1]. *)
Lemma concat_levels lvls :
  concat lvls = flat_map (level_at lvls) (seq 0 (length lvls)).
Proof.
  induction lvls as [|lvl lvls IH] using rev_ind; [done|].
  rewrite concat_app, length_app. cbn [length concat].
  rewrite Nat.add_1_r, seq_S, flat_map_app. cbn [flat_map Nat.add].
  rewrite level_at_last, !app_nil_r. f_equal.
  rewrite IH. apply flat_map_ext_in. intros i Hi.
  apply elem_of_seq in Hi. symmetry. apply level_at_app. lia.
Qed.

(** Fine to coarse: [for level in levels[::-1]] visits levels
    [n-1, ..., 0]. *)
Lemma concat_rev_levels lvls :
  concat (rev lvls) = flat_map (level_at lvls) (rev (seq 0 (length lvls))).
Proof.
  induction lvls as [|lvl lvls IH] using rev_ind; [done|].
  rewrite rev_app_distr, length_app. cbn [length rev app concat].
  rewrite Nat.add_1_r, seq_S, rev_app_distr. cbn [rev app flat_map Nat.add].
  rewrite level_at_last. f_equal.
  rewrite IH. apply flat_map_ext_in. intros i Hi.
  apply list_elem_of_In, in_rev, list_elem_of_In, elem_of_seq in Hi.
  symmetry. apply level_at_app. lia.
Qed.

(** One pass of [evolve] runs the schedule. *)
Lemma evolve_pass_schedule sim dt h :
  evolve_pass sim dt h = for_each (schedule (levels sim)) (exec dt) h.
Proof.
  unfold evolve_pass, schedule. rewrite for_each_app.
  apply bind_ext.
  - rewrite for_each_concat, for_each_map. by rewrite concat_levels.
  - intros _ h'. rewrite for_each_concat, for_each_map.
    by rewrite concat_rev_levels.
Qed.

Lemma evolve_loop_schedule fuel sim dt t_end t h :
  evolve_loop fuel sim dt t_end t h =
  run_schedule fuel (schedule (levels sim)) dt t_end t h.
Proof.
  revert t h. induction fuel as [|fuel IH]; intros t h; simpl.
  - done.
  - destruct (s_ltb t t_end); [|done].
    apply bind_ext; [apply evolve_pass_schedule | intros _ h'; apply IH].
Qed.

Lemma py_nth_last {A} (l : list A) :
  py_nth l (-1)%Z = of_option IndexError (l !! (length l - 1)).
Proof.
  unfold py_nth. destruct l as [|x l] using rev_ind; [done|].
  rewrite py_index_neg by (rewrite length_app; simpl; lia).
  simpl. rewrite length_app. simpl.
  by replace (Z.to_nat (-1 + Z.of_nat (length l + 1))) with (length l + 1 - 1) by lia.
Qed.

Lemma py_nth_head {A} (l : list A) : py_nth l 0%Z = of_option IndexError (l !! 0).
Proof. unfold py_nth. by destruct l. Qed.

(** C2.  [evolve] takes its one step [dt = 0.5 * dx] from the first
    patch of the last (finest) level and hands it to every patch of every
    level in every pass; each pass of the loop first steps every patch,
    level by level from the base, and only then restricts every patch,
    level by level from the finest one down to the base.  When the last
    level has no patch there is no spacing to take and [evolve] raises
    [IndexError] before touching a patch. *)
Theorem evolve_runs_schedule fuel sim t_end h :
  (forall finest c p,
     levels sim !! (length (levels sim) - 1) = Some finest ->
     finest !! 0 = Some c -> h !! c = Some p ->
     evolve fuel sim t_end h =
     run_schedule fuel (schedule (levels sim)) (s_mul s_half (dx p)) t_end (s_of_Z 0) h) /\
  (levels sim !! (length (levels sim) - 1) ≫= (fun finest => finest !! 0) = None ->
   evolve fuel sim t_end h = (h, Raise IndexError)).
Proof.
  unfold evolve, bind at 1, lift at 1. rewrite py_nth_last. split.
  - intros finest c p -> Hc Hp. simpl.
    unfold bind at 1, lift at 1. rewrite py_nth_head, Hc. simpl.
    unfold bind, get_patch. rewrite Hp. simpl.
    apply evolve_loop_schedule.
  - destruct (levels sim !! (length (levels sim) - 1)) as [finest|]; simpl; [|done].
    intros Hc. unfold bind at 1, lift at 1. by rewrite py_nth_head, Hc.
Qed.

End Evolve.

(** ** The refinement fill with one ghost cell, and the Euler step *)

Section RefinementFill.
Context {R : Type} `{Scalar R}.
Implicit Types (h : heap R) (p : patch R) (self q c : ref) (a b d k : ndarray R).

Lemma bcs_mr_one_ghost h self p (s : Z) :
  h !! self = Some p -> ngz p = 1 -> parent_i_start p = Some s ->
  bcs_mr self h = (h, Ok tt).
Proof.
  intros Hp Hg Hs. unfold bcs_mr, bind, get_patch. rewrite Hp. simpl.
  by rewrite Hs, Hg.
Qed.

Lemma bcs_mr_no_offset h self p :
  h !! self = Some p -> parent_i_start p = None ->
  bcs_mr self h = (h, Raise TypeError).
Proof.
  intros Hp Hs. unfold bcs_mr, bind, get_patch. rewrite Hp. simpl.
  by rewrite Hs.
Qed.

Lemma euler_update_run h self p dt k d :
  h !! self = Some p ->
  rhs (patch_problem p) (data p) (dx p) = Ok k ->
  iadd (data p) (smul dt k) = Ok d ->
  euler_update self dt h = (<[self := with_data p d]> h, Ok tt).
Proof.
  intros Hp Hk Hd. unfold euler_update, bind at 1, get_patch at 1.
  rewrite Hp. simpl. unfold bind at 1, lift at 1. rewrite Hk.
  by apply update_data_ok.
Qed.

Lemma iadd_same_shape a b :
  nrows b = nrows a -> ncols b = ncols a -> wf_array b ->
  iadd a b = Ok (NdArray (ncols a) (zip_with (zip_with s_add) (rows a) (rows b))).
Proof.
  intros Hr Hc Hwf. unfold iadd. rewrite broadcast_to_same; [done | done |].
  unfold wf_array in Hwf. by rewrite <- Hc.
Qed.

Lemma smul_shape dt k : nrows (smul dt k) = nrows k /\ ncols (smul dt k) = ncols k /\
  (wf_array k -> wf_array (smul dt k)).
Proof.
  unfold smul, nrows, wf_array. simpl. split_and!.
  - apply length_map.
  - done.
  - intros Hwf. apply Forall_fmap. eapply Forall_impl; [|exact Hwf].
    intros row Hrow. simpl. by rewrite length_map.
Qed.

Lemma cell_in_range a r j :
  wf_array a -> r < nrows a -> j < ncols a ->
  exists row x, rows a !! r = Some row /\ row !! j = Some x /\ cell a r j = x.
Proof.
  intros Hwf Hr Hj.
  destruct (lookup_lt_is_Some_2 (rows a) r Hr) as [row Hrow].
  destruct (lookup_lt_is_Some_2 row j) as [x Hx].
  { by rewrite (wf_row a r row). }
  exists row, x. split_and!; try done. unfold cell. by rewrite Hrow; simpl; rewrite Hx.
Qed.

(** Entries after [a += dt * k] for arrays of one shape *)
Lemma cell_iadd_smul a k dt r j :
  wf_array a -> wf_array k -> nrows k = nrows a -> ncols k = ncols a ->
  r < nrows a -> j < ncols a ->
  cell (NdArray (ncols a) (zip_with (zip_with s_add) (rows a) (rows (smul dt k)))) r j =
  s_add (cell a r j) (s_mul dt (cell k r j)).
Proof.
  intros Hwfa Hwfk Hr Hc Hlt Hj.
  destruct (cell_in_range a r j) as (ra & xa & Hra & Hxa & ->); try done.
  destruct (cell_in_range k r j) as (rk & xk & Hrk & Hxk & ->); try done; try lia.
  unfold cell, smul. simpl.
  rewrite lookup_zip_with, Hra, list_lookup_fmap, Hrk. simpl.
  by rewrite lookup_zip_with, Hxa, list_lookup_fmap, Hxk.
Qed.

(** On a child with one ghost cell the Euler step is the update alone. *)
Lemma euler_step_one_ghost h self p q (s : Z) dt :
  h !! self = Some p -> ngz p = 1 -> parent_i_start p = Some s ->
  parent p = Some q ->
  euler_step self dt h = euler_update self dt h.
Proof.
  intros Hp Hg Hs Hpar. rewrite (euler_step_unfold self dt h p Hp), Hpar.
  unfold bind.
  pose proof (preserving_euler_update self dt h) as Hstep.
  destruct (euler_update self dt h) as [h' [[]|e]]; simpl in Hstep; [|done].
  destruct (heap_step_lookup _ _ _ _ Hstep Hp) as (p' & Hp' & d & -> & _).
  by apply (bcs_mr_one_ghost h' self (with_data p d) s).
Qed.

(** On a patch with one ghost cell, an integer offset and a parent the
    Euler step is the update alone; when [rhs] returns an array [k] of
    the buffer's shape, every entry ends as its old value plus [dt] times
    the entry of [k]. *)
Lemma euler_step_single_ghost h self p q (s : Z) dt k :
  h !! self = Some p -> ngz p = 1 -> parent_i_start p = Some s ->
  parent p = Some q ->
  rhs (patch_problem p) (data p) (dx p) = Ok k ->
  wf_array (data p) -> wf_array k ->
  nrows k = nrows (data p) -> ncols k = ncols (data p) ->
  exists d',
    euler_step self dt h = (<[self := with_data p d']> h, Ok tt) /\
    forall r j, r < nrows (data p) -> j < ncols (data p) ->
      cell d' r j = s_add (cell (data p) r j) (s_mul dt (cell k r j)).
Proof.
  intros Hp Hg Hs Hpar Hk Hwf Hwfk Hr Hc.
  destruct (smul_shape dt k) as (Hr' & Hc' & Hwf').
  eexists. split.
  - rewrite (euler_step_one_ghost h self p q s dt) by done.
    eapply euler_update_run; [done | done |].
    apply iadd_same_shape; [congruence | congruence | auto].
  - intros r j Hlt Hj. by apply cell_iadd_smul.
Qed.

(** Every patch on a level of a hierarchy the driver has built has one
    ghost cell; on the levels above the base it has a parent and an
    integer offset. *)
Lemma driver_patches pr base_dx base_nx nlevels xcs child_nx h h' (sim : mr_simulation R) :
  mr_simulation_init pr base_dx base_nx nlevels xcs child_nx h = (h', Ok sim) ->
  forall i lvl c, levels sim !! i = Some lvl -> c ∈ lvl ->
    exists p, h' !! c = Some p /\ ngz p = 1 /\ bcs p = bcs_periodic_method /\
      (i = 0 -> parent p = None /\ parent_i_start p = None) /\
      (1 <= i -> exists q prev,
         levels sim !! (i - 1) = Some prev /\ q ∈ prev /\ parent p = Some q /\
         parent_i_start p = Some (Z.of_nat (child_nx / 4) + 1)%Z).
Proof.
  intros Hinit i lvl c Hlvl Hc.
  apply mr_simulation_init_spec in Hinit as (H0 & Hbase & _ & _ & Hchildren).
  destruct i as [|i].
  - rewrite H0 in Hlvl. simplify_eq. apply list_elem_of_singleton in Hc as ->.
    exists (base_patch pr base_nx base_dx). split_and!; try done. lia.
  - destruct (Hchildren (S i) lvl c ltac:(lia) Hlvl Hc)
      as (xc & par & prev & dx_ & Hprev & Hin & _ & Hp).
    eexists. split_and!; [exact Hp | done | done | done |].
    intros _. exists par, prev. by split_and!.
Qed.

(** C6, as amended.  On a patch with one ghost cell and an integer
    parent offset, [bcs_mr] returns with the heap as it was.  If the
    patch has a parent, [euler_step] therefore is the update
    [data += dt * rhs(data, dx)] and nothing else: when [rhs] returns an
    array [k] of the buffer's shape, every entry of the buffer, ghost
    cells included, ends as its old value plus [dt] times the entry of
    [k], and nothing is read from the parent.  Every patch the driver
    builds above the base level is such a patch.  On a patch whose offset
    is [None], as the base patch, [bcs_mr] raises [TypeError], again with
    the heap as it was. *)
Theorem bcs_mr_single_ghost :
  (forall h self p (s : Z),
     h !! self = Some p -> ngz p = 1 -> parent_i_start p = Some s ->
     bcs_mr self h = (h, Ok tt) /\
     forall q dt, parent p = Some q ->
       euler_step self dt h = euler_update self dt h /\
       forall k, rhs (patch_problem p) (data p) (dx p) = Ok k ->
         wf_array (data p) -> wf_array k ->
         nrows k = nrows (data p) -> ncols k = ncols (data p) ->
         exists d',
           euler_step self dt h = (<[self := with_data p d']> h, Ok tt) /\
           forall r j, r < nrows (data p) -> j < ncols (data p) ->
             cell d' r j = s_add (cell (data p) r j) (s_mul dt (cell k r j))) /\
  (forall pr base_dx base_nx nlevels xcs child_nx h h' (sim : mr_simulation R),
     mr_simulation_init pr base_dx base_nx nlevels xcs child_nx h = (h', Ok sim) ->
     forall i lvl c, 1 <= i -> levels sim !! i = Some lvl -> c ∈ lvl ->
       exists p q (s : Z),
         h' !! c = Some p /\ ngz p = 1 /\ parent_i_start p = Some s /\
         parent p = Some q) /\
  (forall h self p,
     h !! self = Some p -> parent_i_start p = None ->
     bcs_mr self h = (h, Raise TypeError)).
Proof.
  split_and!; [| | apply bcs_mr_no_offset].
  - intros h self p s Hp Hg Hs. split; [by eapply bcs_mr_one_ghost|].
    intros q dt Hpar. split; [by eapply euler_step_one_ghost|].
    intros k Hk Hwf Hwfk Hr Hc. by eapply euler_step_single_ghost.
  - intros pr base_dx base_nx nlevels xcs child_nx h h' sim Hinit i lvl c Hi Hlvl Hc.
    destruct (driver_patches _ _ _ _ _ _ _ _ _ Hinit i lvl c Hlvl Hc)
      as (p & Hp & Hg & _ & _ & Hchild).
    destruct (Hchild Hi) as (q & prev & _ & _ & Hpar & Hs).
    by exists p, q, (Z.of_nat (child_nx / 4) + 1)%Z.
Qed.

(** C10.  The boundary-kind string only decides whether the constructor
    accepts the patch and stores [bcs_periodic] in [self.bcs].  In
    [euler_step] the fill is chosen by the parent alone: without a parent
    the stored periodic fill runs, with a parent [bcs_mr] runs.  So a
    patch constructed with ["Periodic"] and a parent, as every child the
    driver builds, runs [bcs_mr] after its update and never the periodic
    fill. *)
Theorem fill_chosen_by_parent h dt :
  (forall self p, h !! self = Some p ->
     euler_step self dt h =
     (run euler_update self dt;
      match parent p with
      | None => bcs_periodic self
      | Some _ => bcs_mr self
      end) h) /\
  (forall pr nx_ ngz_ x0_ dx_ q pis,
     exists p,
       patch_init pr nx_ ngz_ x0_ dx_ "Periodic" (Some q) pis h =
         (h ++ [p], Ok (length h)) /\
       bcs p = bcs_periodic_method /\ parent p = Some q /\
       euler_step (length h) dt (h ++ [p]) =
         (run euler_update (length h) dt; bcs_mr (length h)) (h ++ [p])) /\
  (forall pr base_dx base_nx nlevels xcs child_nx h0 sim,
     mr_simulation_init pr base_dx base_nx nlevels xcs child_nx h0 = (h, Ok sim) ->
     forall i lvl c, 1 <= i -> levels sim !! i = Some lvl -> c ∈ lvl ->
       euler_step c dt h = (run euler_update c dt; bcs_mr c) h).
Proof.
  split_and!.
  - intros self p Hp. by apply euler_step_unfold.
  - intros. eexists. rewrite patch_init_periodic. split_and!; try reflexivity.
    match goal with
    | |- euler_step _ _ (_ ++ [?p]) = _ =>
        assert ((h ++ [p]) !! length h = Some p) as Hp
          by (rewrite lookup_app_r by done; by rewrite Nat.sub_diag);
        by rewrite (euler_step_unfold _ dt _ p Hp)
    end.
  - intros pr base_dx base_nx nlevels xcs child_nx h0 sim Hinit i lvl c Hi Hlvl Hc.
    destruct (driver_patches _ _ _ _ _ _ _ _ _ Hinit i lvl c Hlvl Hc)
      as (p & Hp & _ & _ & _ & Hchild).
    destruct (Hchild Hi) as (q & prev & _ & _ & Hpar & _).
    rewrite (euler_step_unfold c dt h p Hp). by rewrite Hpar.
Qed.

End RefinementFill.

(** ** The refinement fill in general *)

Section RefinementFillCells.
Context {R : Type} `{Scalar R}.
Implicit Types (h : heap R) (p : patch R) (self q c : ref) (a b d : ndarray R).

(** [a] with column [k] replaced by [v] *)
Definition put_col a (k : nat) (v : list R) : ndarray R :=
  NdArray (ncols a) (zip_with (fun row x => <[k:=x]> row) (rows a) v).

Lemma set_col_index a (z : Z) k v :
  py_index (ncols a) z = Some k -> length v = nrows a ->
  set_col a z v = Ok (put_col a k v).
Proof.
  intros Hk Hv. unfold set_col. by rewrite Hk, broadcast_vec_same.
Qed.

Lemma put_col_shape a k v :
  k < ncols a -> length v = nrows a ->
  nrows (put_col a k v) = nrows a /\ ncols (put_col a k v) = ncols a /\
  (wf_array a -> wf_array (put_col a k v)).
Proof.
  intros Hk Hv. apply (set_col_shape a (Z.of_nat k) v).
  apply set_col_index; [by apply py_index_of_nat | done].
Qed.

Lemma cell_put_col a k v r j :
  wf_array a -> k < ncols a -> length v = nrows a -> r < nrows a ->
  cell (put_col a k v) r j =
  if decide (j = k) then default (s_of_Z 0) (v !! r) else cell a r j.
Proof. apply cell_set_col. Qed.

Lemma length_quarter_1_3 (u v : list R) :
  length u = length v -> length (quarter_1_3 u v) = length u.
Proof.
  intros Huv. unfold quarter_1_3, vscale, vadd.
  rewrite length_map, length_zip_with, length_map. lia.
Qed.

Lemma length_quarter_3_1 (u v : list R) :
  length u = length v -> length (quarter_3_1 u v) = length u.
Proof.
  intros Huv. unfold quarter_3_1, vscale, vadd.
  rewrite length_map, length_zip_with, length_map. lia.
Qed.

Lemma lookup_quarter_1_3 a k1 k2 r :
  r < nrows a ->
  quarter_1_3 (column a k1) (column a k2) !! r =
  Some (s_mul s_quarter (s_add (cell a r k1) (s_mul (s_of_Z 3) (cell a r k2)))).
Proof.
  intros Hr. unfold quarter_1_3, vscale, vadd.
  rewrite list_lookup_fmap, lookup_zip_with, list_lookup_fmap.
  by rewrite !lookup_column.
Qed.

Lemma lookup_quarter_3_1 a k1 k2 r :
  r < nrows a ->
  quarter_3_1 (column a k1) (column a k2) !! r =
  Some (s_mul s_quarter (s_add (s_mul (s_of_Z 3) (cell a r k1)) (cell a r k2))).
Proof.
  intros Hr. unfold quarter_3_1, vscale, vadd.
  rewrite list_lookup_fmap, lookup_zip_with, list_lookup_fmap.
  by rewrite !lookup_column.
Qed.

(** One assignment of the loop body: two columns of the parent are
    read, combined by [f] and written to a column of this patch. *)
Lemma fill_assignment h self p q pp (f : list R -> list R -> list R)
    (z1 z2 zt : Z) k1 k2 kt (rest : M R unit) :
  h !! self = Some p -> parent p = Some q -> q <> self -> h !! q = Some pp ->
  z1 = Z.of_nat k1 -> k1 < ncols (data pp) ->
  z2 = Z.of_nat k2 -> k2 < ncols (data pp) ->
  py_index (ncols (data p)) zt = Some kt ->
  length (f (column (data pp) k1) (column (data pp) k2)) = nrows (data p) ->
  (do u <- parent_col self z1;
   do v <- parent_col self z2;
   run set_self_col self zt (f u v);
   rest) h =
  rest (<[self := with_data p
            (put_col (data p) kt (f (column (data pp) k1) (column (data pp) k2)))]> h).
Proof.
  intros Hp Hpar Hne Hq Hz1 Hk1 Hz2 Hk2 Hzt Hlen.
  unfold bind at 1. rewrite (parent_col_run h self p q pp z1 k1) by done.
  unfold bind at 1. rewrite (parent_col_run h self p q pp z2 k2) by done.
  unfold bind at 1. unfold set_self_col.
  by rewrite (update_data_ok self _ h p _ Hp (set_col_index _ _ _ _ Hzt Hlen)).
Qed.

Lemma fill_assignment_last h self p q pp (f : list R -> list R -> list R)
    (z1 z2 zt : Z) k1 k2 kt :
  h !! self = Some p -> parent p = Some q -> q <> self -> h !! q = Some pp ->
  z1 = Z.of_nat k1 -> k1 < ncols (data pp) ->
  z2 = Z.of_nat k2 -> k2 < ncols (data pp) ->
  py_index (ncols (data p)) zt = Some kt ->
  length (f (column (data pp) k1) (column (data pp) k2)) = nrows (data p) ->
  (do u <- parent_col self z1;
   do v <- parent_col self z2;
   set_self_col self zt (f u v)) h =
  (<[self := with_data p
        (put_col (data p) kt (f (column (data pp) k1) (column (data pp) k2)))]> h,
   Ok tt).
Proof.
  intros Hp Hpar Hne Hq Hz1 Hk1 Hz2 Hk2 Hzt Hlen.
  unfold bind at 1. rewrite (parent_col_run h self p q pp z1 k1) by done.
  unfold bind at 1. rewrite (parent_col_run h self p q pp z2 k2) by done.
  unfold set_self_col.
  by rewrite (update_data_ok self _ h p _ Hp (set_col_index _ _ _ _ Hzt Hlen)).
Qed.

Section OnePatch.
Variables (p pp : patch R) (s : nat).

(** The columns of the parent the loop reads: [i_s - 2], [i_s - 1],
    [i_s] on the left and [i_e], [i_e + 1], [i_e + 2] on the right, with
    [i_e = i_s + ngz // 2]. *)
Definition i_end : nat := s + ngz p / 2.

Definition left_outer : list R :=
  quarter_1_3 (column (data pp) (s - 2)) (column (data pp) (s - 1)).
Definition left_inner : list R :=
  quarter_3_1 (column (data pp) (s - 1)) (column (data pp) s).
Definition right_outer : list R :=
  quarter_3_1 (column (data pp) (i_end + 1)) (column (data pp) (i_end + 2)).
Definition right_inner : list R :=
  quarter_1_3 (column (data pp) i_end) (column (data pp) (i_end + 1)).

(** The buffer after pass [i] of the loop *)
Definition fill_pass d (i : nat) : ndarray R :=
  put_col
    (put_col
       (put_col (put_col d (2 * i) left_outer) (2 * i + 1) left_inner)
       (ncols d - 1 - 2 * i) right_outer)
    (ncols d - 2 - 2 * i) right_inner.

(** Entry [(r, j)] after [k] passes *)
Definition filled_cell (k r j : nat) : R :=
  if decide (j < 2 * k) then
    default (s_of_Z 0) ((if Nat.even j then left_outer else left_inner) !! r)
  else if decide (ncols (data p) - 2 * k <= j) then
    default (s_of_Z 0)
      ((if Nat.even (ncols (data p) - 1 - j) then right_outer else right_inner) !! r)
  else cell (data p) r j.

End OnePatch.

Lemma even_double k : Nat.even (2 * k) = true.
Proof. by rewrite <- (Nat.add_0_l (2 * k)), Nat.even_add_mul_2. Qed.

Lemma even_double_succ k : Nat.even (2 * k + 1) = false.
Proof. by rewrite Nat.add_comm, Nat.even_add_mul_2. Qed.

Lemma bcs_mr_body_run h self p0 p q pp s i :
  h !! self = Some p -> parent p = Some q -> q <> self -> h !! q = Some pp ->
  ngz p = ngz p0 ->
  2 <= s -> i_end p0 s + 2 < ncols (data pp) ->
  4 * i + 4 <= ncols (data p) ->
  nrows (data pp) = nrows (data p) ->
  bcs_mr_body self (Z.of_nat s) (Z.of_nat s + Z.of_nat (ngz p0 / 2))%Z i h =
  (<[self := with_data p (fill_pass p0 pp s (data p) i)]> h, Ok tt).
Proof.
  intros Hp Hpar Hne Hq Hg Hs He Hi Hrows.
  assert (forall k1 k2, length (quarter_1_3 (column (data pp) k1) (column (data pp) k2))
                        = nrows (data p)) as Hlen13
    by (intros; rewrite length_quarter_1_3; rewrite !length_column; done).
  assert (forall k1 k2, length (quarter_3_1 (column (data pp) k1) (column (data pp) k2))
                        = nrows (data p)) as Hlen31
    by (intros; rewrite length_quarter_3_1; rewrite !length_column; done).
  unfold i_end in He. unfold bcs_mr_body.
  set (w := ncols (data p)) in *.
  (* first assignment *)
  rewrite (fill_assignment h self p q pp quarter_1_3 _ _ _ (s - 2) (s - 1) (2 * i));
    try done; try lia.
  2:{ rewrite <- (py_index_of_nat (ncols (data p)) (2 * i)) by (fold w; lia).
      f_equal. lia. }
  set (d1 := put_col (data p) (2 * i) _).
  destruct (put_col_shape (data p) (2 * i)
              (quarter_1_3 (column (data pp) (s - 2)) (column (data pp) (s - 1))))
    as (Hr1 & Hc1 & _); [fold w; lia | done |]. fold d1 in Hr1, Hc1.
  set (h1 := <[self := with_data p d1]> h).
  assert (h1 !! self = Some (with_data p d1)) as Hp1 by (by apply lookup_with_data).
  assert (h1 !! q = Some pp) as Hq1 by (unfold h1; by rewrite list_lookup_insert_ne).
  (* second assignment *)
  rewrite (fill_assignment h1 self (with_data p d1) q pp quarter_3_1 _ _ _
             (s - 1) s (2 * i + 1)); try done; try lia.
  2:{ cbn [data with_data]. rewrite ?Hc1.
      rewrite <- (py_index_of_nat (ncols (data p)) (2 * i + 1)) by (fold w; lia).
      f_equal. lia. }
  2:{ cbn [data with_data]. rewrite ?Hr1. apply Hlen31. }
  unfold h1. rewrite heap_insert_twice, with_data_twice. cbn [data with_data].
  set (d2 := put_col d1 (2 * i + 1) _).
  destruct (put_col_shape d1 (2 * i + 1)
              (quarter_3_1 (column (data pp) (s - 1)) (column (data pp) s)))
    as (Hr2 & Hc2 & _); [rewrite Hc1; fold w; lia | by rewrite Hr1 |].
  fold d2 in Hr2, Hc2.
  set (h2 := <[self := with_data p d2]> h).
  assert (h2 !! self = Some (with_data p d2)) as Hp2 by (by apply lookup_with_data).
  assert (h2 !! q = Some pp) as Hq2 by (unfold h2; by rewrite list_lookup_insert_ne).
  (* third assignment *)
  rewrite (fill_assignment h2 self (with_data p d2) q pp quarter_3_1 _ _ _
             (s + ngz p0 / 2 + 1) (s + ngz p0 / 2 + 2) (w - 1 - 2 * i));
    try done; try lia.
  2:{ cbn [data with_data]. rewrite ?Hc2, ?Hc1. fold w. rewrite py_index_neg by lia. f_equal. lia. }
  2:{ cbn [data with_data]. rewrite ?Hr2, ?Hr1. apply Hlen31. }
  unfold h2. rewrite heap_insert_twice, with_data_twice. cbn [data with_data].
  set (d3 := put_col d2 (w - 1 - 2 * i) _).
  destruct (put_col_shape d2 (w - 1 - 2 * i)
              (quarter_3_1 (column (data pp) (s + ngz p0 / 2 + 1))
                           (column (data pp) (s + ngz p0 / 2 + 2))))
    as (Hr3 & Hc3 & _); [rewrite Hc2, Hc1; fold w; lia | by rewrite Hr2, Hr1 |].
  fold d3 in Hr3, Hc3.
  set (h3 := <[self := with_data p d3]> h).
  assert (h3 !! self = Some (with_data p d3)) as Hp3 by (by apply lookup_with_data).
  assert (h3 !! q = Some pp) as Hq3 by (unfold h3; by rewrite list_lookup_insert_ne).
  (* fourth assignment *)
  rewrite (fill_assignment_last h3 self (with_data p d3) q pp quarter_1_3 _ _ _
             (s + ngz p0 / 2) (s + ngz p0 / 2 + 1) (w - 2 - 2 * i));
    try done; try lia.
  2:{ cbn [data with_data]. rewrite ?Hc3, ?Hc2, ?Hc1. fold w. rewrite py_index_neg by lia. f_equal. lia. }
  2:{ cbn [data with_data]. rewrite ?Hr3, ?Hr2, ?Hr1. apply Hlen13. }
  unfold h3. rewrite heap_insert_twice, with_data_twice. cbn [data with_data].
  reflexivity.
Qed.

Lemma length_fill_columns p0 pp s :
  length (left_outer pp s) = nrows (data pp) /\
  length (left_inner pp s) = nrows (data pp) /\
  length (right_outer p0 pp s) = nrows (data pp) /\
  length (right_inner p0 pp s) = nrows (data pp).
Proof.
  unfold left_outer, left_inner, right_outer, right_inner.
  split_and!;
    first [rewrite length_quarter_1_3 | rewrite length_quarter_3_1];
    rewrite ?length_column; done.
Qed.

Lemma fill_pass_shape p0 pp s d i :
  4 * i + 4 <= ncols d -> nrows (data pp) = nrows d ->
  shape_eq d (fill_pass p0 pp s d i).
Proof.
  intros Hi Hrows.
  destruct (length_fill_columns p0 pp s) as (Hlo & Hli & Hro & Hri).
  unfold fill_pass.
  set (d1 := put_col d (2 * i) (left_outer pp s)).
  destruct (put_col_shape d (2 * i) (left_outer pp s)) as (Hr1 & Hc1 & Hwf1);
    [lia | congruence |]. fold d1 in Hr1, Hc1, Hwf1.
  set (d2 := put_col d1 (2 * i + 1) (left_inner pp s)).
  destruct (put_col_shape d1 (2 * i + 1) (left_inner pp s)) as (Hr2 & Hc2 & Hwf2);
    [lia | congruence |]. fold d2 in Hr2, Hc2, Hwf2.
  set (d3 := put_col d2 (ncols d - 1 - 2 * i) (right_outer p0 pp s)).
  destruct (put_col_shape d2 (ncols d - 1 - 2 * i) (right_outer p0 pp s))
    as (Hr3 & Hc3 & Hwf3); [lia | congruence |]. fold d3 in Hr3, Hc3, Hwf3.
  destruct (put_col_shape d3 (ncols d - 2 - 2 * i) (right_inner p0 pp s))
    as (Hr4 & Hc4 & Hwf4); [lia | congruence |].
  split_and!; [congruence | congruence | auto].
Qed.

Lemma cell_fill_pass p0 pp s d i r j :
  wf_array d -> 4 * i + 4 <= ncols d -> r < nrows d ->
  nrows (data pp) = nrows d ->
  cell (fill_pass p0 pp s d i) r j =
  if decide (j = ncols d - 2 - 2 * i) then default (s_of_Z 0) (right_inner p0 pp s !! r)
  else if decide (j = ncols d - 1 - 2 * i) then default (s_of_Z 0) (right_outer p0 pp s !! r)
  else if decide (j = 2 * i + 1) then default (s_of_Z 0) (left_inner pp s !! r)
  else if decide (j = 2 * i) then default (s_of_Z 0) (left_outer pp s !! r)
  else cell d r j.
Proof.
  intros Hwf Hi Hr Hrows.
  destruct (length_fill_columns p0 pp s) as (Hlo & Hli & Hro & Hri).
  unfold fill_pass.
  set (d1 := put_col d (2 * i) (left_outer pp s)).
  destruct (put_col_shape d (2 * i) (left_outer pp s)) as (Hr1 & Hc1 & Hwf1);
    [lia | congruence |]. fold d1 in Hr1, Hc1, Hwf1.
  set (d2 := put_col d1 (2 * i + 1) (left_inner pp s)).
  destruct (put_col_shape d1 (2 * i + 1) (left_inner pp s)) as (Hr2 & Hc2 & Hwf2);
    [lia | congruence |]. fold d2 in Hr2, Hc2, Hwf2.
  set (d3 := put_col d2 (ncols d - 1 - 2 * i) (right_outer p0 pp s)).
  destruct (put_col_shape d2 (ncols d - 1 - 2 * i) (right_outer p0 pp s))
    as (Hr3 & Hc3 & Hwf3); [lia | congruence |]. fold d3 in Hr3, Hc3, Hwf3.
  rewrite (cell_put_col d3) by (auto; try lia; congruence).
  case_decide; [done|].
  unfold d3. rewrite (cell_put_col d2) by (auto; try lia; congruence).
  case_decide; [done|].
  unfold d2. rewrite (cell_put_col d1) by (auto; try lia; congruence).
  case_decide; [done|].
  unfold d1. rewrite (cell_put_col d) by (auto; try lia; congruence).
  by case_decide.
Qed.

(** What [bcs_mr] computes for a patch below another patch [q] whose
    buffer has as many rows and holds the columns read.  The loop runs
    [ngz // 2] times; every pass writes the same four columns of
    combinations, into ghost slots [2i], [2i+1] on the left and
    [-2i-2], [-2i-1] on the right. *)
Lemma bcs_mr_cells h self p q pp (s : nat) :
  h !! self = Some p -> parent p = Some q -> q <> self -> h !! q = Some pp ->
  parent_i_start p = Some (Z.of_nat s) ->
  2 <= s -> i_end p s + 2 < ncols (data pp) ->
  ncols (data p) = nx p + 2 * ngz p -> wf_array (data p) ->
  nrows (data pp) = nrows (data p) ->
  exists d',
    bcs_mr self h = (<[self := with_data p d']> h, Ok tt) /\
    nrows d' = nrows (data p) /\ ncols d' = ncols (data p) /\ wf_array d' /\
    forall r j, r < nrows (data p) -> j < ncols (data p) ->
      cell d' r j = filled_cell p pp s (ngz p / 2) r j.
Proof.
  intros Hp Hpar Hne Hq Hs Hs2 He Hc Hwf Hrows.
  unfold bcs_mr, bind at 1, get_patch at 1. rewrite Hp. cbn [of_option].
  rewrite Hs.
  assert (2 * (ngz p / 2) <= ngz p) as Hdiv by apply Nat.Div0.mul_div_le.
  set (I := fun (k : nat) (h' : heap R) =>
    exists dk,
      h' = <[self := with_data p dk]> h /\
      nrows dk = nrows (data p) /\ ncols dk = ncols (data p) /\ wf_array dk /\
      forall r j, r < nrows (data p) -> j < ncols (data p) ->
        cell dk r j = filled_cell p pp s k r j).
  destruct (for_range_invariant I (ngz p / 2)
              (bcs_mr_body self (Z.of_nat s)
                 (Z.of_nat s + Z.of_nat (ngz p / 2))%Z) h)
    as (h'' & Hrun & d' & -> & Hfinal).
  - exists (data p). split_and!; try done.
    + by rewrite with_data_id, list_insert_id.
    + intros r j _ Hj. unfold filled_cell. repeat case_decide; try lia. done.
  - intros k h' Hk (dk & -> & Hnr & Hnc & Hwfk & Hcells).
    eexists. split.
    + apply (bcs_mr_body_run _ self p (with_data p dk) q pp s k); try done.
      * by apply lookup_with_data.
      * by rewrite list_lookup_insert_ne.
      * cbn [data with_data]. lia.
      * cbn [data with_data]. congruence.
    + rewrite heap_insert_twice, with_data_twice. cbn [data with_data].
      eexists. split; [reflexivity|].
      assert (4 * k + 4 <= ncols dk) as Hfit by lia.
      destruct (fill_pass_shape p pp s dk k) as (Hnr' & Hnc' & Hwf');
        [done | congruence |].
      split_and!; [congruence | congruence | auto |].
      intros r j Hr Hj.
      rewrite cell_fill_pass by (auto; congruence).
      unfold filled_cell. rewrite Hnc.
      repeat case_decide; try lia; subst;
        rewrite ?even_double, ?even_double_succ; try done.
      * replace (ncols (data p) - 1 - (ncols (data p) - 2 - 2 * k))
          with (2 * k + 1) by lia.
        by rewrite even_double_succ.
      * replace (ncols (data p) - 1 - (ncols (data p) - 1 - 2 * k))
          with (2 * k) by lia.
        by rewrite even_double.
      * rewrite Hcells by done. unfold filled_cell.
        repeat case_decide; try lia; done.
      * rewrite Hcells by done. unfold filled_cell.
        repeat case_decide; try lia; done.
      * rewrite Hcells by done. unfold filled_cell.
        repeat case_decide; try lia; done.
  - exists d'. split; [|done]. by rewrite Hrun.
Qed.

End RefinementFillCells.

(** With two ghost cells per side the loop runs once.  The left ghost
    cells are the combinations of parent columns [s-2], [s-1], [s] next to
    the left edge; the right ghost cells are the combinations of parent
    columns [s+1], [s+2], [s+3], whatever the number [nx] of interior
    cells, although the patch covers parent columns [s .. s + nx/2 - 1]
    (the columns [restrict_interior] writes). *)
Lemma bcs_mr_two_ghosts {R : Type} `{Scalar R} (h : heap R) self p q pp (s : nat) :
  h !! self = Some p -> parent p = Some q -> q <> self -> h !! q = Some pp ->
  parent_i_start p = Some (Z.of_nat s) -> ngz p = 2 ->
  2 <= s -> s + 3 < ncols (data pp) ->
  ncols (data p) = nx p + 2 * ngz p -> wf_array (data p) ->
  nrows (data pp) = nrows (data p) ->
  exists d',
    bcs_mr self h = (<[self := with_data p d']> h, Ok tt) /\
    forall r, r < nrows (data p) ->
      let P := cell (data pp) r in
      let three := s_of_Z 3 in
      cell d' r 0 = s_mul s_quarter (s_add (P (s - 2)) (s_mul three (P (s - 1)))) /\
      cell d' r 1 = s_mul s_quarter (s_add (s_mul three (P (s - 1))) (P s)) /\
      cell d' r (nx p + 2) =
        s_mul s_quarter (s_add (P (s + 1)) (s_mul three (P (s + 2)))) /\
      cell d' r (nx p + 3) =
        s_mul s_quarter (s_add (s_mul three (P (s + 2))) (P (s + 3))) /\
      forall i, i < nx p -> cell d' r (2 + i) = cell (data p) r (2 + i).
Proof.
  intros Hp Hpar Hne Hq Hs Hg Hs2 He Hc Hwf Hrows.
  destruct (bcs_mr_cells h self p q pp s) as (d' & Hrun & _ & _ & _ & Hcells);
    try done.
  { unfold i_end. rewrite Hg. simpl. lia. }
  exists d'. split; [exact Hrun|]. intros r Hr P three.
  rewrite Hg in *. change (2 / 2) with 1 in Hcells.
  assert (r < nrows (data pp)) as Hr' by lia.
  split_and!.
  - rewrite Hcells by lia. unfold filled_cell, left_outer. simpl.
    by rewrite lookup_quarter_1_3.
  - rewrite Hcells by lia. unfold filled_cell, left_inner. simpl.
    by rewrite lookup_quarter_3_1.
  - rewrite Hcells by lia. unfold filled_cell, right_inner, i_end.
    rewrite Hg, Hc. change (2 / 2) with 1.
    repeat case_decide; try lia.
    replace (nx p + 2 * 2 - 1 - (nx p + 2)) with (2 * 0 + 1) by lia.
    rewrite even_double_succ, lookup_quarter_1_3 by done.
    by replace (s + 1 + 1) with (s + 2) by lia.
  - rewrite Hcells by lia. unfold filled_cell, right_outer, i_end.
    rewrite Hg, Hc. change (2 / 2) with 1.
    repeat case_decide; try lia.
    replace (nx p + 2 * 2 - 1 - (nx p + 3)) with (2 * 0) by lia.
    rewrite even_double, lookup_quarter_3_1 by done.
    by replace (s + 1 + 1) with (s + 2) by lia;
       replace (s + 1 + 2) with (s + 3) by lia.
  - intros i Hi. rewrite Hcells by lia. unfold filled_cell. rewrite Hc.
    repeat case_decide; try lia. done.
Qed.

(** * Concrete runs *)

(** Exact rationals are read through [this], the reduced fraction. *)
Definition qc (n : Z) (d : positive) : Qc := Q2Qc (n # d).

(** A row holding [0, 1, ..., n-1] *)
Definition ramp (n : nat) : list Qc := map (fun k => qc (Z.of_nat k) 1) (seq 0 n).

(** A base patch of 8 interior cells and a child of 8 interior cells
    over parent columns 4..7, both with two ghost cells per side and both
    holding the ramp. *)
Definition ex_parent : patch Qc :=
  Patch advection 8 2 bcs_periodic_method (qc 0 1) (qc 1 1) None None
    (NdArray 12 [ramp 12]).

Definition ex_child : patch Qc :=
  Patch advection 8 2 bcs_periodic_method (qc 2 1) (qc 1 2) (Some 0) (Some 4%Z)
    (NdArray 12 [ramp 12]).

Definition ex_heap : heap Qc := [ex_parent; ex_child].

(** Row [r] of the buffer of patch [c], as fractions *)
Definition row_of (h : heap Qc) (c : ref) (r : nat) : list Q :=
  match h !! c with
  | Some p => map this (default [] (rows (data p) !! r))
  | None => []
  end.

Lemma ex_heap_ok : heap_ok ex_heap.
Proof.
  unfold heap_ok, ex_heap. repeat constructor.
Qed.

(** C9: the invariant on the two-patch heap. *)
Lemma buffer_shape_invariant_witness :
  heap_ok ex_heap /\
  heap_ok (fst (euler_step 1 (qc 1 2) ex_heap)) /\
  heap_ok (fst (restrict_interior 1 ex_heap)).
Proof.
  split; [exact ex_heap_ok|].
  pose proof (proj2 (buffer_shape_invariant ex_heap ex_heap_ok) 1 (qc 1 2))
    as (_ & _ & Hstep & Hrestrict).
  split; [apply Hstep | apply Hrestrict].
Defined.

(** C4: restriction on the base patch. *)
Lemma restrict_interior_no_parent_witness :
  restrict_interior 0 ex_heap = (ex_heap, Ok tt).
Proof.
  apply (restrict_interior_no_parent ex_heap 0 ex_parent); reflexivity.
Defined.

(** C5: a boundary kind the constructor does not know. *)
Lemma boundary_kind_checked_at_construction_witness :
  patch_init advection 8 2 (qc 0 1) (qc 1 1) "Dirichlet" None None ex_heap =
  (ex_heap, Raise NotImplementedError).
Proof.
  apply (proj1 (boundary_kind_checked_at_construction
                  advection 8 2 (qc 0 1) (qc 1 1) "Dirichlet" None None ex_heap)).
  discriminate.
Defined.

(** C8: the periodic fill on the base patch; the first ghost slot
    receives interior cell 6 (buffer column 8), the first trailing ghost
    slot receives interior cell 0 (buffer column 2). *)
Lemma bcs_periodic_wraps_witness :
  exists d',
    call_bcs 0 ex_heap = (<[0 := with_data ex_parent d']> ex_heap, Ok tt) /\
    cell d' 0 0 = cell (data ex_parent) 0 8 /\
    cell d' 0 10 = cell (data ex_parent) 0 2.
Proof.
  destruct (bcs_periodic_wraps ex_heap 0 ex_parent) as (d' & Hrun & _ & Hghost & _).
  - reflexivity.
  - repeat constructor.
  - simpl. lia.
  - exists d'. split; [exact Hrun|].
    apply (Hghost 0 0). simpl. lia.
Defined.

(** C3: the child restricts into columns 4..7 of the base patch. *)
Lemma restrict_interior_means_witness :
  exists d',
    restrict_interior 1 ex_heap = (<[0 := with_data ex_parent d']> ex_heap, Ok tt) /\
    cell d' 0 4 = pair_mean ex_child 0 0 /\
    cell d' 0 7 = pair_mean ex_child 0 3 /\
    cell d' 0 3 = cell (data ex_parent) 0 3 /\
    cell d' 0 8 = cell (data ex_parent) 0 8.
Proof.
  destruct (restrict_interior_means ex_heap 1 ex_child 0 ex_parent 4)
    as (d' & Hrun & _ & _ & _ & Hcells); try reflexivity.
  - discriminate.
  - simpl. lia.
  - repeat constructor.
  - exists d'. split; [exact Hrun|].
    split_and!; [apply (Hcells 0 4) | apply (Hcells 0 7)
                | apply (Hcells 0 3) | apply (Hcells 0 8)]; cbv; lia.
Defined.

(** The two patches as a two-level hierarchy *)
Definition ex_sim : mr_simulation Qc := MrSimulation advection [[0]; [1]].

(** C2: one pass on the two-level hierarchy, with the step taken from
    the child's spacing. *)
Lemma evolve_runs_schedule_witness :
  evolve 1 ex_sim (qc 1 8) ex_heap =
  run_schedule 1 [Step 0; Step 1; Restrict 1; Restrict 0]
    (s_mul s_half (dx ex_child)) (qc 1 8) (s_of_Z 0) ex_heap.
Proof.
  apply (proj1 (evolve_runs_schedule 1 ex_sim (qc 1 8) ex_heap) [1] 1 ex_child);
    reflexivity.
Defined.

(** C10: the child, built with ["Periodic"], runs [bcs_mr]. *)
Lemma fill_chosen_by_parent_witness :
  euler_step 1 (qc 1 4) ex_heap =
  (run euler_update 1 (qc 1 4); bcs_mr 1) ex_heap.
Proof.
  apply (proj1 (fill_chosen_by_parent ex_heap (qc 1 4)) 1 ex_child).
  reflexivity.
Defined.

(** A hierarchy as the driver builds it: base spacing 1/100, 8 base
    cells, 2 levels, one centre, children of 8 cells. *)
Definition ex_built : heap Qc * result (mr_simulation Qc) :=
  mr_simulation_init advection (qc 1 100) 8 2 [qc 1 25] 8 [].

Definition ex_built_heap : heap Qc := fst ex_built.

Definition ex_built_child : patch Qc := default ex_parent (ex_built_heap !! 1).

(** C6, amended: the child the driver built has one ghost cell. *)
Lemma bcs_mr_single_ghost_witness :
  bcs_mr 1 ex_built_heap = (ex_built_heap, Ok tt) /\
  euler_step 1 (qc 1 400) ex_built_heap = euler_update 1 (qc 1 400) ex_built_heap.
Proof.
  destruct (proj1 bcs_mr_single_ghost ex_built_heap 1 ex_built_child 3%Z)
    as [Hfill Hstep]; try reflexivity.
  split; [exact Hfill|].
  apply (Hstep 0 (qc 1 400)). reflexivity.
Defined.

(** A right-hand side that reports the derivative 1 in every slot
    ([np.ones_like(q)]), as a constant source term does. *)
Definition RHS_source (q : ndarray Qc) (dx_ : Qc) : result (ndarray Qc) :=
  Ok (NdArray (ncols q) (map (map (fun _ => qc 1 1)) (rows q))).

Definition source : problem Qc := Problem 1 ["$q$"%string] RHS_source.

Definition ex_source_heap : heap Qc :=
  fst (mr_simulation_init source (qc 1 100) 8 2 [qc 1 25] 8 []).

(** C6 as stated fails twice on a hierarchy the driver built.  The base
    patch has one ghost cell, yet [bcs_mr] on it raises [TypeError]
    instead of returning, since its offset is [None].  And after
    [euler_step] on the child (one ghost cell) with [dt = 1/2], its
    leading ghost cell has moved from 0 to 1/2: the step adds
    [dt * rhs] in every slot and nothing resets the ghost cells. *)
Lemma single_ghost_counterexample :
  (exists base, ex_source_heap !! 0 = Some base /\ ngz base = 1 /\
     bcs_mr 0 ex_source_heap = (ex_source_heap, Raise TypeError)) /\
  (exists child, ex_source_heap !! 1 = Some child /\
     ngz child = 1 /\ parent child = Some 0 /\
     snd (euler_step 1 (qc 1 2) ex_source_heap) = Ok tt /\
     row_of ex_source_heap 1 0 =
       [0#1; 0#1; 0#1; 0#1; 0#1; 0#1; 0#1; 0#1; 0#1; 0#1]%Q /\
     row_of (fst (euler_step 1 (qc 1 2) ex_source_heap)) 1 0 =
       [1#2; 1#2; 1#2; 1#2; 1#2; 1#2; 1#2; 1#2; 1#2; 1#2]%Q).
Proof.
  split.
  - eexists. split; [reflexivity|]. split; [reflexivity|].
    eapply bcs_mr_no_offset; reflexivity.
  - eexists. split; [reflexivity|]. split_and!; vm_compute; reflexivity.
Qed.

(** ** The refinement fill with two ghost cells *)

(** What the specification asks for at the right edge of [ex_child]: the child
    covers parent columns 4..7, so the cells next to its right edge are
    parent columns 7 and 8, and the next one is column 9. *)
Definition ex_right_inner : list Qc :=
  quarter_1_3 (column (data ex_parent) 7) (column (data ex_parent) 8).
Definition ex_right_outer : list Qc :=
  quarter_3_1 (column (data ex_parent) 8) (column (data ex_parent) 9).

(** C1 (the code misses it).  [bcs_mr] on [ex_child], whose parent holds
    the ramp 0..11.  The left ghost cells get [11/4] and [13/4], the
    combinations of parent columns 2, 3, 4 next to the left edge.  The
    right ghost cells get [23/4] and [25/4], the combinations of parent
    columns 5, 6, 7, because [i_e] is the offset plus [ngz//2] whatever
    [nx] is; the cells next to the right edge would give [31/4] and
    [33/4]. *)
Theorem bcs_mr_right_edge_misplaced :
  snd (bcs_mr 1 ex_heap) = Ok tt /\
  row_of (fst (bcs_mr 1 ex_heap)) 1 0 =
    [11#4; 13#4; 2#1; 3#1; 4#1; 5#1; 6#1; 7#1; 8#1; 9#1; 23#4; 25#4]%Q /\
  map this (quarter_1_3 (column (data ex_parent) 2) (column (data ex_parent) 3)) = [11#4]%Q /\
  map this (quarter_3_1 (column (data ex_parent) 3) (column (data ex_parent) 4)) = [13#4]%Q /\
  map this (quarter_1_3 (column (data ex_parent) 5) (column (data ex_parent) 6)) = [23#4]%Q /\
  map this (quarter_3_1 (column (data ex_parent) 6) (column (data ex_parent) 7)) = [25#4]%Q /\
  map this ex_right_inner = [31#4]%Q /\
  map this ex_right_outer = [33#4]%Q.
Proof. split_and!; vm_compute; reflexivity. Qed.

(** The same run in binary64. *)
Definition ex_heap_float : heap float :=
  let row := map (fun k => s_of_Z (Z.of_nat k)) (seq 0 12) in
  [Patch advection 8 2 bcs_periodic_method 0%float 1%float None None (NdArray 12 [row]);
   Patch advection 8 2 bcs_periodic_method 2%float 0.5%float (Some 0) (Some 4%Z)
     (NdArray 12 [row])].

Lemma bcs_mr_right_edge_float :
  (map (fun p => rows (data p)) (fst (bcs_mr 1 ex_heap_float))) !! 1 =
  Some [[2.75; 3.25; 2; 3; 4; 5; 6; 7; 8; 9; 5.75; 6.25]%float].
Proof. vm_compute. reflexivity. Qed.

(** The worked numbers of the specification, in binary64: parent values
    2 and 4 next to the boundary give the ghost value 3.5. *)
Lemma quarter_1_3_worked :
  quarter_1_3 [2%float] [4%float] = [3.5%float].
Proof. vm_compute. reflexivity. Qed.

(** ** The offset the driver passes *)

(** The hierarchy of the notebook's scenario with the centre moved to
    [3/10]. *)
Definition ex_off_centre : heap Qc :=
  fst (mr_simulation_init advection (qc 1 100) 100 2 [qc 3 10] 100 []).

(** C7 (the code misses it).  For base spacing 1/100, 100 base cells, 2
    levels, centre 3/10 and children of 100 cells the child's left edge
    is [1/20], while parent column 26, the offset the driver passes,
    begins at [0 + (26 - 1) * 1/100 = 1/4]: the offset is
    [child_nx // 4 + 1] wherever the centre is. *)
Theorem driver_offset_ignores_centre :
  exists base child,
    ex_off_centre !! 0 = Some base /\ ex_off_centre !! 1 = Some child /\
    parent child = Some 0 /\ parent_i_start child = Some 26%Z /\
    ngz base = 1 /\
    this (dx child) = (1 # 200)%Q /\
    this (x0 child) = (1 # 20)%Q /\
    this (s_add (x0 base) (s_mul (s_sub (s_of_Z 26) (s_of_Z 1)) (dx base))) = (1 # 4)%Q.
Proof.
  eexists _, _. split; [reflexivity|]. split; [reflexivity|].
  split_and!; vm_compute; reflexivity.
Qed.

(** The notebook's own scenario, with the centre [1/2] in the middle of
    the base patch: there the offset 26 does point at the child's left
    edge, [1/4]. *)
Definition ex_centred : heap Qc :=
  fst (mr_simulation_init advection (qc 1 100) 100 2 [qc 1 2] 100 []).

Lemma driver_offset_at_centre :
  exists base child,
    ex_centred !! 0 = Some base /\ ex_centred !! 1 = Some child /\
    parent child = Some 0 /\ parent_i_start child = Some 26%Z /\
    this (x0 child) = (1 # 4)%Q /\
    this (s_add (x0 base) (s_mul (s_sub (s_of_Z 26) (s_of_Z 1)) (dx base))) = (1 # 4)%Q.
Proof.
  eexists _, _. split; [reflexivity|]. split; [reflexivity|].
  split_and!; vm_compute; reflexivity.
Qed.

(** Two centres: the second child has no patch to hang under on the
    base level, and the constructor raises. *)
Lemma driver_two_centres :
  snd (mr_simulation_init advection (qc 1 100) 100 2 [qc 3 10; qc 1 2] 100 []) =
  Raise IndexError.
Proof. vm_compute. reflexivity. Qed.

(** ** Spacings in a hierarchy the driver has built, in exact arithmetic *)

Lemma qc_of_Z_mul (a b : Z) :
  Q2Qc (inject_Z (a * b)) = (Q2Qc (inject_Z a) * Q2Qc (inject_Z b))%Qc.
Proof.
  apply Qc_is_canon. unfold Qcmult. cbn [this Q2Qc].
  rewrite !Qred_correct, inject_Z_mult. reflexivity.
Qed.

Lemma qc_of_Z_nonzero (a : Z) : a <> 0%Z -> Q2Qc (inject_Z a) <> Q2Qc 0.
Proof.
  intros Ha Heq. apply (f_equal this) in Heq. cbn [this Q2Qc] in Heq.
  assert (inject_Z a == 0)%Q as H0.
  { rewrite <- (Qred_correct (inject_Z a)), Heq. reflexivity. }
  unfold Qeq in H0. simpl in H0. lia.
Qed.

Lemma qc_div_twice (b x : Qc) :
  x <> Q2Qc 0 ->
  (b / (x * Q2Qc (inject_Z 2)) = b / x / Q2Qc (inject_Z 2))%Qc.
Proof.
  intros Hx. field. split; [exact Hx | apply qc_of_Z_nonzero; lia].
Qed.

Lemma qc_s_div (a b c : Qc) : s_div a b = Some c -> b <> Q2Qc 0 /\ c = (a / b)%Qc.
Proof.
  simpl. destruct (Qc_eq_dec b (Q2Qc 0)); [discriminate|].
  intros [= <-]. by split.
Qed.

(** The spacing of level [i + 1] is half the spacing of level [i]. *)
Lemma qc_level_spacing (base_dx : Qc) (i : nat) (dx_ dx' : Qc) :
  s_div base_dx (s_of_Z (2 ^ Z.of_nat i)) = Some dx_ ->
  s_div base_dx (s_of_Z (2 ^ Z.of_nat (S i))) = Some dx' ->
  dx' = (dx_ / Q2Qc (inject_Z 2))%Qc.
Proof.
  intros [Hnz ->]%qc_s_div [_ ->]%qc_s_div.
  change (s_of_Z (2 ^ Z.of_nat (S i))) with (Q2Qc (inject_Z (2 ^ Z.of_nat (S i)))).
  replace (2 ^ Z.of_nat (S i))%Z with (2 ^ Z.of_nat i * 2)%Z
    by (rewrite Nat2Z.inj_succ, Z.pow_succ_r by lia; lia).
  rewrite qc_of_Z_mul. by apply qc_div_twice.
Qed.

(** The two parts of C7 that hold: in a hierarchy the driver has built,
    every patch on level [i >= 1] has its parent on level [i - 1], and its
    spacing is half the spacing of that parent (in exact arithmetic). *)
Lemma driver_refinement_ratio (pr : problem Qc) (base_dx : Qc) base_nx nlevels xcs
    child_nx (h h' : heap Qc) (sim : mr_simulation Qc) :
  mr_simulation_init pr base_dx base_nx nlevels xcs child_nx h = (h', Ok sim) ->
  forall i lvl c, 1 <= i -> levels sim !! i = Some lvl -> c ∈ lvl ->
    exists p q prev pq,
      h' !! c = Some p /\ parent p = Some q /\
      levels sim !! (i - 1) = Some prev /\ q ∈ prev /\
      h' !! q = Some pq /\
      dx p = (dx pq / Q2Qc (inject_Z 2))%Qc.
Proof.
  intros Hinit i lvl c Hi Hlvl Hc.
  apply mr_simulation_init_spec in Hinit as (H0 & Hbase & _ & _ & Hchildren).
  destruct (Hchildren i lvl c Hi Hlvl Hc)
    as (xc & par & prev & dx_ & Hprev & Hin & Hdx & Hp).
  destruct (decide (i = 1)) as [->|Hne].
  - simpl in Hprev. rewrite H0 in Hprev. simplify_eq.
    apply list_elem_of_singleton in Hin as ->.
    eexists _, _, _, _. split_and!; try done.
    + by apply list_elem_of_singleton.
    + simpl. apply qc_s_div in Hdx as [_ ->]. done.
  - destruct (Hchildren (i - 1) prev par ltac:(lia) Hprev Hin)
      as (xc' & par' & prev' & dx' & _ & _ & Hdx' & Hpq).
    eexists _, _, _, _. split_and!; try done. simpl.
    apply (qc_level_spacing base_dx (i - 1)); [done|].
    by replace (S (i - 1)) with i by lia.
Qed.

(** ** The Euler step of the advection problem on a child with one ghost cell *)

Lemma qc_double_nonzero (x : Qc) : x <> Q2Qc 0 -> (Q2Qc (inject_Z 2) * x)%Qc <> Q2Qc 0.
Proof.
  intros Hx Hprod. apply Qcmult_integral in Hprod as [H2|H0]; [|done].
  by apply (qc_of_Z_nonzero 2).
Qed.

(** [RHS_advection] on a one-row buffer of [n + 2] columns returns an
    array of the same shape whose two end columns hold zero. *)
Lemma RHS_advection_ends (q0 : list Qc) (n : nat) (dx_ : Qc) :
  length q0 = n + 2 -> dx_ <> Q2Qc 0 ->
  exists k,
    RHS_advection (NdArray (n + 2) [q0]) dx_ = Ok k /\
    nrows k = 1 /\ ncols k = n + 2 /\ wf_array k /\
    cell k 0 0 = Q2Qc 0 /\ cell k 0 (n + 1) = Q2Qc 0.
Proof.
  intros Hlen Hdx. unfold RHS_advection.
  destruct (s_div (s_of_Z (-1)) (s_mul (s_of_Z 2) dx_)) as [c|] eqn:Hc.
  2:{ simpl in Hc. destruct (Qc_eq_dec _ _) as [Hz|]; [|discriminate].
      by apply qc_double_nonzero in Hz. }
  cbn [rows zeros nrows ncols length replicate].
  rewrite length_replicate.
  assert (py_slice (n + 2) (Some 1%Z) (Some (-1)%Z) = (1, n)) as ->.
  { unfold py_slice, py_bound. simpl from_option.
    destruct (Z.ltb_spec 1 0), (Z.ltb_spec (-1) 0); f_equal; lia. }
  set (vals := vscale c _).
  assert (length vals = n) as Hvals.
  { unfold vals, vscale, flux_advection, vscale, row_slice.
    rewrite Hlen.
    assert (py_slice (n + 2) (Some 2%Z) None = (2, n)) as ->.
    { unfold py_slice, py_bound. simpl from_option.
      destruct (Z.ltb_spec 2 0); f_equal; lia. }
    assert (py_slice (n + 2) None (Some (-2)%Z) = (0, n)) as ->.
    { unfold py_slice, py_bound. simpl from_option.
      destruct (Z.ltb_spec (-2) 0); f_equal; lia. }
    rewrite length_map, length_zip_with, !length_map, !length_take, !length_drop. lia. }
  eexists. split; [reflexivity|].
  set (z := replicate (n + 2) (s_of_Z 0)).
  assert (length z = n + 2) as Hz by apply length_replicate.
  split_and!; try done.
  - unfold wf_array. simpl. constructor; [|done].
    rewrite length_splice; [done | done | lia].
  - unfold cell. simpl. rewrite lookup_splice; [|done|lia].
    case_decide; [lia|]. unfold z. by rewrite lookup_replicate_2 by lia.
  - unfold cell. simpl. rewrite lookup_splice; [|done|lia].
    case_decide; [lia|]. unfold z. by rewrite lookup_replicate_2 by lia.
Qed.

(** With the notebook's [RHS_advection], in exact arithmetic, the Euler
    step on a child with one ghost cell leaves both ghost cells at their
    values before the step. *)
Lemma advection_ghosts_retained (h : heap Qc) self p q (s : Z) (dt : Qc) :
  h !! self = Some p -> patch_problem p = advection ->
  ngz p = 1 -> parent_i_start p = Some s -> parent p = Some q ->
  patch_ok p -> dx p <> Q2Qc 0 ->
  exists d',
    euler_step self dt h = (<[self := with_data p d']> h, Ok tt) /\
    cell d' 0 0 = cell (data p) 0 0 /\
    cell d' 0 (nx p + 1) = cell (data p) 0 (nx p + 1).
Proof.
  intros Hp Hpr Hg Hs Hpar (Hr & Hc & Hwf) Hdx.
  rewrite Hpr, Hg in *. simpl in Hr.
  destruct (data p) as [w rws] eqn:Hd. unfold nrows in Hr. simpl in Hr, Hc.
  destruct rws as [|q0 [|??]]; try discriminate.
  assert (length q0 = nx p + 2) as Hq0.
  { unfold wf_array in Hwf. simpl in Hwf. inversion Hwf. lia. }
  replace w with (nx p + 2) in * by lia.
  destruct (RHS_advection_ends q0 (nx p) (dx p) Hq0 Hdx)
    as (k & Hk & Hkr & Hkc & Hkwf & Hk0 & Hk1).
  destruct (euler_step_single_ghost h self p q s dt k) as (d' & Hrun & Hcells);
    try done.
  - by rewrite Hpr, Hd.
  - by rewrite Hd.
  - by rewrite Hd.
  - by rewrite Hd.
  - exists d'. split; [exact Hrun|].
    rewrite !Hcells by (rewrite Hd; unfold nrows; simpl; lia).
    rewrite Hk0, Hk1, Hd. simpl. split; ring.
Qed.

(** * Further properties of the engine *)

(** ** Which buffers a method writes *)

Section Frames.
Context {R : Type} `{Scalar R}.
Implicit Types (h : heap R) (p : patch R) (self q c : ref) (a b d : ndarray R).

(** [m] leaves every patch but [q] exactly as it is, on every heap that
    satisfies [P], whatever it returns or raises. *)
Definition writes_only (P : heap R -> Prop) q {A} (m : M R A) : Prop :=
  forall h, P h -> forall c, c <> q -> fst (m h) !! c = h !! c.

(** [P] survives every change of buffer contents. *)
Definition stable (P : heap R -> Prop) : Prop :=
  forall h h', heap_step h h' -> P h -> P h'.

Lemma writes_only_ret P q {A} (x : A) : writes_only P q (ret x).
Proof. by intros h _ c _. Qed.

Lemma writes_only_raise P q {A} e : writes_only P q (raise e : M R A).
Proof. by intros h _ c _. Qed.

Lemma writes_only_lift P q {A} (r : result A) : writes_only P q (lift r).
Proof. by intros h _ c _. Qed.

Lemma writes_only_get_patch P q self : writes_only P q (get_patch self).
Proof. by intros h _ c _. Qed.

Lemma writes_only_bind P q {A B} (m : M R A) (f : A -> M R B) :
  stable P -> preserving m ->
  writes_only P q m -> (forall x, writes_only P q (f x)) ->
  writes_only P q (bind m f).
Proof.
  intros HP Hpres Hm Hf h Hh c Hc. unfold bind.
  specialize (Hm h Hh c Hc). specialize (Hpres h).
  destruct (m h) as [h' [x|e]]; simpl in *; [|done].
  rewrite <- Hm. apply Hf; [|done]. by eapply HP.
Qed.

Lemma writes_only_update_data P q f : writes_only P q (update_data q f).
Proof.
  intros h _ c Hc. unfold update_data, bind, get_patch, lift, set_data. simpl.
  destruct (h !! q) as [p|]; simpl; [|done].
  destruct (f (data p)) as [d|e]; simpl; [|done].
  by rewrite list_lookup_insert_ne.
Qed.

Lemma writes_only_for_each P q {A} (l : list A) (f : A -> M R unit) :
  stable P -> (forall x, preserving (f x)) ->
  (forall x, writes_only P q (f x)) -> writes_only P q (for_each l f).
Proof.
  intros HP Hpres Hf. induction l as [|x l IH]; simpl.
  - apply writes_only_ret.
  - apply writes_only_bind; auto.
Qed.

Lemma stable_true : stable (fun _ => True).
Proof. by intros h h' _ _. Qed.

(** [self] has the parent [q]. *)
Definition has_parent self q (h : heap R) : Prop :=
  exists p, h !! self = Some p /\ parent p = Some q.

Lemma stable_has_parent self q : stable (has_parent self q).
Proof.
  intros h h' Hstep (p & Hp & Hpar).
  destruct (heap_step_lookup _ _ _ _ Hstep Hp) as (p' & Hp' & d & -> & _).
  by exists (with_data p d).
Qed.

Lemma writes_only_set_parent_col self q j v :
  writes_only (has_parent self q) q (set_parent_col self j v).
Proof.
  intros h (p & Hp & Hpar) c Hc. unfold set_parent_col, bind at 1, get_patch at 1.
  rewrite Hp. simpl. rewrite Hpar.
  by apply (writes_only_update_data (fun _ => True)).
Qed.

Lemma writes_only_set_self_col P self j v : writes_only P self (set_self_col self j v).
Proof. apply writes_only_update_data. Qed.

Lemma writes_only_self_col P q self j : writes_only P q (self_col self j).
Proof. by intros h _ c _; unfold self_col, bind, get_patch, lift; simpl;
  destruct (h !! self). Qed.

Lemma writes_only_parent_col P q self j : writes_only P q (parent_col self j).
Proof.
  intros h _ c _. unfold parent_col, bind, get_patch, lift, raise. simpl.
  destruct (h !! self) as [p|]; simpl; [|done].
  destruct (parent p) as [q'|]; [|done]. by destruct (h !! q').
Qed.

Lemma preserving_restrict_body self i : preserving (restrict_body self i).
Proof.
  unfold restrict_body. apply preserving_bind; [apply preserving_get_patch|].
  intros p. apply preserving_bind; [apply preserving_self_col|]. intros u.
  apply preserving_bind; [apply preserving_self_col|]. intros v.
  destruct (parent_i_start p); [apply preserving_set_parent_col|apply preserving_raise].
Qed.

Lemma preserving_bcs_mr_body self i_s i_e i : preserving (bcs_mr_body self i_s i_e i).
Proof.
  unfold bcs_mr_body.
  repeat first
    [ apply preserving_set_self_col
    | apply preserving_bind; [first [apply preserving_parent_col
                                    | apply preserving_set_self_col] | intros ?] ].
Qed.

Lemma writes_only_restrict_body self q i :
  writes_only (has_parent self q) q (restrict_body self i).
Proof.
  pose proof (stable_has_parent self q) as HP.
  unfold restrict_body.
  apply writes_only_bind; [done | apply preserving_get_patch
                          | apply writes_only_get_patch |].
  intros p.
  apply writes_only_bind; [done | apply preserving_self_col
                          | apply writes_only_self_col |].
  intros u.
  apply writes_only_bind; [done | apply preserving_self_col
                          | apply writes_only_self_col |].
  intros v. destruct (parent_i_start p).
  - apply writes_only_set_parent_col.
  - apply writes_only_raise.
Qed.

Lemma writes_only_bcs_mr_body self i_s i_e i :
  writes_only (fun _ => True) self (bcs_mr_body self i_s i_e i).
Proof.
  unfold bcs_mr_body.
  repeat first
    [ apply writes_only_set_self_col
    | apply writes_only_bind;
        [ apply stable_true
        | first [apply preserving_parent_col | apply preserving_set_self_col]
        | first [apply writes_only_parent_col | apply writes_only_set_self_col]
        | intros ? ] ].
Qed.

Lemma writes_only_bcs_mr self : writes_only (fun _ => True) self (bcs_mr self).
Proof.
  unfold bcs_mr.
  apply writes_only_bind; [apply stable_true | apply preserving_get_patch
                          | apply writes_only_get_patch |].
  intros p. destruct (parent_i_start p); [|apply writes_only_raise].
  apply writes_only_for_each; [apply stable_true | |].
  - intros i. apply preserving_bcs_mr_body.
  - intros i. apply writes_only_bcs_mr_body.
Qed.

Lemma writes_only_bcs_periodic self : writes_only (fun _ => True) self (bcs_periodic self).
Proof.
  unfold bcs_periodic.
  apply writes_only_bind; [apply stable_true | apply preserving_get_patch
                          | apply writes_only_get_patch |].
  intros p.
  apply writes_only_bind; [apply stable_true | | apply writes_only_update_data |].
  - apply preserving_update_data. intros ? ?. apply set_slice_shape.
  - intros _. apply writes_only_update_data.
Qed.

Lemma writes_only_euler_update self dt :
  writes_only (fun _ => True) self (euler_update self dt).
Proof.
  unfold euler_update.
  apply writes_only_bind; [apply stable_true | apply preserving_get_patch
                          | apply writes_only_get_patch |].
  intros p.
  apply writes_only_bind; [apply stable_true | apply preserving_lift
                          | apply writes_only_lift |].
  intros k. apply writes_only_update_data.
Qed.

(** X1.  The periodic fill, the refinement fill and the Euler step of a
    patch write no buffer but the patch's own: every other patch of the
    heap, the parent included, is afterwards exactly what it was, whether
    the method returns or raises. *)
Theorem step_and_fills_write_own_buffer h self dt c :
  c <> self ->
  fst (bcs_periodic self h) !! c = h !! c /\
  fst (bcs_mr self h) !! c = h !! c /\
  fst (euler_step self dt h) !! c = h !! c.
Proof.
  intros Hc. split_and!.
  - by apply writes_only_bcs_periodic.
  - by apply writes_only_bcs_mr.
  - enough (writes_only (fun _ => True) self (euler_step self dt)) as Hw
      by (by apply Hw).
    unfold euler_step.
    apply writes_only_bind; [apply stable_true | apply preserving_euler_update
                            | apply writes_only_euler_update |].
    intros _.
    apply writes_only_bind; [apply stable_true | apply preserving_get_patch
                            | apply writes_only_get_patch |].
    intros p. destruct (parent p).
    + apply writes_only_bcs_mr.
    + unfold call_bcs.
      apply writes_only_bind; [apply stable_true | apply preserving_get_patch
                              | apply writes_only_get_patch |].
      intros p'. destruct (bcs p'). apply writes_only_bcs_periodic.
Qed.

(** X2.  Restriction from a patch with parent [q] writes no buffer but
    the parent's: every other patch, and the restricting patch itself
    when it is not its own parent, is afterwards exactly what it was,
    whether the method returns or raises part-way. *)
Theorem restrict_interior_writes_parent_only h self p q c :
  h !! self = Some p -> parent p = Some q -> c <> q ->
  fst (restrict_interior self h) !! c = h !! c.
Proof.
  intros Hp Hpar Hc.
  assert (has_parent self q h) as Hh by (by exists p).
  enough (writes_only (has_parent self q) q (restrict_interior self)) as Hw
    by (by apply Hw).
  clear h p Hp Hpar Hh c Hc. pose proof (stable_has_parent self q) as HP.
  unfold restrict_interior.
  apply writes_only_bind; [done | apply preserving_get_patch
                          | apply writes_only_get_patch |].
  intros p. destruct (parent p); [|apply writes_only_ret].
  apply writes_only_for_each; [done | |].
  - intros i. apply preserving_restrict_body.
  - intros i. apply writes_only_restrict_body.
Qed.

End Frames.

(** ** Restriction: overrun, repetition *)

Section RestrictionMore.
Context {R : Type} `{Scalar R}.
Implicit Types (h : heap R) (p : patch R) (self q c : ref) (a b d : ndarray R).

(** Two rectangular arrays of one shape with the same entries are equal. *)
Lemma ndarray_ext a b :
  nrows a = nrows b -> ncols a = ncols b -> wf_array a -> wf_array b ->
  (forall r j, r < nrows a -> j < ncols a -> cell a r j = cell b r j) ->
  a = b.
Proof.
  destruct a as [ca ra], b as [cb rb]. unfold nrows, wf_array. simpl.
  intros Hr -> Hwa Hwb Hcells. f_equal.
  apply list_eq_same_length with (length ra); [done | done |].
  intros r rowa rowb Hlt Hra Hrb.
  assert (length rowa = cb) as Hla by (by eapply Forall_lookup_1 in Hwa).
  assert (length rowb = cb) as Hlb by (by eapply Forall_lookup_1 in Hwb).
  apply list_eq_same_length with cb; [done | done |].
  intros j x y Hj Hx Hy.
  specialize (Hcells r j Hlt Hj). unfold cell in Hcells. simpl in Hcells.
  rewrite Hra, Hrb in Hcells. simpl in Hcells. by rewrite Hx, Hy in Hcells.
Qed.

(** The first [k] passes of the loop of [restrict_interior]. *)
Lemma restrict_prefix h self pc q pp (s k : nat) :
  h !! self = Some pc -> parent pc = Some q -> q <> self ->
  h !! q = Some pp ->
  parent_i_start pc = Some (Z.of_nat s) ->
  k <= nx pc / 2 -> s + k <= ncols (data pp) ->
  ncols (data pc) = nx pc + 2 * ngz pc ->
  nrows (data pp) = nrows (data pc) ->
  wf_array (data pp) ->
  exists dk,
    for_range k (restrict_body self) h = (<[q := with_data pp dk]> h, Ok tt) /\
    nrows dk = nrows (data pp) /\ ncols dk = ncols (data pp) /\ wf_array dk /\
    forall r j, r < nrows (data pp) ->
      cell dk r j =
      if decide (s <= j < s + k) then pair_mean pc r (j - s)
      else cell (data pp) r j.
Proof.
  intros Hself Hpar Hne Hq Hs Hk Hfit Hc Hrows Hwf.
  assert (nx pc / 2 * 2 <= nx pc) as Hdiv
    by (pose proof (Nat.Div0.mul_div_le (nx pc) 2); lia).
  set (I := fun (i : nat) (h' : heap R) =>
    exists di,
      h' = <[q := with_data pp di]> h /\
      nrows di = nrows (data pp) /\ ncols di = ncols (data pp) /\ wf_array di /\
      forall r j, r < nrows (data pp) ->
        cell di r j =
        if decide (s <= j < s + i) then pair_mean pc r (j - s)
        else cell (data pp) r j).
  destruct (for_range_invariant I k (restrict_body self) h)
    as (h'' & Hrun & dk & -> & Hfinal).
  - exists (data pp). split_and!; try done.
    + by rewrite with_data_id, list_insert_id.
    + intros r j _. case_decide; [lia | done].
  - intros i h' Hi (di & -> & Hnr & Hnc & Hwfi & Hcells).
    assert (<[q := with_data pp di]> h !! self = Some pc) as Hself'
      by (by rewrite list_lookup_insert_ne).
    assert (<[q := with_data pp di]> h !! q = Some (with_data pp di)) as Hq'
      by (by apply lookup_with_data).
    eexists. split.
    + unfold restrict_body. unfold bind at 1, get_patch at 1.
      rewrite Hself'. cbn [of_option].
      unfold bind at 1.
      rewrite (self_col_run _ self pc _ (interior_index pc (2 * i)) Hself')
        by (unfold interior_index; lia).
      unfold bind at 1.
      rewrite (self_col_run _ self pc _ (interior_index pc (2 * i + 1)) Hself')
        by (unfold interior_index; lia).
      rewrite Hs.
      rewrite (set_parent_col_run _ self pc q (with_data pp di) _ (s + i));
        try done.
      * lia.
      * cbn [data with_data]. lia.
      * cbn [data with_data]. rewrite length_half_sum. congruence.
    + rewrite heap_insert_twice, with_data_twice.
      eexists. split; [reflexivity|]. cbn [data with_data].
      destruct (put_col_shape di (s + i)
                  (vscale s_half
                     (vadd (column (data pc) (interior_index pc (2 * i)))
                           (column (data pc) (interior_index pc (2 * i + 1))))))
        as (Hnr' & Hnc' & Hwf'); [lia | rewrite length_half_sum; congruence |].
      unfold put_col in Hnr', Hnc', Hwf'.
      split_and!; [congruence | cbn [ncols] in *; congruence | auto |].
      intros r j Hr.
      rewrite cell_set_col; [| done | lia | rewrite length_half_sum; congruence | lia].
      rewrite half_sum_columns by lia. cbn [default from_option].
      rewrite Hcells by done.
      repeat case_decide; try lia; try done.
      subst j. unfold pair_mean. by replace (s + i - s) with i by lia.
  - exists dk. by split.
Qed.

Lemma restrict_interior_loop h self p q :
  h !! self = Some p -> parent p = Some q ->
  restrict_interior self h = for_range (nx p / 2) (restrict_body self) h.
Proof.
  intros Hp Hpar. unfold restrict_interior, bind, get_patch. rewrite Hp.
  cbn [of_option]. by rewrite Hpar.
Qed.

(** A loop whose pass [k] raises ends there. *)
Lemma for_range_raise n k (f : nat -> M R unit) h h1 h2 e :
  k < n -> for_range k f h = (h1, Ok tt) -> f k h1 = (h2, Raise e) ->
  for_range n f h = (h2, Raise e).
Proof.
  intros Hk Hrun Hfail. unfold for_range in *.
  replace n with (k + S (n - S k)) by lia.
  rewrite seq_app, for_each_app. unfold bind at 1. rewrite Hrun.
  simpl. unfold bind. by rewrite Hfail.
Qed.

(** X3.  When the columns to write run past the end of the parent's
    buffer, [restrict_interior] raises [IndexError] only after it has
    overwritten every column from the offset to the last one with pair
    means: the parent is left half restricted, everything else
    unchanged. *)
Theorem restrict_interior_overrun h self pc q pp (s : nat) :
  h !! self = Some pc -> parent pc = Some q -> q <> self ->
  h !! q = Some pp ->
  parent_i_start pc = Some (Z.of_nat s) ->
  s <= ncols (data pp) -> ncols (data pp) < s + nx pc / 2 ->
  ncols (data pc) = nx pc + 2 * ngz pc ->
  nrows (data pp) = nrows (data pc) ->
  wf_array (data pp) ->
  exists d',
    restrict_interior self h = (<[q := with_data pp d']> h, Raise IndexError) /\
    forall r j, r < nrows (data pp) ->
      cell d' r j =
      if decide (s <= j < ncols (data pp)) then pair_mean pc r (j - s)
      else cell (data pp) r j.
Proof.
  intros Hself Hpar Hne Hq Hs Hlo Hhi Hc Hrows Hwf.
  set (k := ncols (data pp) - s).
  destruct (restrict_prefix h self pc q pp s k) as (dk & Hrun & Hnr & Hnc & _ & Hcells);
    try done; try (unfold k; lia).
  assert (nx pc / 2 * 2 <= nx pc) as Hdiv
    by (pose proof (Nat.Div0.mul_div_le (nx pc) 2); lia).
  exists dk. split.
  - rewrite (restrict_interior_loop h self pc q) by done.
    eapply for_range_raise with (k := k); [unfold k; lia | exact Hrun |].
    assert (<[q := with_data pp dk]> h !! self = Some pc) as Hself'
      by (by rewrite list_lookup_insert_ne).
    assert (<[q := with_data pp dk]> h !! q = Some (with_data pp dk)) as Hq'
      by (by apply lookup_with_data).
    unfold restrict_body. unfold bind at 1, get_patch at 1.
    rewrite Hself'. cbn [of_option].
    unfold bind at 1.
    rewrite (self_col_run _ self pc _ (interior_index pc (2 * k)) Hself')
      by (unfold interior_index, k; lia).
    unfold bind at 1.
    rewrite (self_col_run _ self pc _ (interior_index pc (2 * k + 1)) Hself')
      by (unfold interior_index, k; lia).
    rewrite Hs. unfold set_parent_col, bind at 1, get_patch at 1.
    rewrite Hself'. cbn [of_option]. rewrite Hpar.
    unfold update_data, bind, get_patch, lift. rewrite Hq'. cbn [of_option data with_data].
    unfold set_col.
    replace (py_index (ncols dk) (Z.of_nat s + Z.of_nat k)) with (@None nat); [done|].
    symmetry. unfold py_index.
    destruct (Z.leb_spec 0 (Z.of_nat s + Z.of_nat k)); [|lia].
    destruct (Z.ltb_spec (Z.of_nat s + Z.of_nat k) (Z.of_nat (ncols dk)));
      [unfold k in *; lia|]. simpl.
    destruct (Z.leb_spec (- Z.of_nat (ncols dk)) (Z.of_nat s + Z.of_nat k)),
             (Z.ltb_spec (Z.of_nat s + Z.of_nat k) 0); simpl; try done; lia.
  - intros r j Hr. rewrite Hcells by done.
    unfold k. repeat case_decide; try lia; done.
Qed.

(** X4.  Restricting twice in a row is restricting once: the second call
    reads the same child cells and writes the same means. *)
Theorem restrict_interior_idempotent h self pc q pp (s : nat) :
  h !! self = Some pc -> parent pc = Some q -> q <> self ->
  h !! q = Some pp ->
  parent_i_start pc = Some (Z.of_nat s) ->
  s + nx pc / 2 <= ncols (data pp) ->
  ncols (data pc) = nx pc + 2 * ngz pc ->
  nrows (data pp) = nrows (data pc) ->
  wf_array (data pp) ->
  restrict_interior self (fst (restrict_interior self h)) = restrict_interior self h.
Proof.
  intros Hself Hpar Hne Hq Hs Hfit Hc Hrows Hwf.
  destruct (restrict_prefix h self pc q pp s (nx pc / 2))
    as (d1 & Hrun1 & Hnr1 & Hnc1 & Hwf1 & Hcells1); try done.
  rewrite (restrict_interior_loop h self pc q) by done.
  rewrite Hrun1. cbn [fst].
  set (h1 := <[q := with_data pp d1]> h).
  assert (h1 !! self = Some pc) as Hself1
    by (unfold h1; by rewrite list_lookup_insert_ne).
  assert (h1 !! q = Some (with_data pp d1)) as Hq1
    by (by apply lookup_with_data).
  destruct (restrict_prefix h1 self pc q (with_data pp d1) s (nx pc / 2))
    as (d2 & Hrun2 & Hnr2 & Hnc2 & Hwf2 & Hcells2); try done.
  { cbn [data with_data]. lia. }
  { cbn [data with_data]. congruence. }
  rewrite (restrict_interior_loop h1 self pc q) by done.
  rewrite Hrun2. unfold h1. rewrite heap_insert_twice, with_data_twice.
  cbn [data with_data] in *.
  replace d2 with d1; [done|].
  apply ndarray_ext; try done; try congruence.
  intros r j Hr Hj. rewrite Hcells2 by congruence.
  rewrite Hcells1 by congruence. by case_decide.
Qed.

End RestrictionMore.

(** ** The periodic fill repeated, and the Euler step of a base patch *)

Section PeriodicMore.
Context {R : Type} `{Scalar R}.
Implicit Types (h : heap R) (p : patch R) (self q c : ref) (a b d : ndarray R).

(** The buffer [bcs_periodic] leaves behind, entry by entry. *)
Definition wrapped (nx_ g : nat) d : ndarray R :=
  NdArray (ncols d) (map (fun row => wrap_right nx_ g (wrap_left nx_ g row)) (rows d)).


Lemma cell_wrapped nx_ g d r j :
  ncols d = nx_ + 2 * g -> wf_array d ->
  cell (wrapped nx_ g d) r j =
  if decide (j < g) then cell d r (nx_ + j)
  else if decide (nx_ + g <= j < nx_ + 2 * g) then cell d r (j - nx_)
  else cell d r j.
Proof.
  intros Hc Hwf. unfold wrapped. rewrite cell_map_rows. unfold cell.
  destruct (rows d !! r) as [row|] eqn:Hrow; simpl; [|by repeat case_decide].
  assert (length row = nx_ + 2 * g) as Hlen by (rewrite <- Hc; by eapply wf_row).
  rewrite wrap_right_lookup by (by apply wrap_left_length).
  rewrite !wrap_left_lookup by done.
  repeat case_decide; try lia; done.
Qed.

Lemma wrap_both_length {A} nx_ g (row : list A) :
  length row = nx_ + 2 * g ->
  length (wrap_right nx_ g (wrap_left nx_ g row)) = nx_ + 2 * g.
Proof.
  intros Hlen. unfold wrap_right. rewrite length_splice.
  - rewrite wrap_left_length by done. lia.
  - rewrite length_take, length_drop, wrap_left_length by done. lia.
  - rewrite wrap_left_length by done. lia.
Qed.

Lemma wrap_both_lookup {A} nx_ g (row : list A) j :
  length row = nx_ + 2 * g ->
  wrap_right nx_ g (wrap_left nx_ g row) !! j =
  if decide (j < g) then row !! (nx_ + j)
  else if decide (nx_ + g <= j < nx_ + 2 * g) then row !! (j - nx_)
  else row !! j.
Proof.
  intros Hlen. rewrite wrap_right_lookup by (by apply wrap_left_length).
  rewrite !wrap_left_lookup by done.
  repeat case_decide; try lia; done.
Qed.

Lemma wrap_both_twice {A} nx_ g (row : list A) :
  length row = nx_ + 2 * g -> g <= nx_ ->
  wrap_right nx_ g (wrap_left nx_ g (wrap_right nx_ g (wrap_left nx_ g row))) =
  wrap_right nx_ g (wrap_left nx_ g row).
Proof.
  intros Hlen Hle. apply list_eq. intros j.
  rewrite (wrap_both_lookup _ _ (wrap_right _ _ _)) by (by apply wrap_both_length).
  rewrite !wrap_both_lookup by done.
  repeat case_decide; try lia; try done; f_equal; lia.
Qed.

(** X5.  On a patch with at least as many interior cells as ghost cells
    the periodic fill changes nothing when applied a second time. *)
Theorem bcs_periodic_idempotent h self p :
  h !! self = Some p -> patch_ok p -> 1 <= ngz p -> ngz p <= nx p ->
  bcs_periodic self (fst (bcs_periodic self h)) = bcs_periodic self h.
Proof.
  intros Hp Hok Hg Hle. pose proof Hok as (Hr & Hc & Hwf).
  rewrite (bcs_periodic_run h self p) by done. cbn [fst].
  set (d1 := NdArray _ _).
  rewrite (bcs_periodic_run _ self (with_data p d1)).
  - rewrite heap_insert_twice, with_data_twice. cbn [data with_data nx ngz].
    do 3 f_equal. unfold d1. cbn [ncols rows]. f_equal.
    rewrite map_map. apply map_ext_in. intros row Hin.
    apply wrap_both_twice; [|done].
    rewrite <- Hc. apply list_elem_of_In, list_elem_of_lookup in Hin as [i Hi].
    by eapply wf_row.
  - by apply lookup_with_data.
  - unfold patch_ok, d1. cbn [data with_data patch_problem nx ngz ncols].
    split_and!.
    + rewrite <- Hr. unfold nrows. cbn [rows]. apply length_map.
    + done.
    + apply Forall_fmap, Forall_lookup_2. intros i row Hrow. simpl.
      rewrite Hc. apply wrap_both_length. rewrite <- Hc. by eapply wf_row.
  - done.
Qed.

(** The Euler step of a patch without a parent, when [rhs] returns an
    array [k] of the buffer's shape: the update, then the periodic
    fill. *)
Lemma euler_step_base_run h self p dt k :
  h !! self = Some p -> parent p = None -> patch_ok p -> 1 <= ngz p ->
  rhs (patch_problem p) (data p) (dx p) = Ok k ->
  wf_array k -> nrows k = nrows (data p) -> ncols k = ncols (data p) ->
  let d1 := NdArray (ncols (data p))
              (zip_with (zip_with s_add) (rows (data p)) (rows (smul dt k))) in
  euler_step self dt h =
    (<[self := with_data p (wrapped (nx p) (ngz p) d1)]> h, Ok tt) /\
  nrows d1 = nrows (data p) /\ ncols d1 = ncols (data p) /\ wf_array d1.
Proof.
  intros Hp Hpar Hok Hg Hk Hwfk Hrk Hck d1. pose proof Hok as (Hr & Hc & Hwf).
  destruct (smul_shape dt k) as (Hr' & Hc' & Hwf').
  assert (iadd (data p) (smul dt k) = Ok d1) as Hadd
    by (apply iadd_same_shape; [congruence | congruence | auto]).
  destruct (iadd_shape _ _ _ Hadd) as (Hr1 & Hc1 & Hwf1).
  split_and!; [|done|done|auto].
  rewrite (euler_step_unfold self dt h p Hp), Hpar. unfold bind.
  rewrite (euler_update_run h self p dt k d1) by done.
  rewrite (bcs_periodic_run _ self (with_data p d1)).
  - by rewrite heap_insert_twice, with_data_twice.
  - by apply lookup_with_data.
  - unfold patch_ok. cbn [data with_data patch_problem nx ngz].
    repeat split; [congruence | congruence | auto].
  - done.
Qed.

(** X6.  The Euler step of a patch without a parent, when [rhs] returns
    an array [k] of the buffer's shape: every interior cell moves by
    [dt] times its entry of [k], and the ghost cells are refilled from
    the moved interior cells, so that ghost slot [i] equals interior cell
    [nx - ngz + i] and trailing ghost slot [i] equals interior cell [i]
    of the new buffer. *)
Theorem euler_step_periodic h self p dt k :
  h !! self = Some p -> parent p = None -> patch_ok p ->
  1 <= ngz p -> ngz p <= nx p ->
  rhs (patch_problem p) (data p) (dx p) = Ok k ->
  wf_array k -> nrows k = nrows (data p) -> ncols k = ncols (data p) ->
  exists d',
    euler_step self dt h = (<[self := with_data p d']> h, Ok tt) /\
    (forall r i, r < nrows (data p) -> i < nx p ->
       cell d' r (interior_index p i) =
       s_add (cell (data p) r (interior_index p i))
             (s_mul dt (cell k r (interior_index p i)))) /\
    (forall r i, i < ngz p ->
       cell d' r i = cell d' r (interior_index p (nx p - ngz p + i)) /\
       cell d' r (interior_index p (nx p) + i) = cell d' r (interior_index p i)).
Proof.
  intros Hp Hpar Hok Hg Hle Hk Hwfk Hrk Hck. pose proof Hok as (Hr & Hc & Hwf).
  destruct (euler_step_base_run h self p dt k) as (Hrun & Hr1 & Hc1 & Hwf1); try done.
  eexists. split; [exact Hrun|]. split.
  - intros r i Hlt Hi. unfold interior_index.
    rewrite cell_wrapped by (congruence || auto).
    repeat case_decide; try lia.
    by rewrite cell_iadd_smul by (done || lia).
  - intros r i Hi. unfold interior_index.
    rewrite !cell_wrapped by (congruence || auto).
    repeat case_decide; try lia. split; f_equal; lia.
Qed.

End PeriodicMore.

(** ** The right-hand side of the advection problem, and a failing update *)

Section AdvectionFacts.
Context {R : Type} `{Scalar R}.
Implicit Types (h : heap R) (p : patch R) (self : ref) (q k : ndarray R).

Lemma advection_slices w :
  py_slice w (Some 1%Z) (Some (-1)%Z) = (Nat.min 1 w, w - 2) /\
  py_slice w (Some 2%Z) None = (Nat.min 2 w, w - 2) /\
  py_slice w None (Some (-2)%Z) = (0, w - 2).
Proof.
  unfold py_slice, py_bound. simpl from_option.
  destruct (Z.ltb_spec 1 0), (Z.ltb_spec (-1) 0), (Z.ltb_spec 2 0),
    (Z.ltb_spec (-2) 0); try lia.
  split_and!; f_equal; lia.
Qed.

(** The values written into [dqdt[0, 1:-1]] *)
Lemma lookup_advection_vals c (q0 : list R) i :
  i + 2 < S (S (length q0)) -> i < length q0 - 2 ->
  vscale c (zip_with s_sub
              (flux_advection (take (length q0 - 2) (drop (Nat.min 2 (length q0)) q0)))
              (flux_advection (take (length q0 - 2) (drop 0 q0)))) !! i =
  Some (s_mul c (s_sub (s_mul (s_of_Z 1) (default (s_of_Z 0) (q0 !! (i + 2))))
                       (s_mul (s_of_Z 1) (default (s_of_Z 0) (q0 !! i))))).
Proof.
  intros _ Hi. unfold vscale, flux_advection, vscale.
  destruct (lookup_lt_is_Some_2 q0 (i + 2)) as [x2 Hx2]; [lia|].
  destruct (lookup_lt_is_Some_2 q0 i) as [x0 Hx0]; [lia|].
  rewrite list_lookup_fmap, lookup_zip_with, !list_lookup_fmap.
  rewrite !lookup_take_lt, !lookup_drop by lia.
  replace (Nat.min 2 (length q0) + i) with (i + 2) by lia.
  rewrite Nat.add_0_l, Hx2, Hx0. done.
Qed.

(** [RHS_advection] where it returns: the shape of its argument, the
    centred difference in the entries [1 <= j < ncols - 1] of row 0, zero
    everywhere else. *)
Lemma RHS_advection_cells q dx_ c :
  wf_array q -> 1 <= nrows q ->
  s_div (s_of_Z (-1)) (s_mul (s_of_Z 2) dx_) = Some c ->
  exists k,
    RHS_advection q dx_ = Ok k /\
    nrows k = nrows q /\ ncols k = ncols q /\ wf_array k /\
    forall r j,
      cell k r j =
      if decide (r = 0 /\ 1 <= j /\ j + 1 < ncols q) then
        s_mul c (s_sub (s_mul (s_of_Z 1) (cell q 0 (j + 1)))
                       (s_mul (s_of_Z 1) (cell q 0 (j - 1))))
      else s_of_Z 0.
Proof.
  intros Hwf Hrows Hc. unfold RHS_advection. rewrite Hc.
  destruct q as [w rws]. unfold nrows in *. cbn [rows ncols] in *.
  destruct rws as [|q0 rws]; [simpl in Hrows; lia|].
  assert (length q0 = w) as Hq0 by (by inversion Hwf).
  cbn [zeros rows length replicate ncols]. rewrite length_replicate.
  unfold row_slice. rewrite Hq0.
  destruct (advection_slices w) as (-> & -> & ->).
  set (z := replicate w (s_of_Z 0)).
  assert (length z = w) as Hz by apply length_replicate.
  set (vals := vscale c _).
  assert (length vals = w - 2) as Hvals.
  { unfold vals, vscale, flux_advection, vscale.
    rewrite length_map, length_zip_with, !length_map, !length_take, !length_drop. lia. }
  assert (forall i, i < w - 2 ->
            vals !! i = Some (s_mul c (s_sub (s_mul (s_of_Z 1) (default (s_of_Z 0) (q0 !! (i + 2))))
                                       (s_mul (s_of_Z 1) (default (s_of_Z 0) (q0 !! i)))))) as Hlook.
  { intros i Hi. unfold vals. rewrite <- Hq0. apply lookup_advection_vals; lia. }
  eexists. split; [reflexivity|]. split_and!.
  - simpl. by rewrite length_replicate.
  - done.
  - unfold wf_array. cbn [rows ncols]. constructor.
    + rewrite length_splice; [done | done | lia].
    + apply Forall_replicate. done.
  - intros r j. unfold cell. cbn [rows].
    remember (Nat.min 1 w) as m1 eqn:Hm1.
    destruct r as [|r]; cbn [lookup list_lookup]; simpl.
    + rewrite lookup_splice; [|done|lia].
      case_decide as Hj; case_decide as Hj'; try lia.
      * rewrite Hlook by lia. simpl.
        replace (j - m1 + 2) with (j + 1) by lia.
        replace (j - m1) with (j - 1) by lia. done.
      * unfold z. destruct (decide (j < w)).
        -- by rewrite lookup_replicate_2.
        -- by rewrite lookup_ge_None_2 by (rewrite length_replicate; lia).
    + destruct (replicate (length rws) z !! r) as [row|] eqn:Hrow; [|done].
      apply lookup_replicate in Hrow as [-> _]. simpl.
      unfold z. destruct (decide (j < w)).
      * by rewrite lookup_replicate_2.
      * by rewrite lookup_ge_None_2 by (rewrite length_replicate; lia).
Qed.

(** X7.  [RHS_advection] in full.  The factor [-1.0 / (2.0*dx)] is
    computed first, so a zero [2.0*dx] raises [ZeroDivisionError]
    whatever the array; then an array without rows raises [IndexError] at
    [q[0, 2:]]; otherwise the result has the shape of the argument, the
    entries [1 <= j < ncols - 1] of row 0 hold the centred difference
    [-1/(2 dx) * (1*q[0,j+1] - 1*q[0,j-1])], and every other entry (the
    two end columns of row 0, every further row) is zero. *)
Theorem RHS_advection_spec q dx_ :
  wf_array q ->
  match s_div (s_of_Z (-1)) (s_mul (s_of_Z 2) dx_) with
  | None => RHS_advection q dx_ = Raise ZeroDivisionError
  | Some c =>
      if decide (nrows q = 0) then RHS_advection q dx_ = Raise IndexError
      else
        exists k,
          RHS_advection q dx_ = Ok k /\
          nrows k = nrows q /\ ncols k = ncols q /\ wf_array k /\
          forall r j,
            cell k r j =
            if decide (r = 0 /\ 1 <= j /\ j + 1 < ncols q) then
              s_mul c (s_sub (s_mul (s_of_Z 1) (cell q 0 (j + 1)))
                             (s_mul (s_of_Z 1) (cell q 0 (j - 1))))
            else s_of_Z 0
  end.
Proof.
  intros Hwf.
  destruct (s_div (s_of_Z (-1)) (s_mul (s_of_Z 2) dx_)) as [c|] eqn:Hc.
  - case_decide as Hrows.
    + unfold RHS_advection. rewrite Hc.
      destruct q as [w [|q0 rws]]; [done | discriminate].
    + apply RHS_advection_cells; [done | lia | done].
  - unfold RHS_advection. by rewrite Hc.
Qed.


(** An update [a += b] with a right-hand side of another width that is
    not 1 is refused. *)
Lemma iadd_width_mismatch a b :
  wf_array b -> 1 <= nrows b -> ncols b <> ncols a -> ncols b <> 1 ->
  iadd a b = Raise ValueError.
Proof.
  intros Hwf Hrows Hne H1. unfold iadd, broadcast_to.
  destruct b as [w rws]. unfold nrows in *. cbn [rows ncols] in *.
  destruct rws as [|row rws]; [simpl in Hrows; lia|].
  assert (length row = w) as Hrow by (by inversion Hwf).
  cbn [broadcast_cols]. unfold broadcast_vec at 1.
  case_decide; [lia|].
  destruct row as [|x [|y row]]; simpl in Hrow; try done; lia.
Qed.

(** X8.  When the right-hand side raises, or returns an array of a width
    that numpy cannot broadcast to the buffer, [euler_step] raises the
    same exception ([ValueError] for the width) without writing to any
    buffer and without running a boundary fill. *)
Theorem euler_step_failure_writes_nothing h self p dt :
  h !! self = Some p ->
  (forall e, rhs (patch_problem p) (data p) (dx p) = Raise e ->
     euler_step self dt h = (h, Raise e)) /\
  (forall k, rhs (patch_problem p) (data p) (dx p) = Ok k ->
     wf_array k -> 1 <= nrows k ->
     ncols k <> ncols (data p) -> ncols k <> 1 ->
     euler_step self dt h = (h, Raise ValueError)).
Proof.
  intros Hp. split.
  - intros e He. unfold euler_step, bind at 1, euler_update, bind at 1, get_patch at 1.
    rewrite Hp. cbn [of_option]. unfold bind at 1, lift at 1. by rewrite He.
  - intros k Hk Hwf Hrows Hne H1.
    unfold euler_step, bind at 1, euler_update, bind at 1, get_patch at 1.
    rewrite Hp. cbn [of_option]. unfold bind at 1, lift at 1. rewrite Hk.
    unfold update_data, bind at 1, get_patch at 1. rewrite Hp. cbn [of_option].
    unfold bind at 1, lift at 1.
    rewrite iadd_width_mismatch; [done | | | | ].
    + by apply smul_shape.
    + by rewrite (proj1 (smul_shape dt k)).
    + by rewrite (proj1 (proj2 (smul_shape dt k))).
    + by rewrite (proj1 (proj2 (smul_shape dt k))).
Qed.

End AdvectionFacts.

(** ** More on the driver: what the constructor allocates *)

Section DriverMore.
Context {R : Type} `{Scalar R}.
Implicit Types (h : heap R) (p : patch R) (self q c : ref) (pr : problem R).
Implicit Types (lvls : list (list ref)).

(** [h'] is [h] followed by newly allocated patches, each with a buffer
    of its shape. *)
Definition allocates h h' : Prop := exists ext, h' = h ++ ext /\ heap_ok ext.

Definition allocating {A} (m : M R A) : Prop := forall h, allocates h (fst (m h)).

Lemma allocates_refl h : allocates h h.
Proof. exists []. split; [by rewrite app_nil_r | constructor]. Qed.

Lemma allocates_trans h1 h2 h3 : allocates h1 h2 -> allocates h2 h3 -> allocates h1 h3.
Proof.
  intros (e1 & -> & H1) (e2 & -> & H2). exists (e1 ++ e2).
  split; [by rewrite app_assoc | by apply Forall_app].
Qed.

Lemma allocating_bind {A B} (m : M R A) (f : A -> M R B) :
  allocating m -> (forall a, allocating (f a)) -> allocating (bind m f).
Proof.
  intros Hm Hf h. unfold bind. specialize (Hm h).
  destruct (m h) as [h1 [a|e]]; simpl in *; [|done].
  eapply allocates_trans; [exact Hm | apply Hf].
Qed.

Lemma allocating_lift {A} (r : result A) : allocating (lift r).
Proof. intros h. apply allocates_refl. Qed.

Lemma allocating_ret {A} (a : A) : allocating (ret a).
Proof. intros h. apply allocates_refl. Qed.

Lemma allocating_patch_init pr nx_ ngz_ x0_ dx_ (bcs_ : string) par pis :
  allocating (patch_init pr nx_ ngz_ x0_ dx_ bcs_ par pis).
Proof.
  intros h. unfold patch_init. destruct (String.eqb bcs_ "Periodic").
  - eexists. split; [reflexivity|]. constructor; [|constructor].
    apply zeros_shape.
  - apply allocates_refl.
Qed.

Lemma allocating_build_level pr child_nx dx_ lvls i xcs :
  forall j level, allocating (build_level pr child_nx dx_ lvls i xcs j level).
Proof.
  induction xcs as [|xc xcs IH]; intros j level; cbn [build_level].
  - apply allocating_ret.
  - apply allocating_bind; [apply allocating_lift|]. intros prev.
    apply allocating_bind; [apply allocating_lift|]. intros par.
    apply allocating_bind; [apply allocating_patch_init|]. intros p. apply IH.
Qed.

Lemma allocating_build_levels pr base_dx child_nx xcs idxs :
  forall lvls, allocating (build_levels pr base_dx child_nx xcs idxs lvls).
Proof.
  induction idxs as [|i idxs IH]; intros lvls; cbn [build_levels].
  - apply allocating_ret.
  - apply allocating_bind; [apply allocating_lift|]. intros dx_.
    apply allocating_bind; [apply allocating_build_level|]. intros level. apply IH.
Qed.

(** X9.  Whatever its arguments, and whether it returns or raises, the
    constructor of the driver leaves every patch that existed before as
    it was and only appends new patches, each with a buffer of its own shape
    [(nv, nx + 2*ngz)]. *)
Theorem mr_simulation_init_only_allocates pr base_dx base_nx nlevels xcs child_nx h :
  exists ext,
    fst (mr_simulation_init pr base_dx base_nx nlevels xcs child_nx h) = h ++ ext /\
    heap_ok ext /\
    (forall c, c < length h ->
       fst (mr_simulation_init pr base_dx base_nx nlevels xcs child_nx h) !! c = h !! c).
Proof.
  assert (allocating (mr_simulation_init pr base_dx base_nx nlevels xcs child_nx)) as Ha.
  { unfold mr_simulation_init.
    apply allocating_bind; [apply allocating_patch_init|]. intros p_base.
    apply allocating_bind; [apply allocating_build_levels|]. intros lvls'.
    apply allocating_ret. }
  destruct (Ha h) as (ext & Hext & Hok). exists ext. split_and!; try done.
  intros c Hc. rewrite Hext. by apply lookup_app_l.
Qed.

(** One centre: the loop over the centres appends one child under the
    one patch of the level below. *)
Lemma build_level_one pr child_nx dx_ lvls i xc prev par h :
  py_nth lvls (Z.of_nat i - 1)%Z = Ok prev -> py_nth prev 0%Z = Ok par ->
  build_level pr child_nx dx_ lvls i [xc] 0 [] h =
  (h ++ [child_patch pr child_nx dx_ xc par], Ok [length h]).
Proof.
  intros Hprev Hpar. cbn [build_level]. unfold bind at 1, lift at 1. rewrite Hprev.
  unfold bind at 1, lift at 1. change (Z.of_nat 0) with 0%Z. rewrite Hpar.
  unfold bind at 1. by rewrite patch_init_periodic.
Qed.

(** Two centres or more over a level of one patch: the first child is
    appended, then [levels[i-1][1]] raises. *)
Lemma build_level_two pr child_nx dx_ lvls i xc1 xc2 xcs par h :
  py_nth lvls (Z.of_nat i - 1)%Z = Ok [par] ->
  build_level pr child_nx dx_ lvls i (xc1 :: xc2 :: xcs) 0 [] h =
  (h ++ [child_patch pr child_nx dx_ xc1 par], Raise IndexError).
Proof.
  intros Hprev. cbn [build_level]. unfold bind at 1, lift at 1. rewrite Hprev.
  unfold bind at 1, lift at 1. change (py_nth [par] (Z.of_nat 0)) with (Ok (A:=ref) par).
  unfold bind at 1. rewrite patch_init_periodic. reflexivity.
Qed.

Lemma py_nth_of_nat {A} (l : list A) (k : nat) x :
  l !! k = Some x -> py_nth l (Z.of_nat k) = Ok x.
Proof.
  intros Hx. unfold py_nth.
  rewrite py_index_of_nat by (by eapply lookup_lt_Some). simpl. by rewrite Hx.
Qed.

(** The levels of a hierarchy with one patch per level, the base patch at
    address [a]. *)
Definition chain (a n : nat) : list (list ref) := map (fun k => [a + k]) (seq 0 n).

Lemma chain_snoc a n : chain a (S n) = chain a n ++ [[a + n]].
Proof. unfold chain. by rewrite seq_S, map_app. Qed.

Lemma chain_lookup a n k : k < n -> chain a n !! k = Some [a + k].
Proof.
  intros Hk. unfold chain. rewrite list_lookup_fmap, lookup_seq_lt by done. done.
Qed.

Lemma build_levels_chain pr base_dx child_nx xc a n :
  forall i h,
    1 <= i -> length h = a + i ->
    (forall k, i <= k < i + n ->
       is_Some (s_div base_dx (s_of_Z (2 ^ Z.of_nat k)))) ->
    exists ext,
      build_levels pr base_dx child_nx [xc] (seq i n) (chain a i) h =
      (h ++ ext, Ok (chain a (i + n))) /\
      length ext = n /\
      forall k, i <= k < i + n ->
        exists dx_, s_div base_dx (s_of_Z (2 ^ Z.of_nat k)) = Some dx_ /\
          ext !! (k - i) = Some (child_patch pr child_nx dx_ xc (a + k - 1)).
Proof.
  induction n as [|n IH]; intros i h Hi Hlen Hdiv; cbn [seq build_levels].
  - exists []. rewrite app_nil_r, Nat.add_0_r. split_and!; try done. intros k Hk. lia.
  - destruct (Hdiv i ltac:(lia)) as [dx_ Hdx].
    unfold bind at 1, lift at 1. rewrite Hdx. cbn [of_option].
    unfold bind at 1.
    rewrite (build_level_one pr child_nx dx_ (chain a i) i xc [a + (i - 1)] (a + (i - 1))).
    2:{ replace (Z.of_nat i - 1)%Z with (Z.of_nat (i - 1)) by lia.
        apply py_nth_of_nat, chain_lookup. lia. }
    2:{ done. }
    rewrite Hlen, <- chain_snoc.
    destruct (IH (S i) (h ++ [child_patch pr child_nx dx_ xc (a + (i - 1))]))
      as (ext & Hrun & Hext & Hcells).
    + lia.
    + rewrite length_app. simpl. lia.
    + intros k Hk. apply Hdiv. lia.
    + exists (child_patch pr child_nx dx_ xc (a + (i - 1)) :: ext). split_and!.
      * rewrite Hrun. rewrite <- app_assoc. simpl.
        by replace (i + S n) with (S (i + n)) by lia.
      * simpl. by rewrite Hext.
      * intros k Hk. destruct (decide (k = i)) as [->|Hne].
        -- exists dx_. split; [done|]. rewrite Nat.sub_diag. simpl.
           by replace (a + i - 1) with (a + (i - 1)) by lia.
        -- destruct (Hcells k ltac:(lia)) as (dk & Hdk & Hk').
           exists dk. split; [done|].
           replace (k - i) with (S (k - S i)) by lia. done.
Qed.

(** X10.  With one centre the constructor succeeds whenever the spacings
    [base_dx / 2**i] can be computed: it appends the base patch and one
    child per further level, every child hanging under the one patch of
    the level below, around the same centre, with [child_nx] cells, one
    ghost cell, the spacing [base_dx / 2**i] and the offset
    [child_nx//4 + 1]. *)
Theorem mr_simulation_init_one_centre pr base_dx base_nx nlevels xc child_nx h :
  (forall k, 1 <= k < nlevels -> is_Some (s_div base_dx (s_of_Z (2 ^ Z.of_nat k)))) ->
  exists h' sim,
    mr_simulation_init pr base_dx base_nx nlevels [xc] child_nx h = (h', Ok sim) /\
    levels sim = chain (length h) (1 + (nlevels - 1)) /\
    length h' = length h + 1 + (nlevels - 1) /\
    h' !! length h = Some (base_patch pr base_nx base_dx) /\
    forall k, 1 <= k < nlevels ->
      exists dx_, s_div base_dx (s_of_Z (2 ^ Z.of_nat k)) = Some dx_ /\
        h' !! (length h + k) =
        Some (child_patch pr child_nx dx_ xc (length h + k - 1)).
Proof.
  intros Hdiv. unfold mr_simulation_init. unfold bind at 1. rewrite patch_init_periodic.
  fold (base_patch pr base_nx base_dx).
  destruct (build_levels_chain pr base_dx child_nx xc (length h) (nlevels - 1) 1
              (h ++ [base_patch pr base_nx base_dx])) as (ext & Hrun & Hext & Hcells).
  - done.
  - rewrite length_app. simpl. lia.
  - intros k Hk. apply Hdiv. lia.
  - unfold bind at 1.
    replace [[length h]] with (chain (length h) 1)
      by (unfold chain; simpl; by rewrite Nat.add_0_r).
    rewrite Hrun. eexists _, _. split; [reflexivity|]. cbn [levels]. split_and!.
    + done.
    + rewrite !length_app, Hext. simpl. lia.
    + rewrite <- app_assoc. rewrite lookup_app_r by done. by rewrite Nat.sub_diag.
    + intros k Hk. destruct (Hcells k ltac:(lia)) as (dk & Hdk & Hk').
      exists dk. split; [done|].
      rewrite <- app_assoc. rewrite lookup_app_r by lia.
      replace (length h + k - length h) with (S (k - 1)) by lia. done.
Qed.

(** X11.  With two centres or more and at least two levels the
    constructor raises [IndexError] at [self.levels[0][1]]: the base level
    holds one patch.  The base patch and the first child have been
    allocated by then. *)
Theorem mr_simulation_init_many_centres pr base_dx base_nx nlevels xc1 xc2 xcs
    child_nx h dx1 :
  2 <= nlevels -> s_div base_dx (s_of_Z 2) = Some dx1 ->
  mr_simulation_init pr base_dx base_nx nlevels (xc1 :: xc2 :: xcs) child_nx h =
  (h ++ [base_patch pr base_nx base_dx; child_patch pr child_nx dx1 xc1 (length h)],
   Raise IndexError).
Proof.
  intros Hn Hdx. unfold mr_simulation_init. unfold bind at 1. rewrite patch_init_periodic.
  fold (base_patch pr base_nx base_dx).
  destruct nlevels as [|[|n]]; try lia.
  cbn [Nat.sub seq build_levels].
  unfold bind at 1. unfold bind at 1, lift at 1.
  change (2 ^ Z.of_nat 1)%Z with 2%Z. rewrite Hdx. cbn [of_option].
  unfold bind at 1.
  rewrite (build_level_two pr child_nx dx1 [[length h]] 1 xc1 xc2 xcs (length h)) by done.
  by rewrite <- app_assoc.
Qed.



End DriverMore.

(** ** The time loop: shapes and the number of passes *)

Section EvolveMore.
Context {R : Type} `{Scalar R}.
Implicit Types (h : heap R) (p : patch R) (self q c : ref) (sim : mr_simulation R).

Lemma preserving_evolve_pass sim dt : preserving (evolve_pass sim dt).
Proof.
  unfold evolve_pass. apply preserving_bind.
  - apply preserving_for_each. intros level. apply preserving_for_each.
    intros c. apply preserving_euler_step.
  - intros _. apply preserving_for_each. intros level. apply preserving_for_each.
    intros c. apply preserving_restrict_interior.
Qed.

Lemma preserving_evolve_loop fuel sim dt t_end :
  forall t, preserving (evolve_loop fuel sim dt t_end t).
Proof.
  induction fuel as [|fuel IH]; intros t; cbn [evolve_loop].
  - destruct (s_ltb t t_end); [apply preserving_raise | apply preserving_ret].
  - destruct (s_ltb t t_end); [|apply preserving_ret].
    apply preserving_bind; [apply preserving_evolve_pass | intros _; apply IH].
Qed.

(** X13.  However long it runs and however it ends, [evolve] leaves the
    heap with the same patches, each with the fields it had and a buffer
    of the shape it had: only buffer contents change. *)
Theorem evolve_keeps_shapes fuel sim t_end h :
  heap_ok h ->
  heap_step h (fst (evolve fuel sim t_end h)) /\
  heap_ok (fst (evolve fuel sim t_end h)).
Proof.
  intros Hok.
  assert (preserving (evolve fuel sim t_end)) as Hpres.
  { unfold evolve. apply preserving_bind; [apply preserving_lift|]. intros finest.
    apply preserving_bind; [apply preserving_lift|]. intros p0.
    apply preserving_bind; [apply preserving_get_patch|]. intros p.
    apply preserving_evolve_loop. }
  split; [apply Hpres|]. eapply heap_step_ok; [apply Hpres | done].
Qed.

(** The clock of [evolve] after [k] passes: [t = 0] followed by [k]
    times [t += dt]. *)
Fixpoint clock (dt : R) (k : nat) : R :=
  match k with
  | 0 => s_of_Z 0
  | S k' => s_add (clock dt k') dt
  end.

(** [n] passes one after the other, stopping at the first that raises. *)
Fixpoint passes (n : nat) (sim : mr_simulation R) (dt : R) : M R unit :=
  match n with
  | 0 => ret tt
  | S n' => run evolve_pass sim dt; passes n' sim dt
  end.

Lemma evolve_loop_passes sim dt t_end n :
  forall fuel k h,
    (forall j, j < n -> s_ltb (clock dt (k + j)) t_end = true) ->
    s_ltb (clock dt (k + n)) t_end = false ->
    n <= fuel ->
    evolve_loop fuel sim dt t_end (clock dt k) h = passes n sim dt h.
Proof.
  induction n as [|n IH]; intros fuel k h Hlt Hge Hfuel.
  - rewrite Nat.add_0_r in Hge. destruct fuel; cbn [evolve_loop passes]; by rewrite Hge.
  - destruct fuel as [|fuel]; [lia|]. cbn [evolve_loop passes].
    specialize (Hlt 0 ltac:(lia)) as Hlt0. rewrite Nat.add_0_r in Hlt0. rewrite Hlt0.
    apply bind_ext; [done|]. intros _ h'.
    change (s_add (clock dt k) dt) with (clock dt (S k)).
    apply IH.
    + intros j Hj. replace (S k + j) with (k + S j) by lia. apply Hlt. lia.
    + by replace (S k + n) with (k + S n) by lia.
    + lia.
Qed.

(** X14.  The number of passes of [evolve]: with the step [dt = 0.5 * dx]
    of the first patch of the finest level, the loop runs exactly [n]
    passes, where [n] is the first count at which the accumulated clock
    [0 + dt + ... + dt] is no longer below [t_end]; the step is never
    shortened, so the last pass may overshoot [t_end].  In particular
    nothing runs when [0 < t_end] fails. *)
Theorem evolve_pass_count fuel sim t_end h finest c p n :
  levels sim !! (length (levels sim) - 1) = Some finest ->
  finest !! 0 = Some c -> h !! c = Some p ->
  (forall j, j < n -> s_ltb (clock (s_mul s_half (dx p)) j) t_end = true) ->
  s_ltb (clock (s_mul s_half (dx p)) n) t_end = false ->
  n <= fuel ->
  evolve fuel sim t_end h = passes n sim (s_mul s_half (dx p)) h.
Proof.
  intros Hfin Hc Hp Hlt Hge Hfuel.
  unfold evolve, bind at 1, lift at 1. rewrite py_nth_last, Hfin. cbn [of_option].
  unfold bind at 1, lift at 1. rewrite py_nth_head, Hc. cbn [of_option].
  unfold bind at 1, get_patch at 1. rewrite Hp. cbn [of_option].
  by apply (evolve_loop_passes sim _ t_end n fuel 0 h).
Qed.

End EvolveMore.

(** ** Termination of the time loop in exact arithmetic *)

Section EvolveClock.
Context {R : Type} `{Scalar R}.
Implicit Types (h : heap R) (p : patch R) (c : ref) (sim : mr_simulation R).

(** [evolve] is its loop, started at [t = 0] with the step of the first
    patch of the finest level. *)
Lemma evolve_unfold fuel sim t_end h finest c p :
  levels sim !! (length (levels sim) - 1) = Some finest ->
  finest !! 0 = Some c -> h !! c = Some p ->
  evolve fuel sim t_end h =
  evolve_loop fuel sim (s_mul s_half (dx p)) t_end (clock (s_mul s_half (dx p)) 0) h.
Proof.
  intros Hfin Hc Hp.
  unfold evolve, bind at 1, lift at 1. rewrite py_nth_last, Hfin. cbn [of_option].
  unfold bind at 1, lift at 1. rewrite py_nth_head, Hc. cbn [of_option].
  unfold bind at 1, get_patch at 1. by rewrite Hp.
Qed.

(** While the clock stays below [t_end] the loop cannot come to its end. *)
Lemma evolve_loop_never_returns sim dt t_end :
  (forall k, s_ltb (clock dt k) t_end = true) ->
  forall fuel k h, snd (evolve_loop fuel sim dt t_end (clock dt k) h) <> Ok tt.
Proof.
  intros Hlt. induction fuel as [|fuel IH]; intros k h; cbn [evolve_loop]; rewrite Hlt.
  - simpl. congruence.
  - unfold bind. destruct (evolve_pass sim dt h) as [h1 [[]|e]]; [|simpl; congruence].
    change (s_add (clock dt k) dt) with (clock dt (S k)). apply IH.
Qed.

End EvolveClock.



Lemma qc_of_Z_add (a b : Z) :
  Q2Qc (inject_Z (a + b)) = (Q2Qc (inject_Z a) + Q2Qc (inject_Z b))%Qc.
Proof.
  apply Qc_is_canon. unfold Qcplus. cbn [this Q2Qc].
  rewrite !Qred_correct, inject_Z_plus. reflexivity.
Qed.

Lemma qc_of_nat_nonneg (k : nat) : (Q2Qc 0 <= Q2Qc (inject_Z (Z.of_nat k)))%Qc.
Proof.
  unfold Qcle. cbn [this Q2Qc]. rewrite !Qred_correct.
  unfold Qle. simpl. lia.
Qed.

Lemma qc_ltb_spec (a b : Qc) : s_ltb a b = true <-> (a < b)%Qc.
Proof.
  simpl. rewrite Qclt_alt. destruct (a ?= b)%Qc; split; congruence.
Qed.

Lemma clock_qc (dt : Qc) (k : nat) :
  clock dt k = (Q2Qc (inject_Z (Z.of_nat k)) * dt)%Qc.
Proof.
  induction k as [|k IH].
  - cbn [clock]. change (s_of_Z 0) with 0%Qc.
    change (Q2Qc (inject_Z (Z.of_nat 0))) with 0%Qc. ring.
  - cbn [clock]. rewrite IH, Nat2Z.inj_succ. unfold Z.succ. rewrite qc_of_Z_add.
    cbn [s_add Qc_Scalar]. change (Q2Qc (inject_Z 1)) with 1%Qc. ring.
Qed.



Lemma qc_half_nonpositive (x : Qc) : (x <= Q2Qc 0)%Qc -> (s_mul s_half x <= Q2Qc 0)%Qc.
Proof.
  intros Hx. cbn [s_mul s_half Qc_Scalar]. rewrite Qcmult_comm.
  eapply Qcle_trans; [apply Qcmult_le_compat_r; [exact Hx | done]|].
  rewrite Qcmult_0_l. apply Qcle_refl.
Qed.



(** X16.  In exact arithmetic, with a spacing on the finest level that is
    zero or negative and [t_end > 0], the clock never reaches [t_end]:
    the loop of [evolve] does not come to an end, so no bound on the
    iterations lets [evolve] return normally. *)
Theorem evolve_never_returns (sim : mr_simulation Qc) (t_end : Qc) (h : heap Qc)
    finest c p fuel :
  levels sim !! (length (levels sim) - 1) = Some finest ->
  finest !! 0 = Some c -> h !! c = Some p ->
  (dx p <= Q2Qc 0)%Qc -> (Q2Qc 0 < t_end)%Qc ->
  snd (evolve fuel sim t_end h) <> Ok tt.
Proof.
  intros Hfin Hc Hp Hdx Hend.
  rewrite (evolve_unfold fuel sim t_end h finest c p) by done.
  apply evolve_loop_never_returns. intros k. apply qc_ltb_spec.
  rewrite clock_qc. eapply Qcle_lt_trans; [|exact Hend].
  rewrite Qcmult_comm.
  eapply Qcle_trans;
    [apply Qcmult_le_compat_r; [by apply qc_half_nonpositive | apply qc_of_nat_nonneg]|].
  rewrite Qcmult_0_l. apply Qcle_refl.
Qed.

(** ** The refinement fill for any number of ghost cells *)

Section RefinementFillMore.
Context {R : Type} `{Scalar R}.
Implicit Types (h : heap R) (p : patch R) (self q c : ref) (a b d : ndarray R).

(** X17.  The cells [bcs_mr] writes, for any number of ghost cells: with
    [k = ngz // 2] passes, [s = parent_i_start] and [e = s + ngz // 2],
    every pass [i < k] writes the same four combinations of parent
    columns, [(P[s-2] + 3 P[s-1])/4] and [(3 P[s-1] + P[s])/4] into
    columns [2i] and [2i+1], [(P[e] + 3 P[e+1])/4] and
    [(3 P[e+1] + P[e+2])/4] into columns [w-2-2i] and [w-1-2i] of the
    buffer of width [w]; the columns in between keep their values, which
    for an odd [ngz] includes the innermost ghost cell on either side. *)
Theorem bcs_mr_fills_pairs h self p q pp (s : nat) :
  h !! self = Some p -> parent p = Some q -> q <> self -> h !! q = Some pp ->
  parent_i_start p = Some (Z.of_nat s) ->
  2 <= s -> s + ngz p / 2 + 2 < ncols (data pp) ->
  ncols (data p) = nx p + 2 * ngz p -> wf_array (data p) ->
  nrows (data pp) = nrows (data p) ->
  exists d',
    bcs_mr self h = (<[self := with_data p d']> h, Ok tt) /\
    forall r, r < nrows (data p) ->
      let P := cell (data pp) r in
      let three := s_of_Z 3 in
      let e := s + ngz p / 2 in
      let w := nx p + 2 * ngz p in
      (forall i, i < ngz p / 2 ->
         cell d' r (2 * i) =
           s_mul s_quarter (s_add (P (s - 2)) (s_mul three (P (s - 1)))) /\
         cell d' r (2 * i + 1) =
           s_mul s_quarter (s_add (s_mul three (P (s - 1))) (P s)) /\
         cell d' r (w - 2 - 2 * i) =
           s_mul s_quarter (s_add (P e) (s_mul three (P (e + 1)))) /\
         cell d' r (w - 1 - 2 * i) =
           s_mul s_quarter (s_add (s_mul three (P (e + 1))) (P (e + 2)))) /\
      (forall j, 2 * (ngz p / 2) <= j < w - 2 * (ngz p / 2) ->
         cell d' r j = cell (data p) r j).
Proof.
  intros Hp Hpar Hne Hq Hs Hs2 He Hc Hwf Hrows.
  destruct (bcs_mr_cells h self p q pp s) as (d' & Hrun & _ & _ & _ & Hcells);
    try done.
  exists d'. split; [exact Hrun|]. intros r Hr P three e w.
  assert (2 * (ngz p / 2) <= ngz p) as Hdiv by apply Nat.Div0.mul_div_le.
  assert (r < nrows (data pp)) as Hr' by lia.
  split.
  - intros i Hi. split_and!.
    + rewrite Hcells by lia. unfold filled_cell, left_outer.
      case_decide; [|lia]. by rewrite even_double, lookup_quarter_1_3.
    + rewrite Hcells by lia. unfold filled_cell, left_inner.
      case_decide; [|lia]. by rewrite even_double_succ, lookup_quarter_3_1.
    + rewrite Hcells by (unfold w; lia). unfold filled_cell, right_inner, i_end.
      rewrite Hc. fold w. repeat case_decide; try lia.
      replace (w - 1 - (w - 2 - 2 * i)) with (2 * i + 1) by lia.
      by rewrite even_double_succ, lookup_quarter_1_3.
    + rewrite Hcells by (unfold w; lia). unfold filled_cell, right_outer, i_end.
      rewrite Hc. fold w. repeat case_decide; try lia.
      replace (w - 1 - (w - 1 - 2 * i)) with (2 * i) by lia.
      by rewrite even_double, lookup_quarter_3_1.
  - intros j Hj. rewrite Hcells by (unfold w in Hj; lia). unfold filled_cell.
    rewrite Hc. fold w. repeat case_decide; try lia. done.
Qed.

(** X18.  The refinement fill reads the parent only, so a second call
    finds nothing left to change. *)
Theorem bcs_mr_idempotent h self p q pp (s : nat) :
  h !! self = Some p -> parent p = Some q -> q <> self -> h !! q = Some pp ->
  parent_i_start p = Some (Z.of_nat s) ->
  2 <= s -> s + ngz p / 2 + 2 < ncols (data pp) ->
  ncols (data p) = nx p + 2 * ngz p -> wf_array (data p) ->
  nrows (data pp) = nrows (data p) ->
  bcs_mr self (fst (bcs_mr self h)) = bcs_mr self h.
Proof.
  intros Hp Hpar Hne Hq Hs Hs2 He Hc Hwf Hrows.
  destruct (bcs_mr_cells h self p q pp s)
    as (d1 & Hrun1 & Hnr1 & Hnc1 & Hwf1 & Hcells1); try done.
  rewrite Hrun1. cbn [fst].
  set (h1 := <[self := with_data p d1]> h).
  destruct (bcs_mr_cells h1 self (with_data p d1) q pp s)
    as (d2 & Hrun2 & Hnr2 & Hnc2 & Hwf2 & Hcells2); try done.
  { by apply lookup_with_data. }
  { unfold h1. by rewrite list_lookup_insert_ne. }
  { cbn [data with_data nx ngz]. congruence. }
  { cbn [data with_data]. congruence. }
  rewrite Hrun2. unfold h1. rewrite heap_insert_twice, with_data_twice.
  cbn [data with_data] in *.
  replace d2 with d1; [done|].
  apply ndarray_ext; try done; try congruence.
  intros r j Hr Hj. rewrite Hcells2 by congruence.
  rewrite Hcells1 by congruence.
  unfold filled_cell. cbn [data with_data]. rewrite Hnc1.
  repeat case_decide; try done.
  rewrite Hcells1 by congruence. unfold filled_cell.
  repeat case_decide; try lia. done.
Qed.

(** X19.  With two ghost cells or more the refinement fill fails before
    it writes anything when the patch has an offset but no parent
    ([AttributeError] at [self.parent.data]) or when the offset points
    more than one column past either end of the parent's buffer
    ([IndexError] at the first column read). *)
Theorem bcs_mr_fails_before_writing h self p (s : Z) :
  h !! self = Some p -> 2 <= ngz p -> parent_i_start p = Some s ->
  (parent p = None -> bcs_mr self h = (h, Raise AttributeError)) /\
  (forall q pp, parent p = Some q -> h !! q = Some pp ->
     (s - 2 < - Z.of_nat (ncols (data pp)) \/ Z.of_nat (ncols (data pp)) <= s - 2)%Z ->
     bcs_mr self h = (h, Raise IndexError)).
Proof.
  intros Hp Hg Hs.
  assert (exists k, ngz p / 2 = S k) as [k Hk].
  { destruct (ngz p / 2) as [|k] eqn:Hk; [|by exists k].
    apply Nat.div_small_iff in Hk; lia. }
  split.
  - intros Hpar. unfold bcs_mr, bind at 1, get_patch at 1. rewrite Hp. cbn [of_option].
    rewrite Hs, Hk. unfold for_range. cbn [seq for_each].
    unfold bind at 1, bcs_mr_body, bind at 1, parent_col, bind at 1, get_patch at 1.
    rewrite Hp. cbn [of_option]. by rewrite Hpar.
  - intros q pp Hpar Hq Hout.
    unfold bcs_mr, bind at 1, get_patch at 1. rewrite Hp. cbn [of_option].
    rewrite Hs, Hk. unfold for_range. cbn [seq for_each].
    unfold bind at 1, bcs_mr_body, bind at 1, parent_col, bind at 1, get_patch at 1.
    rewrite Hp. cbn [of_option]. rewrite Hpar.
    unfold bind at 1, get_patch at 1. rewrite Hq. cbn [of_option].
    unfold lift, get_col.
    assert (py_index (ncols (data pp)) (s - 2) = None) as ->; [|done].
    unfold py_index.
    destruct (Z.leb_spec 0 (s - 2)), (Z.ltb_spec (s - 2) (Z.of_nat (ncols (data pp))));
      simpl; try lia;
      destruct (Z.leb_spec (- Z.of_nat (ncols (data pp))) (s - 2)),
        (Z.ltb_spec (s - 2) 0); simpl; try lia; done.
Qed.

(** X20.  A patch with a parent but no offset: the restriction raises
    [TypeError] at [self.parent_i_start + i] in its first pass, after
    reading its own two columns and before writing; with fewer than two
    interior cells the loop has no pass and the call returns. *)
Theorem restrict_interior_no_offset h self p q :
  h !! self = Some p -> parent p = Some q -> parent_i_start p = None ->
  ncols (data p) = nx p + 2 * ngz p ->
  restrict_interior self h =
  (h, if decide (2 <= nx p) then Raise TypeError else Ok tt).
Proof.
  intros Hp Hpar Hs Hc.
  unfold restrict_interior, bind at 1, get_patch at 1. rewrite Hp. cbn [of_option].
  rewrite Hpar. case_decide as Hnx.
  - assert (exists k, nx p / 2 = S k) as [k Hk].
    { destruct (nx p / 2) as [|k] eqn:Hk; [|by exists k].
      apply Nat.div_small_iff in Hk; lia. }
    rewrite Hk. unfold for_range. cbn [seq for_each].
    unfold bind at 1, restrict_body, bind at 1, get_patch at 1.
    rewrite Hp. cbn [of_option].
    unfold bind at 1. rewrite (self_col_run h self p _ (ngz p)) by (done || lia).
    unfold bind at 1. rewrite (self_col_run h self p _ (ngz p + 1)) by (done || lia).
    by rewrite Hs.
  - assert (nx p / 2 = 0) as -> by (apply Nat.div_small; lia). done.
Qed.

End RefinementFillMore.

(** ** Restriction conserves the integral, in exact arithmetic *)





(** ** Advection on a periodic patch conserves the sum of the interior *)





(** * The grid of a patch *)

(** ** [np.linspace] and [patch.grid] *)

Section Grid.
Context {R : Type} `{Scalar R}.





End Grid.






(** ** Where the children of the deeper levels sit, in exact arithmetic *)




(** * A hierarchy that runs *)

(** ** What a pass needs of every patch *)

Section Runs.
Context {R : Type} `{Scalar R}.
Implicit Types (h : heap R) (p : patch R) (self q c : ref) (sim : mr_simulation R).
















End Runs.

(** ** The notebook's hierarchy runs, in exact arithmetic *)




(** * Concrete runs of the further properties *)

(** The child of [ex_heap] with another offset into its parent. *)
Definition ex_shifted (s : Z) : patch Qc :=
  Patch advection 8 2 bcs_periodic_method (qc 2 1) (qc 1 2) (Some 0) (Some s)
    (NdArray 12 [ramp 12]).

(** A child that names a parent but has no offset. *)
Definition ex_unlinked : patch Qc :=
  Patch advection 8 2 bcs_periodic_method (qc 2 1) (qc 1 2) (Some 0) None
    (NdArray 12 [ramp 12]).

(** A base patch with spacing zero. *)
Definition ex_flat : patch Qc :=
  Patch advection 8 2 bcs_periodic_method (qc 0 1) (qc 0 1) None None
    (NdArray 12 [ramp 12]).


(** What [RHS_advection] returns on the buffer of [ex_parent]. *)
Definition ex_rate : ndarray Qc :=
  match RHS_advection (data ex_parent) (dx ex_parent) with
  | Ok k => k
  | Raise _ => zeros 0 0
  end.

(** X1: stepping the child leaves the parent as it was. *)
Lemma step_and_fills_write_own_buffer_witness :
  fst (bcs_periodic 1 ex_heap) !! 0 = ex_heap !! 0 /\
  fst (bcs_mr 1 ex_heap) !! 0 = ex_heap !! 0 /\
  fst (euler_step 1 (qc 1 2) ex_heap) !! 0 = ex_heap !! 0.
Proof. apply (step_and_fills_write_own_buffer ex_heap 1 (qc 1 2) 0). lia. Defined.

(** X2: restricting the child leaves the child as it was. *)
Lemma restrict_interior_writes_parent_only_witness :
  fst (restrict_interior 1 ex_heap) !! 1 = ex_heap !! 1.
Proof.
  apply (restrict_interior_writes_parent_only ex_heap 1 ex_child 0 1);
    [reflexivity | reflexivity | lia].
Defined.

(** X3: with the offset 10 the child's four pairs would go to parent
    columns 10..13 of 12; columns 10 and 11 are written, then the call
    raises. *)
Lemma restrict_interior_overrun_witness :
  exists d',
    restrict_interior 1 [ex_parent; ex_shifted 10] =
    (<[0 := with_data ex_parent d']> [ex_parent; ex_shifted 10], Raise IndexError) /\
    cell d' 0 10 = pair_mean (ex_shifted 10) 0 0 /\
    cell d' 0 11 = pair_mean (ex_shifted 10) 0 1 /\
    cell d' 0 9 = cell (data ex_parent) 0 9.
Proof.
  destruct (restrict_interior_overrun [ex_parent; ex_shifted 10] 1 (ex_shifted 10) 0
              ex_parent 10) as (d' & Hrun & Hcells); try reflexivity.
  - discriminate.
  - cbv. lia.
  - cbv. lia.
  - repeat constructor.
  - exists d'. split; [exact Hrun|].
    split_and!; [apply (Hcells 0 10) | apply (Hcells 0 11) | apply (Hcells 0 9)];
      cbv; lia.
Defined.

(** X4: restricting the child of [ex_heap] twice. *)
Lemma restrict_interior_idempotent_witness :
  restrict_interior 1 (fst (restrict_interior 1 ex_heap)) = restrict_interior 1 ex_heap.
Proof.
  apply (restrict_interior_idempotent ex_heap 1 ex_child 0 ex_parent 4);
    try reflexivity.
  - discriminate.
  - cbv. lia.
  - repeat constructor.
Defined.

(** X5: the periodic fill twice on the base patch of [ex_heap]. *)
Lemma bcs_periodic_idempotent_witness :
  bcs_periodic 0 (fst (bcs_periodic 0 ex_heap)) = bcs_periodic 0 ex_heap.
Proof.
  apply (bcs_periodic_idempotent ex_heap 0 ex_parent).
  - reflexivity.
  - repeat constructor.
  - cbv. lia.
  - cbv. lia.
Defined.

(** X6: one Euler step of the base patch of [ex_heap]. *)
Lemma euler_step_periodic_witness :
  exists d',
    euler_step 0 (qc 1 2) ex_heap = (<[0 := with_data ex_parent d']> ex_heap, Ok tt) /\
    cell d' 0 0 = cell d' 0 8 /\ cell d' 0 10 = cell d' 0 2.
Proof.
  destruct (euler_step_periodic ex_heap 0 ex_parent (qc 1 2) ex_rate)
    as (d' & Hrun & _ & Hghost); try reflexivity.
  - repeat constructor.
  - cbv. lia.
  - cbv. lia.
  - repeat constructor.
  - exists d'. split; [exact Hrun|]. apply (Hghost 0 0). cbv. lia.
Defined.

(** X7: the centred difference of the ramp: zero in the end columns,
    [-1/2 * (4 - 2) = -1] in column 3. *)
Lemma RHS_advection_spec_witness :
  exists k,
    RHS_advection (data ex_parent) (qc 1 1) = Ok k /\
    nrows k = 1 /\ ncols k = 12 /\
    cell k 0 0 = s_of_Z 0 /\ cell k 0 11 = s_of_Z 0 /\ cell k 1 3 = s_of_Z 0 /\
    this (cell k 0 3) = (-1 # 1)%Q.
Proof.
  pose proof (RHS_advection_spec (data ex_parent) (qc 1 1) ltac:(repeat constructor))
    as Hspec.
  destruct (s_div (s_of_Z (-1)) (s_mul (s_of_Z 2) (qc 1 1))) as [c|] eqn:Hc;
    [|vm_compute in Hc; discriminate Hc].
  destruct (decide (nrows (data ex_parent) = 0)) as [Hz|_]; [discriminate Hz|].
  destruct Hspec as (k & Hk & Hr & Hcn & _ & Hcells).
  exists k. split_and!; [exact Hk | exact Hr | exact Hcn | apply (Hcells 0 0)
                        | apply (Hcells 0 11) | apply (Hcells 1 3) |].
  rewrite (Hcells 0 3). injection Hc as <-. vm_compute. reflexivity.
Defined.

(** X8: with spacing zero the right-hand side raises and the step writes
    nothing. *)
Lemma euler_step_failure_writes_nothing_witness :
  euler_step 0 (qc 1 2) [ex_flat] = ([ex_flat], Raise ZeroDivisionError).
Proof.
  apply (proj1 (euler_step_failure_writes_nothing [ex_flat] 0 ex_flat (qc 1 2) eq_refl)).
  reflexivity.
Defined.

(** X10: two levels around one centre. *)
Lemma mr_simulation_init_one_centre_witness :
  exists h' sim,
    mr_simulation_init advection (qc 1 100) 8 2 [qc 1 25] 8 [] = (h', Ok sim) /\
    levels sim = [[0]; [1]] /\ length h' = 2.
Proof.
  destruct (mr_simulation_init_one_centre advection (qc 1 100) 8 2 (qc 1 25) 8 [])
    as (h' & sim & Hrun & Hlevels & Hlen & _).
  - intros k Hk. assert (k = 1) as -> by lia. eexists. reflexivity.
  - exists h', sim. split_and!; [exact Hrun | exact Hlevels | exact Hlen].
Defined.

(** X11: two centres over the one base patch. *)
Lemma mr_simulation_init_many_centres_witness :
  snd (mr_simulation_init advection (qc 1 100) 8 2 [qc 3 10; qc 1 2] 8 []) =
  Raise IndexError.
Proof.
  rewrite (mr_simulation_init_many_centres advection (qc 1 100) 8 2 (qc 3 10) (qc 1 2) []
             8 [] (qc 1 100 / s_of_Z 2)%Qc); [reflexivity | lia | reflexivity].
Defined.


(** X13: the loop on the two-level hierarchy of [ex_heap]. *)
Lemma evolve_keeps_shapes_witness :
  heap_step ex_heap (fst (evolve 2 ex_sim (qc 1 8) ex_heap)) /\
  heap_ok (fst (evolve 2 ex_sim (qc 1 8) ex_heap)).
Proof. apply (evolve_keeps_shapes 2 ex_sim (qc 1 8) ex_heap). repeat constructor. Defined.

(** X14: with [dt = 1/4] and [t_end = 1/2] the loop runs two passes. *)
Lemma evolve_pass_count_witness :
  evolve 5 ex_sim (qc 1 2) ex_heap = passes 2 ex_sim (s_mul s_half (dx ex_child)) ex_heap.
Proof.
  apply (evolve_pass_count 5 ex_sim (qc 1 2) ex_heap [1] 1 ex_child 2);
    try reflexivity.
  - intros j Hj. destruct j as [|[|j]]; [reflexivity | reflexivity | lia].
  - lia.
Defined.


(** X16: with spacing zero the clock stays at zero. *)
Lemma evolve_never_returns_witness :
  snd (evolve 3 (MrSimulation advection [[0]]) (qc 1 2) [ex_flat]) <> Ok tt.
Proof.
  apply (evolve_never_returns (MrSimulation advection [[0]]) (qc 1 2) [ex_flat]
           [0] 0 ex_flat 3); reflexivity.
Defined.

(** X17: the fill of the child of [ex_heap], two ghost cells per side. *)
Lemma bcs_mr_fills_pairs_witness :
  exists d',
    bcs_mr 1 ex_heap = (<[1 := with_data ex_child d']> ex_heap, Ok tt) /\
    cell d' 0 5 = cell (data ex_child) 0 5.
Proof.
  destruct (bcs_mr_fills_pairs ex_heap 1 ex_child 0 ex_parent 4)
    as (d' & Hrun & Hcells); try reflexivity.
  - discriminate.
  - lia.
  - cbv. lia.
  - repeat constructor.
  - exists d'. split; [exact Hrun|].
    pose proof (Hcells 0 ltac:(cbv; lia)) as Hrow. cbv zeta in Hrow.
    apply (proj2 Hrow 5). cbv. lia.
Defined.

(** X18: the fill of the child of [ex_heap] twice. *)
Lemma bcs_mr_idempotent_witness :
  bcs_mr 1 (fst (bcs_mr 1 ex_heap)) = bcs_mr 1 ex_heap.
Proof.
  apply (bcs_mr_idempotent ex_heap 1 ex_child 0 ex_parent 4); try reflexivity.
  - discriminate.
  - lia.
  - cbv. lia.
  - repeat constructor.
Defined.

(** X19: with the offset 14 the first column read is column 12 of 12. *)
Lemma bcs_mr_fails_before_writing_witness :
  bcs_mr 1 [ex_parent; ex_shifted 14] = ([ex_parent; ex_shifted 14], Raise IndexError).
Proof.
  apply (proj2 (bcs_mr_fails_before_writing [ex_parent; ex_shifted 14] 1 (ex_shifted 14)
                  14 eq_refl ltac:(cbv; lia) eq_refl) 0 ex_parent);
    [reflexivity | reflexivity | right; cbv; discriminate].
Defined.

(** X20: a child with a parent and no offset. *)
Lemma restrict_interior_no_offset_witness :
  restrict_interior 1 [ex_parent; ex_unlinked] =
  ([ex_parent; ex_unlinked], Raise TypeError).
Proof.
  apply (restrict_interior_no_offset [ex_parent; ex_unlinked] 1 ex_unlinked 0);
    reflexivity.
Defined.




(** ** Offsets next to the ends of the parent *)

Section RefinementFillWrap.
Context {R : Type} `{Scalar R}.
Implicit Types (h : heap R) (p : patch R) (self q c : ref) (a b d : ndarray R).

(** The column a Python index in [-n .. n-1] selects. *)
Definition wrap_index (n : nat) (z : Z) : nat := Z.to_nat (z mod Z.of_nat n).

Lemma py_index_wrap (n : nat) (z : Z) :
  (- Z.of_nat n <= z < Z.of_nat n)%Z -> py_index n z = Some (wrap_index n z).
Proof.
  intros Hz. unfold wrap_index. destruct (Z.neg_nonneg_cases z) as [Hneg|Hpos].
  - rewrite py_index_neg by lia. f_equal. f_equal.
    rewrite <- (Z_mod_plus_full z 1 (Z.of_nat n)). rewrite Z.mod_small; lia.
  - rewrite py_index_nonneg by lia. f_equal. f_equal. rewrite Z.mod_small; lia.
Qed.

Lemma wrap_index_lt (n : nat) (z : Z) : 0 < n -> wrap_index n z < n.
Proof.
  intros Hn. unfold wrap_index.
  pose proof (Z.mod_pos_bound z (Z.of_nat n) ltac:(lia)). lia.
Qed.

Lemma parent_col_index h self p q pp (z : Z) k :
  h !! self = Some p -> parent p = Some q -> h !! q = Some pp ->
  py_index (ncols (data pp)) z = Some k ->
  parent_col self z h = (h, Ok (column (data pp) k)).
Proof.
  intros Hp Hpar Hq Hk. unfold parent_col, bind, get_patch, lift.
  rewrite Hp. cbn [of_option]. rewrite Hpar, Hq. cbn [of_option].
  unfold get_col. by rewrite Hk.
Qed.

(** One assignment of the loop body of [bcs_mr], with the columns as
    Python indexes them. *)
Lemma fill_assignment_index h self p q pp (f : list R -> list R -> list R)
    (z1 z2 zt : Z) k1 k2 kt :
  h !! self = Some p -> parent p = Some q -> q <> self -> h !! q = Some pp ->
  py_index (ncols (data pp)) z1 = Some k1 ->
  py_index (ncols (data pp)) z2 = Some k2 ->
  py_index (ncols (data p)) zt = Some kt ->
  length (f (column (data pp) k1) (column (data pp) k2)) = nrows (data p) ->
  (do u <- parent_col self z1;
   do v <- parent_col self z2;
   set_self_col self zt (f u v)) h =
  (<[self := with_data p
        (put_col (data p) kt (f (column (data pp) k1) (column (data pp) k2)))]> h,
   Ok tt).
Proof.
  intros Hp Hpar Hne Hq Hk1 Hk2 Hzt Hlen.
  unfold bind at 1. rewrite (parent_col_index h self p q pp z1 k1) by done.
  unfold bind at 1. rewrite (parent_col_index h self p q pp z2 k2) by done.
  unfold set_self_col.
  by rewrite (update_data_ok self _ h p _ Hp (set_col_index _ _ _ _ Hzt Hlen)).
Qed.

(** X26.  [bcs_mr] never checks the offset: with two or three ghost
    cells (one pass) and any integer offset [s] for which the six parent
    indices [s-2 .. s+3] are valid Python indices, the call returns
    normally, and each index selects the column numpy gives it, so that a
    negative one counts from the end of the parent's buffer.  With
    [s = 1] the outermost left ghost cell is computed from the LAST
    column of the parent, [(P[W-1] + 3 P[0])/4]; with [s = 0] both left
    ghost cells are. *)
Theorem bcs_mr_offset_wraps h self p q pp (s : Z) :
  h !! self = Some p -> parent p = Some q -> q <> self -> h !! q = Some pp ->
  parent_i_start p = Some s -> ngz p / 2 = 1 ->
  (- Z.of_nat (ncols (data pp)) <= s - 2)%Z -> (s + 3 < Z.of_nat (ncols (data pp)))%Z ->
  ncols (data p) = nx p + 2 * ngz p -> wf_array (data p) ->
  nrows (data pp) = nrows (data p) ->
  exists d',
    bcs_mr self h = (<[self := with_data p d']> h, Ok tt) /\
    forall r, r < nrows (data p) ->
      let P := fun z => cell (data pp) r (wrap_index (ncols (data pp)) z) in
      let three := s_of_Z 3 in
      let w := nx p + 2 * ngz p in
      cell d' r 0 =
        s_mul s_quarter (s_add (P (s - 2)%Z) (s_mul three (P (s - 1)%Z))) /\
      cell d' r 1 =
        s_mul s_quarter (s_add (s_mul three (P (s - 1)%Z)) (P s)) /\
      cell d' r (w - 2) =
        s_mul s_quarter (s_add (P (s + 1)%Z) (s_mul three (P (s + 2)%Z))) /\
      cell d' r (w - 1) =
        s_mul s_quarter (s_add (s_mul three (P (s + 2)%Z)) (P (s + 3)%Z)) /\
      forall j, 2 <= j < w - 2 -> cell d' r j = cell (data p) r j.
Proof.
  intros Hp Hpar Hne Hq Hs Hg Hlo Hhi Hc Hwf Hrows.
  set (W := ncols (data pp)) in *.
  assert (2 <= ngz p) as Hg2.
  { destruct (decide (2 <= ngz p)); [done|].
    rewrite Nat.div_small in Hg by lia. discriminate. }
  assert (forall z, (s - 2 <= z <= s + 3)%Z -> py_index W z = Some (wrap_index W z)) as Hidx
    by (intros z Hz; apply py_index_wrap; lia).
  set (k := fun z => wrap_index W z).
  set (lo := quarter_1_3 (column (data pp) (k (s - 2)%Z)) (column (data pp) (k (s - 1)%Z))).
  set (li := quarter_3_1 (column (data pp) (k (s - 1)%Z)) (column (data pp) (k s))).
  set (ro := quarter_3_1 (column (data pp) (k (s + 2)%Z)) (column (data pp) (k (s + 3)%Z))).
  set (ri := quarter_1_3 (column (data pp) (k (s + 1)%Z)) (column (data pp) (k (s + 2)%Z))).
  assert (length lo = nrows (data p) /\ length li = nrows (data p) /\
          length ro = nrows (data p) /\ length ri = nrows (data p)) as (Hlo' & Hli & Hro & Hri).
  { unfold lo, li, ro, ri. split_and!;
      first [rewrite length_quarter_1_3 | rewrite length_quarter_3_1];
      rewrite ?length_column; done. }
  set (w := ncols (data p)) in *.
  set (d1 := put_col (data p) 0 lo).
  destruct (put_col_shape (data p) 0 lo) as (Hr1 & Hc1 & Hwf1); [lia | done |].
  fold d1 in Hr1, Hc1, Hwf1.
  set (d2 := put_col d1 1 li).
  destruct (put_col_shape d1 1 li) as (Hr2 & Hc2 & Hwf2); [lia | congruence |].
  fold d2 in Hr2, Hc2, Hwf2.
  set (d3 := put_col d2 (w - 1) ro).
  destruct (put_col_shape d2 (w - 1) ro) as (Hr3 & Hc3 & Hwf3); [lia | congruence |].
  fold d3 in Hr3, Hc3, Hwf3.
  set (d4 := put_col d3 (w - 2) ri).
  exists d4. split.
  - unfold bcs_mr, bind at 1, get_patch at 1. rewrite Hp. cbn [of_option].
    rewrite Hs, Hg. unfold for_range. cbn [seq for_each].
    unfold bind at 1. unfold bcs_mr_body.
    cbv zeta. change (Z.of_nat 0) with 0%Z. change (Z.of_nat 1) with 1%Z.
    change (2 * 0 + 1)%Z with 1%Z. change (2 * 0)%Z with 0%Z.
    change (-2 * 0 - 1)%Z with (-1)%Z. change (-2 * 0 - 2)%Z with (-2)%Z.
    (* the four assignments of the one pass *)
    assert (forall (m : M R (list R)) (f : list R -> M R (list R)) (g : list R -> list R -> M R unit)
              (rest : M R unit) h0,
              (do u <- m; do v <- f u; run g u v; rest) h0 =
              (run (do u <- m; do v <- f u; g u v); rest) h0) as Hassoc.
    { intros m f g rest h0. unfold bind.
      destruct (m h0) as [h1 [u|e]]; [|done].
      destruct (f u h1) as [h2 [v|e]]; done. }
    rewrite Hassoc.
    unfold bind at 1.
    rewrite (fill_assignment_index h self p q pp quarter_1_3 _ _ _
               (k (s - 2)%Z) (k (s - 1)%Z) 0); try done;
      [| apply Hidx; lia | apply Hidx; lia | apply (py_index_of_nat w 0); lia].
    fold lo d1. set (h1 := <[self := with_data p d1]> h).
    assert (h1 !! self = Some (with_data p d1)) as Hp1 by (by apply lookup_with_data).
    assert (h1 !! q = Some pp) as Hq1 by (unfold h1; by rewrite list_lookup_insert_ne).
    rewrite Hassoc. unfold bind at 1.
    rewrite (fill_assignment_index h1 self (with_data p d1) q pp quarter_3_1 _ _ _
               (k (s - 1)%Z) (k s) 1); try done;
      [| apply Hidx; lia | apply Hidx; lia
       | cbn [data with_data]; rewrite Hc1; apply (py_index_of_nat w 1); lia
       | cbn [data with_data]; fold li; congruence].
    cbn [data with_data]. fold li d2. unfold h1. rewrite heap_insert_twice, with_data_twice.
    set (h2 := <[self := with_data p d2]> h).
    assert (h2 !! self = Some (with_data p d2)) as Hp2 by (by apply lookup_with_data).
    assert (h2 !! q = Some pp) as Hq2 by (unfold h2; by rewrite list_lookup_insert_ne).
    rewrite Hassoc. unfold bind at 1.
    rewrite (fill_assignment_index h2 self (with_data p d2) q pp quarter_3_1 _ _ _
               (k (s + 2)%Z) (k (s + 3)%Z) (w - 1)); try done;
      [| replace (s + 1 + 1)%Z with (s + 2)%Z by lia; apply Hidx; lia
       | replace (s + 1 + 2)%Z with (s + 3)%Z by lia; apply Hidx; lia
       | cbn [data with_data]; rewrite Hc2;
         rewrite py_index_neg by lia; f_equal; lia
       | cbn [data with_data]; fold ro; congruence].
    cbn [data with_data]. fold ro d3. unfold h2. rewrite heap_insert_twice, with_data_twice.
    set (h3 := <[self := with_data p d3]> h).
    assert (h3 !! self = Some (with_data p d3)) as Hp3 by (by apply lookup_with_data).
    assert (h3 !! q = Some pp) as Hq3 by (unfold h3; by rewrite list_lookup_insert_ne).
    rewrite (fill_assignment_index h3 self (with_data p d3) q pp quarter_1_3 _ _ _
               (k (s + 1)%Z) (k (s + 2)%Z) (w - 2)); try done;
      [| apply Hidx; lia
       | replace (s + 1 + 1)%Z with (s + 2)%Z by lia; apply Hidx; lia
       | cbn [data with_data]; rewrite Hc3;
         rewrite py_index_neg by lia; f_equal; lia
       | cbn [data with_data]; fold ri; congruence].
    cbn [data with_data]. fold ri d4. unfold h3. by rewrite heap_insert_twice, with_data_twice.
  - intros r Hr P three w'. unfold w'. rewrite <- Hc. fold w.
    assert (forall z, (s - 2 <= z <= s + 3)%Z -> k z < W) as Hk
      by (intros z Hz; apply wrap_index_lt; unfold W in *; lia).
    assert (forall j, cell d4 r j =
              if decide (j = w - 2) then default (s_of_Z 0) (ri !! r)
              else if decide (j = w - 1) then default (s_of_Z 0) (ro !! r)
              else if decide (j = 1) then default (s_of_Z 0) (li !! r)
              else if decide (j = 0) then default (s_of_Z 0) (lo !! r)
              else cell (data p) r j) as Hcell.
    { intros j. unfold d4. rewrite cell_put_col by (auto; try lia; congruence).
      case_decide; [done|]. unfold d3.
      rewrite cell_put_col by (auto; try lia; congruence).
      case_decide; [done|]. unfold d2.
      rewrite cell_put_col by (auto; try lia; congruence).
      case_decide; [done|]. unfold d1.
      rewrite cell_put_col by (auto; try lia; congruence). done. }
    assert (r < nrows (data pp)) as Hr' by lia.
    split_and!.
    + rewrite Hcell. repeat case_decide; try lia.
      unfold lo. by rewrite lookup_quarter_1_3.
    + rewrite Hcell. repeat case_decide; try lia.
      unfold li. by rewrite lookup_quarter_3_1.
    + rewrite Hcell. repeat case_decide; try lia.
      unfold ri. by rewrite lookup_quarter_1_3.
    + rewrite Hcell. repeat case_decide; try lia.
      unfold ro. by rewrite lookup_quarter_3_1.
    + intros j Hj. rewrite Hcell. repeat case_decide; try lia. done.
Qed.

End RefinementFillWrap.

(** X26: the child of [ex_heap] with the offset 1: its outermost left
    ghost cell is made of parent columns 11 and 0. *)
Lemma bcs_mr_offset_wraps_witness :
  exists d',
    bcs_mr 1 [ex_parent; ex_shifted 1] =
    (<[1 := with_data (ex_shifted 1) d']> [ex_parent; ex_shifted 1], Ok tt) /\
    cell d' 0 0 =
      s_mul s_quarter (s_add (cell (data ex_parent) 0 11)
                             (s_mul (s_of_Z 3) (cell (data ex_parent) 0 0))).
Proof.
  destruct (bcs_mr_offset_wraps [ex_parent; ex_shifted 1] 1 (ex_shifted 1) 0 ex_parent 1)
    as (d' & Hrun & Hcells); try reflexivity.
  - discriminate.
  - cbv. discriminate.
  - repeat constructor.
  - exists d'. split; [exact Hrun|].
    pose proof (Hcells 0 ltac:(cbv; lia)) as Hrow. cbv zeta in Hrow.
    exact (proj1 Hrow).
Defined.
